(** * NullModel: the streaming emulation engine, embedded and verified

    A shallow embedding of the JavaScript sources of nullmodel
    (personas/index.js, utils/chaos.js, utils/streaming.js, config.js,
    server.js, bin/cli.js and the three provider emitters) together with
    the properties the specification states about them and further
    properties of the code.

    Conventions of the embedding.
    - A JavaScript string is the list of its UTF-16 code units.
    - A JavaScript number is a rational: arithmetic is exact, the rounding
      of IEEE-754 binary64 is not modelled.  [Math.floor], [Math.ceil] and
      [Math.round] yield integers.  Where the code can meet [NaN], in the
      configuration that the command line makes, a number is an [option]
      and [NaN] is [None]; an integer that binary64 does not hold exactly
      is left out there.
    - [Math.random()], [Date.now()], the moment the peer closes the
      connection and the built-in objects of the engine are the
      environment of a run ([World]).
    - A handler is a computation over the per-request connection state
      ([Conn]); it ends like a JavaScript function body does: normally, by
      [return], or by a thrown exception ([completion]). *)

From Stdlib Require Import String Ascii.
From Stdlib Require Import List Bool Arith ZArith NArith QArith Qround.
From Stdlib Require Import Lia Lqa DecimalString.
From Equations Require Import Equations.
Import ListNotations.

Set Implicit Arguments.
Set Warnings "-register-all".

(* ===================================================================== *)
(** ** JavaScript strings *)
(* ===================================================================== *)

Module JsString.

(** One UTF-16 code unit. *)
Definition code_unit := N.

Definition t := list code_unit.

Definition eqb (a b : t) : bool :=
  (length a =? length b)%nat && forallb (fun p => N.eqb (fst p) (snd p)) (combine a b).

(** The code units of a source literal.  The source files are UTF-8, so
    the bytes of a literal are decoded into code points, and a code point
    beyond the basic plane becomes a surrogate pair. *)
Fixpoint utf16 (bytes : list N) : t :=
  match bytes with
  | [] => []
  | b0 :: r0 =>
    if (b0 <? 128)%N then b0 :: utf16 r0 else
    match r0 with
    | [] => []
    | b1 :: r1 =>
      if (b0 <? 224)%N then ((b0 mod 32) * 64 + b1 mod 64)%N :: utf16 r1 else
      match r1 with
      | [] => []
      | b2 :: r2 =>
        if (b0 <? 240)%N
        then ((b0 mod 16) * 4096 + (b1 mod 64) * 64 + b2 mod 64)%N :: utf16 r2
        else
        match r2 with
        | [] => []
        | b3 :: r3 =>
          let cp := ((b0 mod 8) * 262144 + (b1 mod 64) * 4096
                     + (b2 mod 64) * 64 + b3 mod 64)%N in
          let v := (cp - 65536)%N in
          (55296 + v / 1024)%N :: (56320 + v mod 1024)%N :: utf16 r3
        end
      end
    end
  end.

Definition of_string (s : string) : t :=
  utf16 (map N_of_ascii (list_ascii_of_string s)).

End JsString.

Definition jsstring : Type := JsString.t.
Definition js (s : string) : jsstring := JsString.of_string s.


(* ===================================================================== *)
(** ** utils/streaming.js: the token segmenter *)
(* ===================================================================== *)

(** The character class [\s] of an ECMAScript regular expression: the
    white space and line terminator code units. *)
Definition is_space (c : N) : bool :=
  ((9 <=? c) && (c <=? 13) || (c =? 32) || (c =? 160) || (c =? 5760)
   || (8192 <=? c) && (c <=? 8202) || (c =? 8232) || (c =? 8233)
   || (c =? 8239) || (c =? 8287) || (c =? 12288) || (c =? 65279))%N.

(** The character class [\w]: [A-Za-z0-9_]. *)
Definition is_word (c : N) : bool :=
  ((65 <=? c) && (c <=? 90) || (97 <=? c) && (c <=? 122)
   || (48 <=? c) && (c <=? 57) || (c =? 95))%N.

(** The longest prefix of code units of a class, and what follows it: the
    greedy [+] of the regular expression. *)
Fixpoint span (p : N -> bool) (s : jsstring) : jsstring * jsstring :=
  match s with
  | [] => ([], [])
  | c :: r => if p c then let (run, rest) := span p r in (c :: run, rest)
              else ([], s)
  end.

(** [/(\s+|[^\s\w]|\w+)/] tried at the start of [s]: the alternatives in
    their order, each greedy.  The result is the matched text and the rest
    of the input. *)
Definition match_here (s : jsstring) : option (jsstring * jsstring) :=
  match s with
  | [] => None
  | c :: r =>
    if is_space c then
      let (run, rest) := span is_space r in Some (c :: run, rest)
    else if negb (is_space c) && negb (is_word c) then Some ([c], r)
    else if is_word c then
      let (run, rest) := span is_word r in Some (c :: run, rest)
    else None
  end.

(** [regex.exec(text)] from [lastIndex] on: the first position at which the
    expression matches.  [s] is the text from [lastIndex]; the result is the
    match and the text from the new [lastIndex]. *)
Fixpoint regex_exec (s : jsstring) : option (jsstring * jsstring) :=
  match match_here s with
  | Some m => Some m
  | None => match s with
            | [] => None
            | _ :: r => regex_exec r
            end
  end.

Lemma span_length p s : (length (snd (span p s)) <= length s)%nat.
Proof.
  induction s as [|c r IH]; simpl; [lia|].
  destruct (p c); simpl; [|lia].
  destruct (span p r) as [run rest]; simpl in *. lia.
Qed.

Lemma match_here_shorter s m rest :
  match_here s = Some (m, rest) -> (length rest < length s)%nat.
Proof.
  destruct s as [|c r]; simpl; [discriminate|].
  destruct (is_space c); simpl.
  - pose proof (span_length is_space r) as H.
    destruct (span is_space r) as [run rest']; simpl in *.
    intros [= <- <-]. lia.
  - destruct (is_word c); simpl.
    + pose proof (span_length is_word r) as H.
      destruct (span is_word r) as [run rest']; simpl in *.
      intros [= <- <-]. lia.
    + intros [= <- <-]. lia.
Qed.

Lemma regex_exec_shorter s m rest :
  regex_exec s = Some (m, rest) -> (length rest < length s)%nat.
Proof.
  induction s as [|c r IH]; [simpl; discriminate|].
  intros H. unfold regex_exec in H; fold regex_exec in H.
  destruct (match_here (c :: r)) as [[m' rest']|] eqn:E.
  - injection H as <- <-. eapply match_here_shorter; eassumption.
  - specialize (IH H). simpl. lia.
Qed.

Definition inspect {A : Type} (a : A) : { b : A | a = b } := exist _ a eq_refl.

(** [tokenize]: the loop [while ((match = regex.exec(text)) !== null)
    tokens.push(match[0])]. *)
Equations? tokenize (text : jsstring) : list jsstring by wf (length text) lt :=
  tokenize text with inspect (regex_exec text) => {
    | exist _ (Some (m, rest)) _ => m :: tokenize rest;
    | exist _ None _ => [] }.
Proof. eapply regex_exec_shorter; eassumption. Qed.

(* ===================================================================== *)
(** ** JSON values and [JSON.stringify] *)
(* ===================================================================== *)

(** The values that object literals of the emitters and request bodies are
    made of.  An object keeps its keys in insertion order, the order in
    which [JSON.stringify] prints them.  The numbers that the emitters put
    into a document are integers (counts and a time stamp). *)
Inductive json : Type :=
| JNull
| JBool (b : bool)
| JNum (n : Z)
| JStr (s : jsstring)
| JArr (items : list json)
| JObj (fields : list (jsstring * json)).

(** ToBoolean. *)
Definition truthy (v : json) : bool :=
  match v with
  | JNull => false
  | JBool b => b
  | JNum n => negb (n =? 0)%Z
  | JStr s => match s with [] => false | _ => true end
  | JArr _ | JObj _ => true
  end.

(** Own property of an object value; [None] is [undefined]. *)
Fixpoint assoc {A : Type} (k : jsstring) (fields : list (jsstring * A)) : option A :=
  match fields with
  | [] => None
  | (k', v) :: rest => if JsString.eqb k k' then Some v else assoc k rest
  end.

Definition field (k : string) (v : json) : option json :=
  match v with
  | JObj fields => assoc (js k) fields
  | _ => None
  end.

Definition has_key (k : string) (v : json) : bool :=
  match field k v with Some _ => true | None => false end.

Module Stringify.

Definition hex_digit (d : N) : N :=
  if (d <? 10)%N then (48 + d)%N else (87 + d)%N.

(** [\uXXXX] with four lower-case hexadecimal digits. *)
Definition unicode_escape (c : N) : jsstring :=
  [92; 117; hex_digit (c / 4096 mod 16); hex_digit (c / 256 mod 16);
   hex_digit (c / 16 mod 16); hex_digit (c mod 16)]%N.

Definition is_high_surrogate (c : N) : bool := ((55296 <=? c) && (c <=? 56319))%N.
Definition is_low_surrogate (c : N) : bool := ((56320 <=? c) && (c <=? 57343))%N.

(** QuoteJSONString, without the surrounding quotes: the two-character
    escapes, [\u00XX] for the other control characters and for a
    surrogate that is not part of a pair. *)
Fixpoint escape (s : jsstring) : jsstring :=
  match s with
  | [] => []
  | c :: r =>
    if (c =? 8)%N then [92; 98]%N ++ escape r
    else if (c =? 9)%N then [92; 116]%N ++ escape r
    else if (c =? 10)%N then [92; 110]%N ++ escape r
    else if (c =? 12)%N then [92; 102]%N ++ escape r
    else if (c =? 13)%N then [92; 114]%N ++ escape r
    else if (c =? 34)%N then [92; 34]%N ++ escape r
    else if (c =? 92)%N then [92; 92]%N ++ escape r
    else if (c <? 32)%N then unicode_escape c ++ escape r
    else if is_high_surrogate c then
      match r with
      | d :: r' => if is_low_surrogate d then c :: d :: escape r'
                   else unicode_escape c ++ escape r
      | [] => unicode_escape c
      end
    else if is_low_surrogate c then unicode_escape c ++ escape r
    else c :: escape r
  end.

Definition quote (s : jsstring) : jsstring := [34%N] ++ escape s ++ [34%N].

(** Number::toString of an integer. *)
Definition number (n : Z) : jsstring :=
  js (DecimalString.NilZero.string_of_int (Z.to_int n)).

Fixpoint join (sep : jsstring) (parts : list jsstring) : jsstring :=
  match parts with
  | [] => []
  | [p] => p
  | p :: rest => p ++ sep ++ join sep rest
  end.

End Stringify.

(** [JSON.stringify(v)] without indentation. *)
Fixpoint stringify (v : json) : jsstring :=
  match v with
  | JNull => js "null"
  | JBool true => js "true"
  | JBool false => js "false"
  | JNum n => Stringify.number n
  | JStr s => Stringify.quote s
  | JArr items =>
    js "[" ++ Stringify.join (js ",") (map stringify items) ++ js "]"
  | JObj fields =>
    js "{"
    ++ Stringify.join (js ",")
         (map (fun kv => match kv with
                         | (k, x) => Stringify.quote k ++ js ":" ++ stringify x
                         end) fields)
    ++ js "}"
  end.

(** [text.length] as a number. *)
Definition js_length (s : jsstring) : Z := Z.of_nat (length s).

(** [arr[i]] for a number [i] that is an integer; [None] is [undefined]. *)
Definition js_index {A : Type} (l : list A) (i : Z) : option A :=
  if (i <? 0)%Z then None else nth_error l (Z.to_nat i).

(* ===================================================================== *)
(** ** The environment of a run and the state of a connection *)
(* ===================================================================== *)

(** What reading a property of a built-in object of the engine does. *)
Inductive probe : Type :=
| ProbeThrows
| ProbeFalsy
| ProbeTruthy.

(** What a request handler cannot decide itself. *)
Record World : Type := {
  (** the successive results of [Math.random()] *)
  random : nat -> Q;
  (** [Date.now()] when the request is handled *)
  now : Z;
  (** whether the peer closes the connection while the handler is
      suspended in its n-th [sleep] (counted from 0) *)
  hangup : nat -> bool;
  (** [Object.prototype[m][k]], for a member [m] of [Object.prototype]:
      a property of a built-in function of the engine *)
  builtin : jsstring -> jsstring -> probe
}.

(** One unit written to the response stream.
    [Data d] is [`data: ${JSON.stringify(d)}\n\n`],
    [Sse e d] is [`event: ${e}\ndata: ${JSON.stringify(d)}\n\n`] and
    [DoneLine] is ['data: [DONE]\n\n']. *)
Inductive frame : Type :=
| Data (payload : json)
| Sse (name : jsstring) (payload : json)
| DoneLine.

Definition wire (f : frame) : jsstring :=
  match f with
  | Data d => js "data: " ++ stringify d ++ [10; 10]%N
  | Sse e d => js "event: " ++ e ++ [10%N] ++ js "data: " ++ stringify d ++ [10; 10]%N
  | DoneLine => js "data: [DONE]" ++ [10; 10]%N
  end.

(** The body handed to [res.end]: [JSON.stringify(doc)] or, in [sendJSON],
    [JSON.stringify(doc, null, 2)]. *)
Inductive body_text : Type :=
| Compact (doc : json)
| Indented (doc : json).

(** What a handler does to the outside, in the order it does it. *)
Inductive event : Type :=
| WriteHead (status : Z) (headers : list (jsstring * jsstring))
| Write (f : frame)
| End (body : option body_text)
| Sleep (ms : Z).

Record Conn : Type := {
  draws : nat;            (** calls of [Math.random()] so far *)
  sleeps : nat;           (** completed [sleep]s so far *)
  destroyed : bool;       (** [res.destroyed] *)
  log : list event
}.

Definition fresh : Conn :=
  {| draws := 0; sleeps := 0; destroyed := false; log := [] |}.

(** How the evaluation of a function body ends. *)
Inductive completion (A : Type) : Type :=
| Normal (a : A)
| Return
| Throw (error : jsstring).
Arguments Normal {A} a.
Arguments Return {A}.
Arguments Throw {A} error.

Definition M (A : Type) : Type := World -> Conn -> completion A * Conn.

Definition ret {A} (a : A) : M A := fun _ s => (Normal a, s).

Definition bind {A B} (m : M A) (k : A -> M B) : M B :=
  fun w s =>
    match m w s with
    | (Normal a, s') => k a w s'
    | (Return, s') => (Return, s')
    | (Throw e, s') => (Throw e, s')
    end.

Notation "x <- m ;; k" := (bind m (fun x => k))
  (at level 61, m at next level, right associativity).
Notation "m ;; k" := (bind m (fun _ => k))
  (at level 61, right associativity).

(** [return;] *)
Definition return_ {A} : M A := fun _ s => (Return, s).

(** [throw new TypeError(msg)] *)
Definition throw {A} (msg : string) : M A := fun _ s => (Throw (js msg), s).

(** The call of a function whose result is not used: a [return] of the
    callee ends the callee only. *)
Definition call (m : M unit) : M unit :=
  fun w s =>
    match m w s with
    | (Return, s') => (Normal tt, s')
    | r => r
    end.

Definition emit (e : event) : M unit :=
  fun _ s => (Normal tt, {| draws := draws s; sleeps := sleeps s;
                            destroyed := destroyed s; log := log s ++ [e] |}).

(** [Math.random()] *)
Definition Math_random : M Q :=
  fun w s => (Normal (random w (draws s)),
              {| draws := S (draws s); sleeps := sleeps s;
                 destroyed := destroyed s; log := log s |}).

(** [Date.now()] *)
Definition Date_now : M Z := fun w s => (Normal (now w), s).

Definition res_writeHead (status : Z) (headers : list (jsstring * jsstring)) : M unit :=
  emit (WriteHead status headers).

Definition res_write (f : frame) : M unit := emit (Write f).

Definition res_end (body : option body_text) : M unit := emit (End body).

(** [res.destroyed] *)
Definition res_destroyed : M bool := fun _ s => (Normal (destroyed s), s).

(** [await sleep(ms)]: the handler is suspended, and the connection may be
    closed by the peer meanwhile. *)
Definition sleep (ms : Z) : M unit :=
  fun w s => (Normal tt,
              {| draws := draws s; sleeps := S (sleeps s);
                 destroyed := destroyed s || hangup w (sleeps s);
                 log := log s ++ [Sleep ms] |}).

(** [for (const x of xs) body] *)
Fixpoint for_of {A} (xs : list A) (body : A -> M unit) : M unit :=
  match xs with
  | [] => ret tt
  | x :: rest => body x ;; for_of rest body
  end.

(** [for (let i = start; i < start + count; i++) body] *)
Fixpoint for_upto (count start : nat) (body : nat -> M unit) : M unit :=
  match count with
  | O => ret tt
  | S c => body start ;; for_upto c (S start) body
  end.

(** The frames written, in order. *)
Fixpoint frames (l : list event) : list frame :=
  match l with
  | [] => []
  | Write f :: rest => f :: frames rest
  | _ :: rest => frames rest
  end.

Definition is_sleep (e : event) : bool :=
  match e with Sleep _ => true | _ => false end.

(* ===================================================================== *)
(** ** Numbers *)
(* ===================================================================== *)

Definition Math_floor (x : Q) : Z := Qfloor x.
Definition Math_ceil (x : Q) : Z := Qceiling x.

(** [Math.round]: the nearest integer, a half rounded up. *)
Definition Math_round (x : Q) : Z := Qfloor (x + (1 # 2)).

Definition Math_max (a b : Z) : Z := Z.max a b.

(* ===================================================================== *)
(** ** config.js *)
(* ===================================================================== *)

Record Latency : Type := {
  firstToken : Q;
  perToken : Q;
  variance : Q
}.

Record Defaults : Type := {
  persona : jsstring;
  maxTokens : Z
}.

Record Chaos : Type := {
  enabled : bool;
  errorRate : Q;
  slowdownRate : Q;
  slowdownMultiplier : Q;
  rateLimitRate : Q
}.

Record Config : Type := {
  port : Z;
  latency : Latency;
  defaults : Defaults;
  chaos : Chaos;
  cors : bool;
  verbose : bool
}.

Definition DEFAULTS : Config := {|
  port := 4000;
  latency := {| firstToken := 300; perToken := 30; variance := 3 # 10 |};
  defaults := {| persona := js "balanced"; maxTokens := 512 |};
  chaos := {| enabled := false;
              errorRate := 5 # 100;
              slowdownRate := 1 # 10;
              slowdownMultiplier := 5;
              rateLimitRate := 2 # 100 |};
  cors := true;
  verbose := false
|}.

(* ===================================================================== *)
(** ** utils/streaming.js: latency model, identifiers, usage estimate *)
(* ===================================================================== *)

(** [base * jitter] with [jitter = 1 + (Math.random() * 2 - 1) * variance],
    for the value [r] that [Math.random()] returned. *)
Definition jittered (base variance r : Q) : Q :=
  base * (1 + (r * 2 - 1) * variance).

(** [Math.max(floor, Math.round(base * jitter))] *)
Definition delay (floor : Z) (base variance r : Q) : Z :=
  Math_max floor (Math_round (jittered base variance r)).

Definition getTokenDelay (config : Config) : M Z :=
  r <- Math_random ;;
  ret (delay 5 (perToken (latency config)) (variance (latency config)) r).

Definition getFirstTokenDelay (config : Config) : M Z :=
  r <- Math_random ;;
  ret (delay 50 (firstToken (latency config)) (variance (latency config)) r).

Definition chars : jsstring :=
  js "abcdefghijklmnopqrstuvwxyzABCDEFGHIJKLMNOPQRSTUVWXYZ0123456789".

(** [chars[i]] appended to a string: a string of one code unit, or the text
    [undefined] when there is no such index. *)
Definition char_at (i : Z) : jsstring :=
  match js_index chars i with
  | Some c => [c]
  | None => js "undefined"
  end.

Fixpoint generateId_loop (n : nat) (id : jsstring) : M jsstring :=
  match n with
  | O => ret id
  | S n' =>
    r <- Math_random ;;
    generateId_loop n' (id ++ char_at (Math_floor (r * inject_Z (js_length chars))))
  end.

Definition generateId (prefix : string) : M jsstring :=
  id <- generateId_loop 24 [] ;;
  ret (js prefix ++ js "-" ++ id).

(** [Math.ceil(text.length / 4)] *)
Definition estimateTokens (text : jsstring) : Z :=
  Math_ceil (inject_Z (js_length text) / 4).

(* ===================================================================== *)
(** ** Property lookup on object literals *)
(* ===================================================================== *)

(** The properties every object literal inherits from [Object.prototype]. *)
Definition object_prototype_keys : list jsstring :=
  [ js "constructor"; js "__defineGetter__"; js "__defineSetter__";
    js "hasOwnProperty"; js "__lookupGetter__"; js "__lookupSetter__";
    js "isPrototypeOf"; js "propertyIsEnumerable"; js "toString"; js "valueOf";
    js "__proto__"; js "toLocaleString" ].

(** The result of [obj[key]] on an object literal [obj]: an own property,
    a property found on the prototype (a built-in function, or
    [Object.prototype] itself for [__proto__]: a truthy value either way),
    or [undefined]. *)
Inductive lookup (A : Type) : Type :=
| Own (a : A)
| Inherited (key : jsstring)
| Missing.
Arguments Own {A} a.
Arguments Inherited {A} key.
Arguments Missing {A}.

Definition js_get {A : Type} (obj : list (jsstring * A)) (key : jsstring) : lookup A :=
  match assoc key obj with
  | Some a => Own a
  | None => if existsb (JsString.eqb key) object_prototype_keys
            then Inherited key else Missing
  end.

(* ===================================================================== *)
(** ** utils/chaos.js: the fault injection engine *)
(* ===================================================================== *)

(** [a < b] on numbers. *)
Definition ltb (a b : Q) : bool := negb (Qle_bool b a).

(** The body of [shouldTriggerChaos] after the draw, for the value
    [roll] that [Math.random()] returned. *)
Definition chaosBand (c : Chaos) (roll : Q) : option jsstring :=
  if ltb roll (rateLimitRate c) then Some (js "rate_limit")
  else if ltb roll (rateLimitRate c + errorRate c) then Some (js "server_error")
  else if ltb roll (rateLimitRate c + errorRate c + slowdownRate c)
  then Some (js "slowdown")
  else None.

Definition shouldTriggerChaos (config : Config) : M (option jsstring) :=
  if negb (enabled (chaos config)) then ret None
  else
    roll <- Math_random ;;
    ret (chaosBand (chaos config) roll).

Record ChaosResponse : Type := {
  status : Z;
  body : json;
  headers : option (list (jsstring * jsstring))
}.

(** One property [k: v] of an object literal. *)
Definition prop (k : string) (v : json) : jsstring * json := (js k, v).

Definition obj (fields : list (jsstring * json)) : json := JObj fields.

(** [r.body] of a chaos response. *)
Definition ChaosResponse_body (r : ChaosResponse) : json := body r.

Definition str (s : string) : json := JStr (js s).

Definition apostrophe : string := String (ascii_of_nat 39) EmptyString.

Definition errors_rate_limit : list (jsstring * ChaosResponse) :=
  [ (js "openai",
     {| status := 429;
        body := obj [ prop "error" (obj
          [ prop "message" (str "Rate limit reached for gpt-4 in organization org-mock on tokens per min (TPM): Limit 40000, Used 39532, Requested 1024.");
            prop "type" (str "tokens");
            prop "param" JNull;
            prop "code" (str "rate_limit_exceeded") ]) ];
        headers := Some [ (js "retry-after", js "2");
                          (js "x-ratelimit-remaining-tokens", js "468") ] |});
    (js "anthropic",
     {| status := 429;
        body := obj [ prop "type" (str "error");
                      prop "error" (obj
          [ prop "type" (str "rate_limit_error");
            prop "message" (str "Number of request tokens has exceeded your per-minute rate limit.") ]) ];
        headers := Some [ (js "retry-after", js "2") ] |});
    (js "gemini",
     {| status := 429;
        body := obj [ prop "error" (obj
          [ prop "code" (JNum 429);
            prop "message" (str "Resource has been exhausted (e.g. check quota).");
            prop "status" (str "RESOURCE_EXHAUSTED") ]) ];
        headers := Some [ (js "retry-after", js "2") ] |}) ].

Definition errors_server_error : list (jsstring * ChaosResponse) :=
  [ (js "openai",
     {| status := 500;
        body := obj [ prop "error" (obj
          [ prop "message" (str "The server had an error while processing your request. Sorry about that!");
            prop "type" (str "server_error");
            prop "param" JNull;
            prop "code" JNull ]) ];
        headers := None |});
    (js "anthropic",
     {| status := 500;
        body := obj [ prop "type" (str "error");
                      prop "error" (obj
          [ prop "type" (str "api_error");
            prop "message" (JStr (js "An unexpected error has occurred internal to Anthropic"
                              ++ js apostrophe ++ js "s systems.")) ]) ];
        headers := None |});
    (js "gemini",
     {| status := 500;
        body := obj [ prop "error" (obj
          [ prop "code" (JNum 500);
            prop "message" (str "An internal error has occurred. Please retry or report in https://developers.generativeai.google/guide/troubleshooting");
            prop "status" (str "INTERNAL") ]) ];
        headers := None |}) ].

Definition errors_context_length : list (jsstring * ChaosResponse) :=
  [ (js "openai",
     {| status := 400;
        body := obj [ prop "error" (obj
          [ prop "message" (str "This model's maximum context length is 128000 tokens. However, your messages resulted in 129847 tokens. Please reduce the length of the messages.");
            prop "type" (str "invalid_request_error");
            prop "param" (str "messages");
            prop "code" (str "context_length_exceeded") ]) ];
        headers := None |});
    (js "anthropic",
     {| status := 400;
        body := obj [ prop "type" (str "error");
                      prop "error" (obj
          [ prop "type" (str "invalid_request_error");
            prop "message" (str "prompt is too long: 129847 tokens > 200000 maximum") ]) ];
        headers := None |});
    (js "gemini",
     {| status := 400;
        body := obj [ prop "error" (obj
          [ prop "code" (JNum 400);
            prop "message" (str "Request payload size exceeds the limit: 2097152 bytes.");
            prop "status" (str "INVALID_ARGUMENT") ]) ];
        headers := None |}) ].

Definition errors_timeout : list (jsstring * ChaosResponse) :=
  [ (js "openai",
     {| status := 408;
        body := obj [ prop "error" (obj
          [ prop "message" (str "Request timed out.");
            prop "type" (str "timeout_error");
            prop "param" JNull;
            prop "code" (str "timeout") ]) ];
        headers := None |});
    (js "anthropic",
     {| status := 408;
        body := obj [ prop "type" (str "error");
                      prop "error" (obj
          [ prop "type" (str "timeout_error");
            prop "message" (str "Request timed out.") ]) ];
        headers := None |});
    (js "gemini",
     {| status := 504;
        body := obj [ prop "error" (obj
          [ prop "code" (JNum 504);
            prop "message" (str "Deadline exceeded.");
            prop "status" (str "DEADLINE_EXCEEDED") ]) ];
        headers := None |}) ].

Definition errors : list (jsstring * list (jsstring * ChaosResponse)) :=
  [ (js "rate_limit", errors_rate_limit);
    (js "server_error", errors_server_error);
    (js "context_length", errors_context_length);
    (js "timeout", errors_timeout) ].

(** [errors.server_error.openai] *)
Definition server_error_openai : ChaosResponse :=
  match assoc (js "openai") errors_server_error with
  | Some r => r
  | None => {| status := 500; body := JNull; headers := None |}
  end.

(** What [getChaosResponse] returns: one of the payloads of the table, or
    a value that the lookup found on the prototype chain ([via] is the
    sequence of keys that led to it). *)
Inductive ChaosValue : Type :=
| Payload (r : ChaosResponse)
| Foreign (via : list jsstring).

(** [getChaosResponse(type, provider = 'openai')]:
    [errors[type]?.[provider] || errors.server_error[provider]
     || errors.server_error.openai].
    The properties of the built-in objects are those of the engine
    ([engine m k] is [Object.prototype[m][k]]). *)
Definition getChaosResponse (engine : jsstring -> jsstring -> probe)
    (type : jsstring) (provider : option jsstring) : completion ChaosValue :=
  let provider := match provider with Some p => p | None => js "openai" end in
  let fallback :=
    match js_get errors_server_error provider with
    | Own r => Normal (Payload r)
    | Inherited k => Normal (Foreign [js "server_error"; k])
    | Missing => Normal (Payload server_error_openai)
    end in
  match js_get errors type with
  | Own table =>
    match js_get table provider with
    | Own r => Normal (Payload r)
    | Inherited k => Normal (Foreign [type; k])
    | Missing => fallback
    end
  | Inherited m =>
    match engine m provider with
    | ProbeThrows => Throw (js "TypeError")
    | ProbeTruthy => Normal (Foreign [m; provider])
    | ProbeFalsy => fallback
    end
  | Missing => fallback
  end.

(* ===================================================================== *)
(** ** personas/index.js: the persona catalog *)
(* ===================================================================== *)

Module ToolCall.
Record t : Type := {
  name : jsstring;
  arguments : json
}.
End ToolCall.

Record Persona : Type := {
  name : jsstring;
  description : jsstring;
  responses : list jsstring;
  toolCalls : option (list ToolCall.t)
}.

(** A literal that spans several lines: its lines, joined by [\n]. *)
Definition lines (ls : list string) : jsstring :=
  Stringify.join [10%N] (map js ls).

Module Texts.
Local Open Scope string_scope.

Definition balanced : list jsstring :=
  [ lines
      [ "That's a great question. Let me break it down.";
        EmptyString;
        "The core idea is relatively simple: you're building a pipeline that transforms raw input into structured output. The tricky part is handling edge cases — malformed data, timeouts, and partial failures.";
        EmptyString;
        "I'd recommend starting with the happy path, getting that solid, then layering in error handling incrementally. Don't try to boil the ocean on v1." ];
    lines
      [ "Here's what I'd suggest:";
        EmptyString;
        "First, separate your concerns. The data fetching layer shouldn't know anything about how the UI renders. Second, make your state transitions explicit — don't let things happen implicitly.";
        EmptyString;
        "The biggest mistake I see is coupling the loading state to the data state. Keep them independent, and your UI will be much more predictable." ];
    lines
      [ "There are a few ways to approach this, each with tradeoffs.";
        EmptyString;
        "The simplest approach is a direct API call on each interaction. Low complexity, but you'll hit latency issues at scale. The more robust approach is to batch requests and process them async, but that adds complexity to your state management.";
        EmptyString;
        "For most cases, I'd start simple and optimize later. Premature optimization is still the root of all evil." ] ].

Definition verbose : list jsstring :=
  [ lines
      [ "This is a really important topic, and I want to make sure I give you a comprehensive answer.";
        EmptyString;
        "## Background";
        EmptyString;
        "To understand the current state of things, we need to go back to the fundamentals. The architecture you're describing evolved from earlier patterns in distributed systems, specifically the idea of message-passing between loosely coupled services.";
        EmptyString;
        "The key insight was that by decoupling producers from consumers, you gain flexibility in how you scale, deploy, and recover from failures. This isn't a new idea — it dates back to the early days of Unix pipes — but the modern implementation looks quite different.";
        EmptyString;
        "## The Current Landscape";
        EmptyString;
        "Today, you have several options:";
        EmptyString;
        "1. **Event-driven architecture** — Services emit events, other services react. Great for loose coupling, but debugging can be painful because the flow isn't linear.";
        EmptyString;
        "2. **Request-response with queues** — More traditional, easier to reason about, but you lose some of the flexibility of pure event-driven systems.";
        EmptyString;
        "3. **Hybrid approaches** — Most production systems end up here. Synchronous for the critical path, async for everything else.";
        EmptyString;
        "## My Recommendation";
        EmptyString;
        "Given what you've described, I'd lean toward option 3. Here's why:";
        EmptyString;
        "- Your latency requirements on the critical path suggest you need synchronous responses";
        "- But your analytics and logging pipeline is a perfect candidate for async processing";
        "- The hybrid approach lets you optimize each path independently";
        EmptyString;
        "The implementation would look something like this: your API gateway handles the synchronous request-response cycle, and after returning the response to the client, it drops a message onto a queue for downstream processing. This gives you the best of both worlds — low latency for the user, and decoupled processing for everything else.";
        EmptyString;
        "## Common Pitfalls";
        EmptyString;
        "A few things to watch out for:";
        EmptyString;
        "- **Don't forget about backpressure.** If your async consumers can't keep up, your queues will grow unbounded. Set up dead-letter queues and alerting from day one.";
        "- **Idempotency is non-negotiable.** Messages will be delivered more than once. Design your consumers to handle that gracefully.";
        "- **Observability first.** In a distributed system, the ability to trace a request across services is critical. Invest in this early.";
        EmptyString;
        "I know this is a lot, but these fundamentals will save you significant pain down the line. Happy to dive deeper into any specific area." ] ].

Definition terse : list jsstring :=
  [ js "Yes, that's correct.";
    js "No. Use a `Map` instead.";
    js "42.";
    js "Try `JSON.parse()` with a try-catch wrapper.";
    js "That's a bug, not a feature.";
    js "Correct." ].

Definition code : list jsstring :=
  [ lines
      [ "Here's a clean implementation:";
        EmptyString;
        "```typescript";
        "interface StreamOptions {";
        "  onToken: (token: string) => void;";
        "  onComplete: () => void;";
        "  onError: (error: Error) => void;";
        "  signal?: AbortSignal;";
        "}";
        EmptyString;
        "async function streamCompletion(";
        "  prompt: string,";
        "  options: StreamOptions";
        "): Promise<void> {";
        "  const { onToken, onComplete, onError, signal } = options;";
        EmptyString;
        "  try {";
        "    const response = await fetch('/api/chat', {";
        "      method: 'POST',";
        "      headers: { 'Content-Type': 'application/json' },";
        "      body: JSON.stringify({ prompt }),";
        "      signal,";
        "    });";
        EmptyString;
        "    if (!response.ok) {";
        "      throw new Error(`HTTP ${response.status}`);";
        "    }";
        EmptyString;
        "    const reader = response.body?.getReader();";
        "    if (!reader) throw new Error('No reader available');";
        EmptyString;
        "    const decoder = new TextDecoder();";
        EmptyString;
        "    while (true) {";
        "      const { done, value } = await reader.read();";
        "      if (done) break;";
        EmptyString;
        "      const chunk = decoder.decode(value, { stream: true });";
        "      const lines = chunk.split('\n').filter(Boolean);";
        EmptyString;
        "      for (const line of lines) {";
        "        if (line.startsWith('data: ')) {";
        "          const data = line.slice(6);";
        "          if (data === '[DONE]') {";
        "            onComplete();";
        "            return;";
        "          }";
        "          const parsed = JSON.parse(data);";
        "          const token = parsed.choices?.[0]?.delta?.content ?? '';";
        "          if (token) onToken(token);";
        "        }";
        "      }";
        "    }";
        EmptyString;
        "    onComplete();";
        "  } catch (err) {";
        "    if (err instanceof Error) onError(err);";
        "  }";
        "}";
        "```";
        EmptyString;
        "Key things: the `AbortSignal` support lets you wire up a stop button, and the chunked line parsing handles the SSE format correctly even when chunks split across lines." ];
    lines
      [ "Quick solution:";
        EmptyString;
        "```javascript";
        "const retry = async (fn, retries = 3, delay = 1000) => {";
        "  for (let i = 0; i < retries; i++) {";
        "    try {";
        "      return await fn();";
        "    } catch (err) {";
        "      if (i === retries - 1) throw err;";
        "      await new Promise(r => setTimeout(r, delay * Math.pow(2, i)));";
        "    }";
        "  }";
        "};";
        EmptyString;
        "// Usage";
        "const result = await retry(() => callLLM(prompt), 3, 500);";
        "```";
        EmptyString;
        "Exponential backoff built in. Adjust `retries` and base `delay` to taste." ] ].

Definition markdown : list jsstring :=
  [ lines
      [ "# Comparison: Streaming Approaches";
        EmptyString;
        "Here's how the main approaches stack up:";
        EmptyString;
        "| Approach | Latency | Complexity | Browser Support |";
        "|----------|---------|------------|----------------|";
        "| **SSE** | Low | Low | ✅ All modern |";
        "| **WebSocket** | Very Low | Medium | ✅ All modern |";
        "| **Long Polling** | Medium | Low | ✅ Universal |";
        "| **WebTransport** | Very Low | High | ⚠️ Limited |";
        EmptyString;
        "## Key Takeaways";
        EmptyString;
        "- **For most AI apps, SSE is the right choice.** It's simple, well-supported, and designed for exactly this use case (server → client streaming).";
        "- **WebSockets** make sense if you need bidirectional streaming (e.g., real-time collaboration on prompts).";
        "- **Long polling** is your fallback for hostile network environments.";
        EmptyString;
        "> **Pro tip:** Always implement a reconnection strategy. SSE has `EventSource` built-in retry, but if you're using `fetch` with a `ReadableStream`, you'll need to handle reconnection yourself.";
        EmptyString;
        "### The decision tree";
        EmptyString;
        "1. Do you need server → client only? → **SSE**";
        "2. Do you need bidirectional? → **WebSocket**";
        "3. Are you behind a corporate proxy that kills connections? → **Long Polling**";
        "4. Do you need multiplexed streams? → **WebTransport** *(but check browser support)*";
        EmptyString;
        "---";
        EmptyString;
        "*Note: All approaches benefit from `gzip` or `brotli` compression on the wire. Don't skip this — it makes a bigger difference than you'd expect on token-heavy payloads.*" ] ].

Definition tool_calls : list jsstring :=
  [ js "I'll look up the current weather for you.";
    js "Let me search the database for that information.";
    js "I'll create that document for you now." ].

Definition error_prone : list jsstring :=
  [ js "__ERROR__:rate_limit";
    js "__ERROR__:context_length";
    js "__ERROR__:server_error";
    js "__ERROR__:timeout";
    js "This response works fine though." ].

End Texts.

Definition tool_calls_toolCalls : list ToolCall.t :=
  [ {| ToolCall.name := js "get_weather";
       ToolCall.arguments := obj [ prop "location" (str "San Francisco, CA");
                                   prop "unit" (str "celsius") ] |};
    {| ToolCall.name := js "search_database";
       ToolCall.arguments := obj [ prop "query" (str "recent orders");
                                   prop "limit" (JNum 10);
                                   prop "status" (str "pending") ] |};
    {| ToolCall.name := js "create_document";
       ToolCall.arguments := obj [ prop "title" (str "Q4 Planning Notes");
                                   prop "content" (str "Initial draft for Q4 planning...");
                                   prop "tags" (JArr [ str "planning"; str "q4"; str "2025" ]) ] |} ].

Module Catalog.
Definition balanced : Persona := {|
  name := js "balanced";
  description := js "Medium-length, natural responses with mixed formatting";
  responses := Texts.balanced;
  toolCalls := None
|}.

Definition verbose : Persona := {|
  name := js "verbose";
  description := js "Long, detailed responses — tests scroll, rendering perf, and overflow";
  responses := Texts.verbose;
  toolCalls := None
|}.

Definition terse : Persona := {|
  name := js "terse";
  description := js "Very short responses — tests compact UI states";
  responses := Texts.terse;
  toolCalls := None
|}.

Definition code : Persona := {|
  name := js "code";
  description := js "Code-heavy responses — tests syntax highlighting, code blocks";
  responses := Texts.code;
  toolCalls := None
|}.

Definition markdown : Persona := {|
  name := js "markdown";
  description := js "Rich markdown with tables, lists, emphasis — tests full markdown rendering";
  responses := Texts.markdown;
  toolCalls := None
|}.

Definition tool_calls : Persona := {|
  name := js "tool_calls";
  description := js "Responses with tool/function calls — tests tool call UI rendering";
  responses := Texts.tool_calls;
  toolCalls := Some tool_calls_toolCalls
|}.

Definition error_prone : Persona := {|
  name := js "error_prone";
  description := js "Simulates various error states — tests error UI handling";
  responses := Texts.error_prone;
  toolCalls := None
|}.

End Catalog.

Definition personas : list (jsstring * Persona) :=
  [ (js "balanced", Catalog.balanced);
    (js "verbose", Catalog.verbose);
    (js "terse", Catalog.terse);
    (js "code", Catalog.code);
    (js "markdown", Catalog.markdown);
    (js "tool_calls", Catalog.tool_calls);
    (js "error_prone", Catalog.error_prone) ].

(** The value of [personas[name]] that [getPersona] hands out: a persona
    of the catalog, or what the lookup found on [Object.prototype] under
    that name (a built-in function, or [Object.prototype] itself). *)
Inductive PersonaValue : Type :=
| IsPersona (p : Persona)
| FromPrototype (key : jsstring).

(** [personas[name] || personas.balanced] *)
Definition getPersona (name : jsstring) : PersonaValue :=
  match js_get personas name with
  | Own p => IsPersona p
  | Inherited key => FromPrototype key
  | Missing => IsPersona Catalog.balanced
  end.

(** [getResponse(persona)] for a persona object; [None] is [undefined].
    A value from the prototype has no [responses]: reading the [length]
    of [undefined] throws. *)
Definition getResponse (persona : PersonaValue) : M (option jsstring) :=
  r <- Math_random ;;
  match persona with
  | IsPersona p =>
    let idx := Math_floor (r * inject_Z (Z.of_nat (length (responses p)))) in
    ret (js_index (responses p) idx)
  | FromPrototype _ =>
    throw "TypeError: Cannot read properties of undefined (reading 'length')"
  end.

Record ToolCallPick : Type := {
  toolCall : option ToolCall.t;
  response : option jsstring
}.

(** [a || b] on strings that may be [undefined]. *)
Definition or_string (a b : option jsstring) : option jsstring :=
  match a with
  | Some (_ :: _) => a
  | _ => b
  end.

(** [getToolCall(persona)]; [None] is [null]. *)
Definition getToolCall (persona : PersonaValue) : M (option ToolCallPick) :=
  match persona with
  | IsPersona p =>
    match toolCalls p with
    | None => ret None
    | Some calls =>
      r <- Math_random ;;
      let idx := Math_floor (r * inject_Z (Z.of_nat (length calls))) in
      ret (Some {| toolCall := js_index calls idx;
                   response := or_string (js_index (responses p) idx)
                                         (js_index (responses p) 0) |})
    end
  | FromPrototype _ => ret None
  end.

(** [listPersonas()] *)
Definition listPersonas : list (jsstring * jsstring) :=
  map (fun kp => (fst kp, description (snd kp))) personas.

(* ===================================================================== *)
(** ** What the three provider files share *)
(* ===================================================================== *)

(** The fields of a request body that the handlers read; [None] is an
    absent field.  [_persona] is a string and [tools] an array, as the
    three provider interfaces define them. *)
Record Body : Type := {
  model : option json;
  stream : option json;
  _persona : option jsstring;
  tools : option (list json);
  messages : option json;
  contents : option json
}.

(** [body._persona || config.defaults.persona] *)
Definition persona_hint (body : Body) (config : Config) : jsstring :=
  match _persona body with
  | Some (c :: h) => c :: h
  | _ => persona (defaults config)
  end.

(** [resolvePersona(body, config)].  Each provider file has its own copy
    of this function. *)
Definition resolvePersona (body : Body) (config : Config) : PersonaValue :=
  getPersona (persona_hint body config).

(** [persona.name === 'tool_calls' || body.tools?.length > 0] *)
Definition isToolCall (persona : PersonaValue) (body : Body) : bool :=
  match persona with
  | IsPersona p => JsString.eqb (name p) (js "tool_calls")
  | FromPrototype _ => false
  end
  || match tools body with
     | Some (_ :: _) => true
     | _ => false
     end.

(** [persona.toolCalls], as a condition. *)
Definition has_toolCalls (persona : PersonaValue) : bool :=
  match persona with
  | IsPersona p => match toolCalls p with Some _ => true | None => false end
  | FromPrototype _ => false
  end.

(** The content selection that opens each of the three handlers:
    [if (isToolCall && persona.toolCalls) { const tc = getToolCall(persona);
     toolCall = tc.toolCall; content = tc.response; }
     else { content = getResponse(persona); }] *)
Definition selectContent (persona : PersonaValue) (body : Body)
  : M (option jsstring * option ToolCall.t) :=
  if isToolCall persona body && has_toolCalls persona then
    tc <- getToolCall persona ;;
    match tc with
    | Some pick => ret (response pick, toolCall pick)
    | None => throw "TypeError: Cannot read properties of null (reading 'toolCall')"
    end
  else
    content <- getResponse persona ;;
    ret (content, None).

(** [estimateTokens(content)] for a content that may be [undefined]. *)
Definition estimateTokens_of (content : option jsstring) : M (jsstring * Z) :=
  match content with
  | Some text => ret (text, estimateTokens text)
  | None => throw "TypeError: Cannot read properties of undefined (reading 'length')"
  end.

(** [estimateTokens(JSON.stringify(x || []))] *)
Definition estimatePrompt (x : option json) : Z :=
  estimateTokens (stringify (match x with
                             | Some v => if truthy v then v else JArr []
                             | None => JArr []
                             end)).

(** [!(body.stream ?? false)] *)
Definition not_streaming (body : Body) : bool :=
  match stream body with
  | Some v => negb (truthy v)
  | None => true
  end.

(** [chunkString(str, size)]: [str] from index [i] on is cut into pieces of
    [size] code units.  With [size] zero the loop of the source would not
    advance; both callers pass a positive constant. *)
Equations? chunkString (text : jsstring) (size : positive) : list jsstring
  by wf (length text) lt :=
  chunkString [] _ := [];
  chunkString (c :: r) size :=
    firstn (Pos.to_nat size) (c :: r)
    :: chunkString (skipn (Pos.to_nat size) (c :: r)) size.
Proof.
  destruct (Pos.to_nat size) as [|n] eqn:E; [lia|].
  simpl. pose proof (length_skipn n r). lia.
Qed.

Definition json_headers : list (jsstring * jsstring) :=
  [ (js "Content-Type", js "application/json") ].

(** [if (res.destroyed) return;] *)
Definition return_if_destroyed : M unit :=
  gone <- res_destroyed ;;
  if gone then return_ else ret tt.

(* ===================================================================== *)
(** ** providers/openai.js *)
(* ===================================================================== *)

Module OpenAI.

Record Params : Type := {
  completionId : jsstring;
  created : Z;
  model_ : json;
  content : jsstring;
  toolCall_ : option ToolCall.t;
  promptTokens : Z;
  completionTokens : Z
}.

Definition usage (p : Params) : json :=
  obj [ prop "prompt_tokens" (JNum (promptTokens p));
        prop "completion_tokens" (JNum (completionTokens p));
        prop "total_tokens" (JNum (promptTokens p + completionTokens p)) ].

Definition sendNonStreaming (p : Params) : M unit :=
  message <-
    match toolCall_ p with
    | Some tc =>
      id <- generateId "call" ;;
      ret (obj [ prop "role" (str "assistant");
                 prop "content" JNull;
                 prop "tool_calls" (JArr
                   [ obj [ prop "id" (JStr id);
                           prop "type" (str "function");
                           prop "function" (obj
                             [ prop "name" (JStr (ToolCall.name tc));
                               prop "arguments"
                                 (JStr (stringify (ToolCall.arguments tc))) ]) ] ]) ])
    | None =>
      ret (obj [ prop "role" (str "assistant");
                 prop "content" (JStr (content p)) ])
    end ;;
  let response :=
    obj [ prop "id" (JStr (completionId p));
          prop "object" (str "chat.completion");
          prop "created" (JNum (created p));
          prop "model" (model_ p);
          prop "choices" (JArr
            [ obj [ prop "index" (JNum 0);
                    prop "message" message;
                    prop "finish_reason"
                      (match toolCall_ p with
                       | Some _ => str "tool_calls"
                       | None => str "stop"
                       end) ] ]);
          prop "usage" (usage p) ] in
  res_writeHead 200 json_headers ;;
  res_end (Some (Compact response)).

(** A [chat.completion.chunk] document with one choice. *)
Definition chunk (p : Params) (delta finish_reason : json)
    (more : list (jsstring * json)) : json :=
  obj ([ prop "id" (JStr (completionId p));
         prop "object" (str "chat.completion.chunk");
         prop "created" (JNum (created p));
         prop "model" (model_ p);
         prop "choices" (JArr
           [ obj [ prop "index" (JNum 0);
                   prop "delta" delta;
                   prop "finish_reason" finish_reason ] ]) ] ++ more).

Definition roleChunk (p : Params) : json :=
  chunk p (obj [ prop "role" (str "assistant"); prop "content" (JStr []) ]) JNull [].

Definition toolChunk (p : Params) (callId : jsstring) (tc : ToolCall.t) : json :=
  chunk p
    (obj [ prop "tool_calls" (JArr
      [ obj [ prop "index" (JNum 0);
              prop "id" (JStr callId);
              prop "type" (str "function");
              prop "function" (obj [ prop "name" (JStr (ToolCall.name tc));
                                     prop "arguments" (JStr []) ]) ] ]) ])
    JNull [].

Definition argChunk (p : Params) (piece : jsstring) : json :=
  chunk p
    (obj [ prop "tool_calls" (JArr
      [ obj [ prop "index" (JNum 0);
              prop "function" (obj [ prop "arguments" (JStr piece) ]) ] ]) ])
    JNull [].

Definition doneChunk (p : Params) : json :=
  chunk p (obj []) (str "tool_calls") [].

Definition tokenChunk (p : Params) (token : jsstring) : json :=
  chunk p (obj [ prop "content" (JStr token) ]) JNull [].

Definition finalChunk (p : Params) : json :=
  chunk p (obj []) (str "stop") [ prop "usage" (usage p) ].

Definition sendStreaming (config : Config) (p : Params) : M unit :=
  requestId <- generateId "req" ;;
  res_writeHead 200
    [ (js "Content-Type", js "text/event-stream");
      (js "Cache-Control", js "no-cache");
      (js "Connection", js "keep-alive");
      (js "X-Request-Id", requestId) ] ;;
  (* First chunk: role *)
  res_write (Data (roleChunk p)) ;;
  (* Wait for "thinking" time *)
  first <- getFirstTokenDelay config ;;
  sleep first ;;
  match toolCall_ p with
  | Some tc =>
    (* Stream tool call *)
    callId <- generateId "call" ;;
    let argsStr := stringify (ToolCall.arguments tc) in
    res_write (Data (toolChunk p callId tc)) ;;
    (* Stream arguments in chunks *)
    for_of (chunkString argsStr 8) (fun piece =>
      d <- getTokenDelay config ;;
      sleep d ;;
      res_write (Data (argChunk p piece))) ;;
    (* Final chunk *)
    res_write (Data (doneChunk p))
  | None =>
    (* Stream content tokens *)
    for_of (tokenize (content p)) (fun token =>
      d <- getTokenDelay config ;;
      sleep d ;;
      return_if_destroyed ;;
      res_write (Data (tokenChunk p token))) ;;
    (* Final chunk with finish_reason *)
    res_write (Data (finalChunk p))
  end ;;
  res_write DoneLine ;;
  res_end None.

Definition handleChatCompletions (body : Body) (config : Config) : M unit :=
  let model := match model body with
               | Some m => if truthy m then m else str "gpt-4"
               | None => str "gpt-4"
               end in
  let persona := resolvePersona body config in
  (* Resolve response content *)
  sel <- selectContent persona body ;;
  let (content, toolCall) := sel in
  completionId <- generateId "chatcmpl" ;;
  ms <- Date_now ;;
  let created := Math_floor (inject_Z ms / 1000) in
  let promptTokens := estimatePrompt (messages body) in
  est <- estimateTokens_of content ;;
  let (content, completionTokens) := est in
  let p := {| completionId := completionId; created := created; model_ := model;
              content := content; toolCall_ := toolCall;
              promptTokens := promptTokens;
              completionTokens := completionTokens |} in
  if not_streaming body then
    call (sendNonStreaming p) ;; return_
  else
    call (sendStreaming config p) ;; return_.

End OpenAI.

(* ===================================================================== *)
(** ** providers/anthropic.js *)
(* ===================================================================== *)

Module Anthropic.

Record Params : Type := {
  messageId : jsstring;
  model_ : json;
  content : jsstring;
  toolCall_ : option ToolCall.t;
  inputTokens : Z;
  outputTokens : Z
}.

Definition stop_reason (p : Params) : json :=
  match toolCall_ p with
  | Some _ => str "tool_use"
  | None => str "end_turn"
  end.

Definition sendNonStreaming (p : Params) : M unit :=
  contentBlocks <-
    match toolCall_ p with
    | Some tc =>
      id <- generateId "toolu" ;;
      ret [ obj [ prop "type" (str "text"); prop "text" (JStr (content p)) ];
            obj [ prop "type" (str "tool_use");
                  prop "id" (JStr id);
                  prop "name" (JStr (ToolCall.name tc));
                  prop "input" (ToolCall.arguments tc) ] ]
    | None =>
      ret [ obj [ prop "type" (str "text"); prop "text" (JStr (content p)) ] ]
    end ;;
  let response :=
    obj [ prop "id" (JStr (messageId p));
          prop "type" (str "message");
          prop "role" (str "assistant");
          prop "model" (model_ p);
          prop "content" (JArr contentBlocks);
          prop "stop_reason" (stop_reason p);
          prop "stop_sequence" JNull;
          prop "usage" (obj [ prop "input_tokens" (JNum (inputTokens p));
                              prop "output_tokens" (JNum (outputTokens p)) ]) ] in
  res_writeHead 200 json_headers ;;
  res_end (Some (Compact response)).

(** [writeSSE(res, event, data)] *)
Definition writeSSE (event : string) (data : json) : M unit :=
  res_write (Sse (js event) data).

Definition messageStart (p : Params) : json :=
  obj [ prop "type" (str "message_start");
        prop "message" (obj
          [ prop "id" (JStr (messageId p));
            prop "type" (str "message");
            prop "role" (str "assistant");
            prop "model" (model_ p);
            prop "content" (JArr []);
            prop "stop_reason" JNull;
            prop "stop_sequence" JNull;
            prop "usage" (obj [ prop "input_tokens" (JNum (inputTokens p));
                                prop "output_tokens" (JNum 0) ]) ]) ].

Definition textBlockStart : json :=
  obj [ prop "type" (str "content_block_start");
        prop "index" (JNum 0);
        prop "content_block" (obj [ prop "type" (str "text");
                                    prop "text" (JStr []) ]) ].

Definition textDelta (token : jsstring) : json :=
  obj [ prop "type" (str "content_block_delta");
        prop "index" (JNum 0);
        prop "delta" (obj [ prop "type" (str "text_delta");
                            prop "text" (JStr token) ]) ].

Definition blockStop (index : Z) : json :=
  obj [ prop "type" (str "content_block_stop");
        prop "index" (JNum index) ].

Definition toolBlockStart (toolUseId : jsstring) (tc : ToolCall.t) : json :=
  obj [ prop "type" (str "content_block_start");
        prop "index" (JNum 1);
        prop "content_block" (obj [ prop "type" (str "tool_use");
                                    prop "id" (JStr toolUseId);
                                    prop "name" (JStr (ToolCall.name tc));
                                    prop "input" (obj []) ]) ].

Definition inputDelta (piece : jsstring) : json :=
  obj [ prop "type" (str "content_block_delta");
        prop "index" (JNum 1);
        prop "delta" (obj [ prop "type" (str "input_json_delta");
                            prop "partial_json" (JStr piece) ]) ].

Definition messageDelta (p : Params) : json :=
  obj [ prop "type" (str "message_delta");
        prop "delta" (obj [ prop "stop_reason" (stop_reason p);
                            prop "stop_sequence" JNull ]);
        prop "usage" (obj [ prop "output_tokens" (JNum (outputTokens p)) ]) ].

Definition messageStop : json :=
  obj [ prop "type" (str "message_stop") ].

(** The loop over the text tokens, the same in both branches. *)
Definition streamText (config : Config) (p : Params) : M unit :=
  for_of (tokenize (content p)) (fun token =>
    d <- getTokenDelay config ;;
    sleep d ;;
    return_if_destroyed ;;
    writeSSE "content_block_delta" (textDelta token)).

Definition sendStreaming (config : Config) (p : Params) : M unit :=
  requestId <- generateId "req" ;;
  res_writeHead 200
    [ (js "Content-Type", js "text/event-stream");
      (js "Cache-Control", js "no-cache");
      (js "Connection", js "keep-alive");
      (js "X-Request-Id", requestId) ] ;;
  (* message_start event *)
  writeSSE "message_start" (messageStart p) ;;
  (* Wait for "thinking" time *)
  first <- getFirstTokenDelay config ;;
  sleep first ;;
  match toolCall_ p with
  | Some tc =>
    (* Text block first *)
    writeSSE "content_block_start" textBlockStart ;;
    (* Stream text tokens *)
    streamText config p ;;
    writeSSE "content_block_stop" (blockStop 0) ;;
    (* Tool use block *)
    toolUseId <- generateId "toolu" ;;
    writeSSE "content_block_start" (toolBlockStart toolUseId tc) ;;
    (* Stream tool input as JSON chunks *)
    let argsStr := stringify (ToolCall.arguments tc) in
    for_of (chunkString argsStr 12) (fun piece =>
      d <- getTokenDelay config ;;
      sleep d ;;
      return_if_destroyed ;;
      writeSSE "content_block_delta" (inputDelta piece)) ;;
    writeSSE "content_block_stop" (blockStop 1)
  | None =>
    (* content_block_start *)
    writeSSE "content_block_start" textBlockStart ;;
    (* Stream tokens as content_block_delta events *)
    streamText config p ;;
    (* content_block_stop *)
    writeSSE "content_block_stop" (blockStop 0)
  end ;;
  (* message_delta with final usage *)
  writeSSE "message_delta" (messageDelta p) ;;
  (* message_stop *)
  writeSSE "message_stop" messageStop ;;
  res_end None.

Definition handleMessages (body : Body) (config : Config) : M unit :=
  let model := match model body with
               | Some m => if truthy m then m else str "claude-sonnet-4-20250514"
               | None => str "claude-sonnet-4-20250514"
               end in
  let persona := resolvePersona body config in
  sel <- selectContent persona body ;;
  let (content, toolCall) := sel in
  messageId <- generateId "msg" ;;
  let inputTokens := estimatePrompt (messages body) in
  est <- estimateTokens_of content ;;
  let (content, outputTokens) := est in
  let p := {| messageId := messageId; model_ := model; content := content;
              toolCall_ := toolCall; inputTokens := inputTokens;
              outputTokens := outputTokens |} in
  if not_streaming body then
    call (sendNonStreaming p) ;; return_
  else
    call (sendStreaming config p) ;; return_.

End Anthropic.

(* ===================================================================== *)
(** ** providers/gemini.js *)
(* ===================================================================== *)

Module Gemini.

Record Params : Type := {
  model_ : jsstring;
  content : jsstring;
  toolCall_ : option ToolCall.t;
  promptTokens : Z;
  completionTokens : Z
}.

Definition makeSafetyRatings : json :=
  JArr [ obj [ prop "category" (str "HARM_CATEGORY_SEXUALLY_EXPLICIT");
               prop "probability" (str "NEGLIGIBLE") ];
         obj [ prop "category" (str "HARM_CATEGORY_HATE_SPEECH");
               prop "probability" (str "NEGLIGIBLE") ];
         obj [ prop "category" (str "HARM_CATEGORY_HARASSMENT");
               prop "probability" (str "NEGLIGIBLE") ];
         obj [ prop "category" (str "HARM_CATEGORY_DANGEROUS_CONTENT");
               prop "probability" (str "NEGLIGIBLE") ] ].

Definition usageMetadata (p : Params) : json :=
  obj [ prop "promptTokenCount" (JNum (promptTokens p));
        prop "candidatesTokenCount" (JNum (completionTokens p));
        prop "totalTokenCount" (JNum (promptTokens p + completionTokens p)) ].

Definition functionCallPart (tc : ToolCall.t) : json :=
  obj [ prop "functionCall" (obj [ prop "name" (JStr (ToolCall.name tc));
                                   prop "args" (ToolCall.arguments tc) ]) ].

(** The document of the single-shot mode, which is also the single frame
    of a streamed tool call. *)
Definition document (p : Params) (parts : list json) : json :=
  obj [ prop "candidates" (JArr
          [ obj [ prop "content" (obj [ prop "parts" (JArr parts);
                                        prop "role" (str "model") ]);
                  prop "finishReason"
                    (match toolCall_ p with
                     | Some _ => str "TOOL_CALLS"
                     | None => str "STOP"
                     end);
                  prop "index" (JNum 0);
                  prop "safetyRatings" makeSafetyRatings ] ]);
        prop "usageMetadata" (usageMetadata p);
        prop "modelVersion" (JStr (model_ p)) ].

Definition sendNonStreaming (p : Params) : M unit :=
  let parts :=
    match toolCall_ p with
    | Some tc => [ functionCallPart tc ]
    | None => [ obj [ prop "text" (JStr (content p)) ] ]
    end in
  res_writeHead 200 json_headers ;;
  res_end (Some (Compact (document p parts))).

(** A property whose value may be [undefined]: [JSON.stringify] leaves
    such a property out. *)
Definition prop_opt (k : string) (v : option json) : list (jsstring * json) :=
  match v with
  | Some x => [ prop k x ]
  | None => []
  end.

(** The frame of the token at index [i]. *)
Definition tokenChunk (p : Params) (tokens : list jsstring) (i : nat) : json :=
  let isLast := Z.eqb (Z.of_nat i) (Z.of_nat (length tokens) - 1) in
  obj ([ prop "candidates" (JArr
           [ obj ([ prop "content" (obj
                      [ prop "parts" (JArr
                          [ obj (prop_opt "text"
                                   (option_map JStr (nth_error tokens i))) ]);
                        prop "role" (str "model") ]) ]
                  ++ (if isLast
                      then [ prop "finishReason" (str "STOP");
                             prop "safetyRatings" makeSafetyRatings ]
                      else [])
                  ++ [ prop "index" (JNum 0) ]) ]) ]
       ++ (if isLast then [ prop "usageMetadata" (usageMetadata p) ] else [])
       ++ [ prop "modelVersion" (JStr (model_ p)) ]).

Definition sendStreaming (config : Config) (p : Params) : M unit :=
  res_writeHead 200
    [ (js "Content-Type", js "text/event-stream");
      (js "Cache-Control", js "no-cache");
      (js "Connection", js "keep-alive") ] ;;
  (* Wait for "thinking" time *)
  first <- getFirstTokenDelay config ;;
  sleep first ;;
  match toolCall_ p with
  | Some tc =>
    (* Tool calls come as a single chunk in Gemini *)
    res_write (Data
      (obj [ prop "candidates" (JArr
               [ obj [ prop "content" (obj [ prop "parts" (JArr [ functionCallPart tc ]);
                                             prop "role" (str "model") ]);
                       prop "finishReason" (str "TOOL_CALLS");
                       prop "index" (JNum 0);
                       prop "safetyRatings" makeSafetyRatings ] ]);
             prop "usageMetadata" (usageMetadata p);
             prop "modelVersion" (JStr (model_ p)) ]))
  | None =>
    (* Stream content token-by-token *)
    let tokens := tokenize (content p) in
    for_upto (length tokens) 0 (fun i =>
      d <- getTokenDelay config ;;
      sleep d ;;
      return_if_destroyed ;;
      res_write (Data (tokenChunk p tokens i)))
  end ;;
  res_end None.

(** [handleGenerateContent(req, res, body, config, { model, stream })]:
    the last two come from the path of the request. *)
Definition handleGenerateContent (body : Body) (config : Config)
    (model : jsstring) (stream : bool) : M unit :=
  let persona := resolvePersona body config in
  sel <- selectContent persona body ;;
  let (content, toolCall) := sel in
  let promptTokens := estimatePrompt (contents body) in
  est <- estimateTokens_of content ;;
  let (content, completionTokens) := est in
  let p := {| model_ := model; content := content; toolCall_ := toolCall;
              promptTokens := promptTokens;
              completionTokens := completionTokens |} in
  if negb stream then
    call (sendNonStreaming p) ;; return_
  else
    call (sendStreaming config p) ;; return_.

End Gemini.

(* ===================================================================== *)
(** ** server.js: from the chaos check on *)
(* ===================================================================== *)

(** The provider that the path of a request selects, with what the path
    says beside it ([providerMeta]). *)
Inductive Provider : Type :=
| openai
| anthropic
| gemini (model : jsstring) (stream : bool).

Definition provider_name (provider : Provider) : jsstring :=
  match provider with
  | openai => js "openai"
  | anthropic => js "anthropic"
  | gemini _ _ => js "gemini"
  end.

Definition routeToProvider (provider : Provider) (body : Body) (config : Config)
  : M unit :=
  match provider with
  | openai => call (OpenAI.handleChatCompletions body config)
  | anthropic => call (Anthropic.handleMessages body config)
  | gemini model stream =>
    call (Gemini.handleGenerateContent body config model stream)
  end.

(** [sendJSON(res, status, body)] *)
Definition sendJSON (status : Z) (doc : json) : M unit :=
  res_writeHead status json_headers ;;
  res_end (Some (Indented doc)).

(** The [catch] block of the request listener. *)
Definition internal_error (message : jsstring) : M unit :=
  sendJSON 500 (obj [ prop "error" (str "Internal nullmodel error");
                      prop "message" (JStr message) ]).

Definition slowConfig (config : Config) : Config :=
  {| port := port config;
     latency := {| firstToken := firstToken (latency config)
                                 * slowdownMultiplier (chaos config);
                   perToken := perToken (latency config)
                               * slowdownMultiplier (chaos config);
                   variance := variance (latency config) |};
     defaults := defaults config;
     chaos := chaos config;
     cors := cors config;
     verbose := verbose config |}.

(** The fault answer of the listener:
    [const chaosResponse = getChaosResponse(chaosType, provider);
     res.writeHead(chaosResponse.status, { 'Content-Type': 'application/json',
     ...chaosResponse.headers }); res.end(JSON.stringify(chaosResponse.body));
     return;].  An exception thrown here is caught by the [catch] block. *)
Definition chaosRespond (type : jsstring) (provider : Provider) : M unit :=
  fun w =>
    match getChaosResponse (builtin w) type (Some (provider_name provider)) with
    | Normal (Payload r) =>
      (res_writeHead (status r)
         (json_headers ++ match headers r with Some h => h | None => [] end) ;;
       res_end (Some (Compact (ChaosResponse_body r))) ;;
       return_) w
    | Normal (Foreign _) =>
      internal_error (js "Invalid status code: undefined") w
    | Return => return_ w
    | Throw e => internal_error e w
    end.

(** The request listener of [createNullModelServer] for a POST request
    whose body has been parsed and whose path has selected a provider:
    the chaos mode check and the hand-over to the provider.  The promise
    of a provider handler is returned without [await], so its rejection
    passes the [catch] block and is the outcome of the listener. *)
Definition requestListener (provider : Provider) (body : Body) (config : Config)
  : M unit :=
  chaosType <- shouldTriggerChaos config ;;
  match chaosType with
  | Some type =>
    if JsString.eqb type (js "slowdown") then
      (* Multiply all delays *)
      routeToProvider provider body (slowConfig config) ;; return_
    else chaosRespond type provider
  | None =>
    (* Handle __ERROR__ persona responses *)
    routeToProvider provider body config ;; return_
  end.

(** One request from start to end. *)
Definition serve (provider : Provider) (body : Body) (config : Config)
    (w : World) : completion unit * Conn :=
  call (requestListener provider body config) w fresh.

(* ===================================================================== *)
(** ** server.js: the listener before the chaos check *)
(* ===================================================================== *)

(** [!s] for a string. *)
Definition is_empty (s : jsstring) : bool :=
  match s with
  | [] => true
  | _ => false
  end.

(** [s.startsWith(p)], with what follows the prefix. *)
Fixpoint strip_prefix (p s : jsstring) : option jsstring :=
  match p, s with
  | [], _ => Some s
  | a :: p', b :: s' => if N.eqb a b then strip_prefix p' s' else None
  | _ :: _, [] => None
  end.

(** [s.endsWith(p)], with what precedes the suffix. *)
Definition strip_suffix (p s : jsstring) : option jsstring :=
  option_map (@rev _) (strip_prefix (rev p) (rev s)).

(** [[^/]+] against a whole text. *)
Definition is_segment (s : jsstring) : bool :=
  negb (is_empty s) && forallb (fun c => negb (c =? 47)%N) s.

(** [path.match(/^\/v1beta\/models\/([^/]+):(generateContent|streamGenerateContent)$/)]:
    [match[1]] and whether [match[2]] is [streamGenerateContent], or [None]
    for [null].  The end of the path decides the alternative, and what is
    between the prefix and the colon before it is the first group. *)
Definition matchGemini (path : jsstring) : option (jsstring * bool) :=
  match strip_prefix (js "/v1beta/models/") path with
  | None => None
  | Some rest =>
    match strip_suffix (js ":generateContent") rest with
    | Some model => if is_segment model then Some (model, false) else None
    | None =>
      match strip_suffix (js ":streamGenerateContent") rest with
      | Some model => if is_segment model then Some (model, true) else None
      | None => None
      end
    end
  end.

(** The provider that the path selects, with [providerMeta]; [None] when
    the path is none of the three. *)
Definition providerOf (path : jsstring) : option Provider :=
  if JsString.eqb path (js "/v1/chat/completions") then Some openai
  else if JsString.eqb path (js "/v1/messages") then Some anthropic
  else match matchGemini path with
       | Some (model, stream) => Some (gemini model stream)
       | None => None
       end.

(** What [parseBody(req)] settles to: the parsed value, or a rejection
    with the message of its error ([Invalid JSON body] when the text does
    not parse, the message of the stream error otherwise).  The parsed
    value is [{}] for an empty body and what [JSON.parse] returns
    otherwise.  [Resolved] is a value whose properties can be read: an
    object, or a number, a string, a boolean or an array, which have none
    of the properties that the handlers read.  [ResolvedNull] is [null],
    of which no property can be read. *)
Inductive Parsed : Type :=
| Resolved (body : Body)
| ResolvedNull
| Rejected (message : jsstring).

(** A request as the listener reads it: [req.method], the outcome of
    [new URL(req.url, `http://localhost:${config.port}`)], which is the
    [pathname] of the URL or an exception ([None]) when the request target
    or the base does not parse, and the outcome of [parseBody(req)]. *)
Record Request : Type := {
  method : jsstring;
  pathname : option jsstring;
  payload : Parsed
}.

(** The handlers for the body [null]: the first thing that each of them
    does is to read a property of the body ([body.model], and
    [body._persona] for Gemini), which throws. *)
Definition routeToProvider_null (provider : Provider) : M unit :=
  call (throw "TypeError: Cannot read properties of null").

(** The request listener from the chaos check on, for the body [null]. *)
Definition requestListener_null (provider : Provider) (config : Config)
  : M unit :=
  chaosType <- shouldTriggerChaos config ;;
  match chaosType with
  | Some type =>
    if JsString.eqb type (js "slowdown") then
      routeToProvider_null provider ;; return_
    else chaosRespond type provider
  | None =>
    routeToProvider_null provider ;; return_
  end.

(** The headers that [res.setHeader] sets before anything else happens. *)
Definition corsHeaders (config : Config) : list (jsstring * jsstring) :=
  if cors config then
    [ (js "Access-Control-Allow-Origin", js "*");
      (js "Access-Control-Allow-Methods", js "GET, POST, OPTIONS");
      (js "Access-Control-Allow-Headers",
       js "Content-Type, Authorization, x-api-key, anthropic-version") ]
  else [].

(** [{ personas: listPersonas() }] *)
Definition personasDocument : json :=
  obj [ prop "personas" (JArr
          (map (fun entry => obj [ prop "name" (JStr (fst entry));
                                   prop "description" (JStr (snd entry)) ])
               listPersonas)) ].

Definition unknownEndpoint (path : jsstring) : json :=
  obj [ prop "error" (JStr (js "Unknown endpoint: " ++ path));
        prop "hint" (str "nullmodel supports /v1/chat/completions (OpenAI), /v1/messages (Anthropic), and /v1beta/models/:model:generateContent (Gemini)") ].

Section Listener.

(** A number that need not be an integer, as a value of a document:
    [process.uptime()] and the rates and delays of the configuration. *)
Variable number : Q -> json.

(** [process.uptime()] when the health check is answered. *)
Variable uptime : Q.

Definition healthDocument (config : Config) : json :=
  obj [ prop "status" (str "ok");
        prop "service" (str "nullmodel");
        prop "version" (str "0.1.0");
        prop "uptime" (number uptime);
        prop "chaos" (if enabled (chaos config)
                      then str "enabled" else str "disabled") ].

(** [{ latency: config.latency, defaults: config.defaults, chaos: config.chaos }] *)
Definition configDocument (config : Config) : json :=
  obj [ prop "latency" (obj
          [ prop "firstToken" (number (firstToken (latency config)));
            prop "perToken" (number (perToken (latency config)));
            prop "variance" (number (variance (latency config))) ]);
        prop "defaults" (obj
          [ prop "persona" (JStr (persona (defaults config)));
            prop "maxTokens" (JNum (maxTokens (defaults config))) ]);
        prop "chaos" (obj
          [ prop "enabled" (JBool (enabled (chaos config)));
            prop "errorRate" (number (errorRate (chaos config)));
            prop "slowdownRate" (number (slowdownRate (chaos config)));
            prop "slowdownMultiplier" (number (slowdownMultiplier (chaos config)));
            prop "rateLimitRate" (number (rateLimitRate (chaos config))) ]) ].

(** The request listener of [createNullModelServer], after the CORS
    headers are set.  [new URL] is called before the [try]: its exception
    is the outcome of the listener, and nothing is answered. *)
Definition listener (config : Config) (req : Request) : M unit :=
  if JsString.eqb (method req) (js "OPTIONS") then
    res_writeHead 204 [] ;;
    res_end None ;;
    return_
  else
    match pathname req with
    | None => throw "TypeError: Invalid URL"
    | Some path =>
      (* Health check *)
      if JsString.eqb path (js "/") || JsString.eqb path (js "/health") then
        sendJSON 200 (healthDocument config) ;; return_
      (* List personas *)
      else if JsString.eqb path (js "/personas") then
        sendJSON 200 personasDocument ;; return_
      (* Config endpoint (read-only) *)
      else if JsString.eqb path (js "/config") then
        sendJSON 200 (configDocument config) ;; return_
      (* Parse body for POST requests *)
      else if negb (JsString.eqb (method req) (js "POST")) then
        sendJSON 405 (obj [ prop "error" (str "Method not allowed") ]) ;; return_
      else
        match payload req with
        | Rejected message => internal_error message
        | Resolved body =>
          (* Determine provider from path *)
          match providerOf path with
          | Some provider => requestListener provider body config
          | None => sendJSON 404 (unknownEndpoint path) ;; return_
          end
        | ResolvedNull =>
          match providerOf path with
          | Some provider => requestListener_null provider config
          | None => sendJSON 404 (unknownEndpoint path) ;; return_
          end
        end
    end.

End Listener.

(** One exchange: the headers set beforehand, and the run of the
    listener on a fresh connection. *)
Definition exchange (number : Q -> json) (uptime : Q) (config : Config)
    (req : Request) (w : World)
  : list (jsstring * jsstring) * (completion unit * Conn) :=
  (corsHeaders config, call (listener number uptime config req) w fresh).

(* ===================================================================== *)
(** ** bin/cli.js: the command line *)
(* ===================================================================== *)

(** What [parseArgs] stores under a key: [true], an element of [argv], or
    [undefined] (for [-p] as the last argument). *)
Inductive ArgValue : Type :=
| ArgTrue
| ArgText (text : jsstring)
| ArgUndefined.

(** The object [args]: its own properties.  The script reads it by key
    only, so the order of the properties is of no account. *)
Definition Args : Type := list (jsstring * ArgValue).

Fixpoint assign (key : jsstring) (v : ArgValue) (args : Args) : Args :=
  match args with
  | [] => [(key, v)]
  | (k, old) :: rest =>
    if JsString.eqb key k then (k, v) :: rest
    else (k, old) :: assign key v rest
  end.

(** [args[key] = v] for a value that is not an object: under the key
    [__proto__] the assignment reaches the setter of [Object.prototype],
    which ignores such a value. *)
Definition setArg (key : jsstring) (v : ArgValue) (args : Args) : Args :=
  if JsString.eqb key (js "__proto__") then args else assign key v args.

(** [arg.startsWith('--')] *)
Definition is_long (arg : jsstring) : bool :=
  match strip_prefix (js "--") arg with
  | Some _ => true
  | None => false
  end.

(** The loop of [parseArgs] from index [i] on; [argv] is [argv.slice(i)]. *)
Fixpoint parseArgs_from (argv : list jsstring) (args : Args) : Args :=
  match argv with
  | [] => args
  | arg :: rest =>
    match strip_prefix (js "--") arg with
    | Some key =>
      match rest with
      | next :: rest' =>
        if negb (is_empty next) && negb (is_long next)
        then parseArgs_from rest' (setArg key (ArgText next) args)
        else parseArgs_from rest (setArg key ArgTrue args)
      | [] => setArg key ArgTrue args
      end
    | None =>
      if JsString.eqb arg (js "-v") then
        parseArgs_from rest (setArg (js "verbose") ArgTrue args)
      else if JsString.eqb arg (js "-p") then
        match rest with
        | next :: rest' => parseArgs_from rest' (setArg (js "port") (ArgText next) args)
        | [] => setArg (js "port") ArgUndefined args
        end
      else parseArgs_from rest args
    end
  end.

Definition parseArgs (argv : list jsstring) : Args := parseArgs_from argv [].

(** [args.key] for a key that [Object.prototype] does not have; [None] is
    a missing property. *)
Definition arg (key : string) (args : Args) : option ArgValue :=
  assoc (js key) args.

(* ===================================================================== *)
(** ** config.js: [deepMerge] and [loadConfig] *)
(* ===================================================================== *)

(** The values that a configuration is made of: what [JSON.parse] yields
    and what the command line puts into its overrides.  A number is a
    rational or [NaN] ([None]).  An object has [Object.prototype] as its
    prototype and keeps its own properties in the order in which
    [Object.entries] lists them. *)
Inductive value : Type :=
| VUndefined
| VNull
| VBool (b : bool)
| VNum (n : option Q)
| VStr (s : jsstring)
| VArr (items : list value)
| VObj (fields : list (jsstring * value)).

Definition Fields : Type := list (jsstring * value).

(** How a call ends: with a result, with the TypeError of
    [Object.entries(null)], or outside of what is modelled here, when an
    assignment to [__proto__] would replace the prototype of the result.
    [OutOfFuel] is the recursion bound of the embedding. *)
Inductive Outcome (A : Type) : Type :=
| Done (a : A)
| TypeError
| SetsPrototype
| OutOfFuel.
Arguments Done {A} a.
Arguments TypeError {A}.
Arguments SetsPrototype {A}.
Arguments OutOfFuel {A}.

(** The key of the element at index [i]. *)
Definition index_key (i : nat) : jsstring := Stringify.number (Z.of_nat i).

(** [Object.entries(obj)]; [None] is the TypeError for [null] and
    [undefined].  A string has its code units as entries, an array its
    elements, a boolean and a number none. *)
Definition entries (obj : value) : option Fields :=
  match obj with
  | VUndefined | VNull => None
  | VBool _ | VNum _ => Some []
  | VStr s => Some (map (fun ic => (index_key (fst ic), VStr [snd ic]))
                        (combine (seq 0 (length s)) s))
  | VArr items => Some (combine (map index_key (seq 0 (length items))) items)
  | VObj fields => Some fields
  end.

(** [typeof v === 'object'] *)
Definition is_object_type (v : value) : bool :=
  match v with
  | VNull | VArr _ | VObj _ => true
  | _ => false
  end.

Definition is_digit (c : N) : bool := ((48 <=? c) && (c <=? 57))%N.

(** The array index that a key denotes, if any: the decimal text without
    leading zeros of an integer below 2^32 - 1. *)
Definition index_of (key : jsstring) : option N :=
  match key with
  | [] => None
  | c :: rest =>
    if forallb is_digit key && (is_empty rest || negb (c =? 48)%N)
    then
      let n := fold_left (fun acc d => (10 * acc + (d - 48))%N) key 0%N in
      if (n <? 4294967295)%N then Some n else None
    else None
  end.

(** Whether a new property [key] is listed before the property [k]:
    array indices come first, in ascending order. *)
Definition goes_before (key k : jsstring) : bool :=
  match index_of key, index_of k with
  | Some i, Some j => (i <? j)%N
  | Some _, None => true
  | None, _ => false
  end.

Fixpoint replaceProp (key : jsstring) (v : value) (fields : Fields) : Fields :=
  match fields with
  | [] => []
  | (k, old) :: rest =>
    if JsString.eqb key k then (k, v) :: rest
    else (k, old) :: replaceProp key v rest
  end.

Fixpoint insertProp (key : jsstring) (v : value) (fields : Fields) : Fields :=
  match fields with
  | [] => [(key, v)]
  | (k, x) :: rest =>
    if goes_before key k then (key, v) :: (k, x) :: rest
    else (k, x) :: insertProp key v rest
  end.

(** [result[key] = v] for another key than [__proto__]: the value of an own
    property is replaced, a new property is created. *)
Definition assignProp (key : jsstring) (v : value) (result : Fields) : Fields :=
  match assoc key result with
  | Some _ => replaceProp key v result
  | None => insertProp key v result
  end.

(** The body of the inner loop of [deepMerge] for the entry [[key, v]];
    [deepMerge] is the function itself, for the recursive call. *)
Definition mergeEntry (deepMerge : list value -> Outcome Fields)
    (result : Fields) (key : jsstring) (v : value) : Outcome Fields :=
  if JsString.eqb key (js "__proto__") then
    (* [result.__proto__] is [Object.prototype], whose [typeof] is
       ['object'] and which has no entries; an assignment to it calls the
       setter, which ignores a value that is neither an object nor null *)
    match v with
    | VObj _ =>
      match deepMerge [VObj []; v] with
      | Done _ => SetsPrototype
      | other => other
      end
    | VNull | VArr _ => SetsPrototype
    | _ => Done result
    end
  else
    match v with
    | VObj _ =>
      match assoc key result with
      | Some old =>
        if is_object_type old then
          match deepMerge [old; v] with
          | Done merged => Done (assignProp key (VObj merged) result)
          | other => other
          end
        else Done (assignProp key v result)
      | None => Done (assignProp key v result)
      end
    | VUndefined => Done result
    | _ => Done (assignProp key v result)
    end.

(** A loop goes on with the result so far, or ends as it has failed. *)
Definition andThen (acc : Outcome Fields) (f : Fields -> Outcome Fields)
  : Outcome Fields :=
  match acc with
  | Done result => f result
  | other => other
  end.

(** The inner loop of [deepMerge]: the entries of one object. *)
Definition mergeEntries (deepMerge : list value -> Outcome Fields)
    (es : Fields) (result : Fields) : Outcome Fields :=
  fold_left
    (fun acc kv =>
       andThen acc (fun res => mergeEntry deepMerge res (fst kv) (snd kv)))
    es (Done result).

(** The outer loop of [deepMerge]: the objects from left to right. *)
Definition mergeObjects (deepMerge : list value -> Outcome Fields)
    (objects : list value) (result : Fields) : Outcome Fields :=
  fold_left
    (fun acc obj =>
       andThen acc (fun res =>
         match entries obj with
         | Some es => mergeEntries deepMerge es res
         | None => TypeError
         end))
    objects (Done result).

(** [deepMerge(...objects)], with a bound on the depth of the recursion. *)
Fixpoint deepMerge_fuel (fuel : nat) (objects : list value) : Outcome Fields :=
  match fuel with
  | O => OutOfFuel
  | S fuel' => mergeObjects (deepMerge_fuel fuel') objects []
  end.

(** How deep the objects and arrays of a value are nested. *)
Fixpoint depth (v : value) : nat :=
  match v with
  | VArr items => S (fold_right (fun x n => Nat.max (depth x) n) 0%nat items)
  | VObj fields =>
    S (fold_right (fun kv n => Nat.max (depth (snd kv)) n) 0%nat fields)
  | _ => 0%nat
  end.

Definition depth_all (objects : list value) : nat :=
  fold_right (fun x n => Nat.max (depth x) n) 0%nat objects.

(** [deepMerge(...objects)]: a call recurses only into the values of its
    arguments, so the depth of the arguments bounds the recursion. *)
Definition deepMerge (objects : list value) : Outcome Fields :=
  deepMerge_fuel (S (depth_all objects)) objects.

Definition num (q : Q) : value := VNum (Some q).

(** [DEFAULTS], as the object that [deepMerge] goes through. *)
Definition defaultsObject : value :=
  VObj [ (js "port", num 4000);
         (js "latency", VObj [ (js "firstToken", num 300);
                               (js "perToken", num 30);
                               (js "variance", num (3 # 10)) ]);
         (js "defaults", VObj [ (js "persona", VStr (js "balanced"));
                                (js "maxTokens", num 512) ]);
         (js "chaos", VObj [ (js "enabled", VBool false);
                             (js "errorRate", num (5 # 100));
                             (js "slowdownRate", num (1 # 10));
                             (js "slowdownMultiplier", num 5);
                             (js "rateLimitRate", num (2 # 100)) ]);
         (js "cors", VBool true);
         (js "verbose", VBool false) ].

(** [loadConfig(overrides)], where [overrides] is [{}] when it is not
    given.  [fileConfig] is what the configuration file contributes: [{}]
    when there is no file or when its text does not parse, the parsed value
    otherwise. *)
Definition loadConfig (fileConfig overrides : value) : Outcome Fields :=
  let overrides := match overrides with
                   | VUndefined => VObj []
                   | _ => overrides
                   end in
  deepMerge [defaultsObject; fileConfig; overrides].

(* ===================================================================== *)
(** ** bin/cli.js: from the arguments to the configuration *)
(* ===================================================================== *)

(** The value of a digit in a radix, if it is one. *)
Definition digit_value (radix c : N) : option N :=
  let d := if ((48 <=? c) && (c <=? 57))%N then Some (c - 48)%N
           else if ((97 <=? c) && (c <=? 122))%N then Some (c - 87)%N
           else if ((65 <=? c) && (c <=? 90))%N then Some (c - 55)%N
           else None in
  match d with
  | Some v => if (v <? radix)%N then Some v else None
  | None => None
  end.

(** The number that the longest prefix of digits denotes; [acc] is the
    number read so far, [None] before the first digit. *)
Fixpoint digits (radix : N) (s : jsstring) (acc : option N) : option N :=
  match s with
  | [] => acc
  | c :: rest =>
    match digit_value radix c with
    | Some v =>
      digits radix rest
        (Some (radix * match acc with Some n => n | None => 0 end + v)%N)
    | None => acc
    end
  end.

(** What [parseInt] returns, as far as the numbers of this embedding hold
    it: [NaN]; an integer of at most 2^53 in magnitude, which binary64
    holds exactly; or a number that is not held here, which is the double
    nearest to a larger integer, an infinity, or the negative zero. *)
Inductive ParsedInt : Type :=
| NotANumber
| Integer (n : Z)
| Unheld.

(** The integers that binary64 holds exactly, one by one. *)
Definition is_exact (n : Z) : bool := (Z.abs n <=? 2 ^ 53)%Z.

(** [parseInt(s)] without a radix.  Leading white space is skipped, a sign
    is read, [0x] or [0X] selects radix 16, and the digits are read as far
    as they go. *)
Definition parseInt (s : jsstring) : ParsedInt :=
  let s1 := snd (span is_space s) in
  let signed := match s1 with
                | 45%N :: rest => (true, rest)
                | 43%N :: rest => (false, rest)
                | _ => (false, s1)
                end in
  let s2 := snd signed in
  let based := match s2 with
               | 48%N :: x :: rest =>
                 if ((x =? 120) || (x =? 88))%N then (16%N, rest) else (10%N, s2)
               | _ => (10%N, s2)
               end in
  match digits (fst based) (snd based) None with
  | Some n =>
    if fst signed then
      if (n =? 0)%N then Unheld
      else if is_exact (Z.of_N n) then Integer (- Z.of_N n) else Unheld
    else if is_exact (Z.of_N n) then Integer (Z.of_N n) else Unheld
  | None => NotANumber
  end.

(** [if (args.key)] *)
Definition given (key : string) (args : Args) : bool :=
  match arg key args with
  | Some ArgTrue => true
  | Some (ArgText (_ :: _)) => true
  | _ => false
  end.

(** [parseInt(args.key)]: [true] reads as the text [true] and [undefined]
    as the text [undefined], which are not numbers. *)
Definition numberOf (key : string) (args : Args) : ParsedInt :=
  match arg key args with
  | Some (ArgText s) => parseInt s
  | _ => NotANumber
  end.

(** [ms * 5] *)
Definition times5 (ms : ParsedInt) : ParsedInt :=
  match ms with
  | Integer n => if is_exact (n * 5) then Integer (n * 5) else Unheld
  | other => other
  end.

(** The number as a value of the configuration, when it is held. *)
Definition numberValue (n : ParsedInt) : option value :=
  match n with
  | NotANumber => Some (VNum None)
  | Integer z => Some (num (inject_Z z))
  | Unheld => None
  end.

(** [args.key] as a value. *)
Definition valueOf (key : string) (args : Args) : value :=
  match arg key args with
  | Some ArgTrue => VBool true
  | Some (ArgText s) => VStr s
  | _ => VUndefined
  end.

(** [if (args.port) overrides.port = parseInt(args.port);] *)
Definition portOverride (args : Args) : option Fields :=
  if given "port" args then
    match numberValue (numberOf "port" args) with
    | Some port => Some [(js "port", port)]
    | None => None
    end
  else Some [].

(** [if (args.latency) { const ms = parseInt(args.latency);
     overrides.latency = { firstToken: ms * 5, perToken: ms }; }] *)
Definition latencyOverride (args : Args) : option Fields :=
  if given "latency" args then
    let ms := numberOf "latency" args in
    match numberValue (times5 ms), numberValue ms with
    | Some firstToken, Some perToken =>
      Some [(js "latency",
             VObj [ (js "firstToken", firstToken); (js "perToken", perToken) ])]
    | _, _ => None
    end
  else Some [].

(** The object [overrides] that the script builds from [args]; [None] when
    one of its numbers is not held. *)
Definition overridesOf (args : Args) : option value :=
  match portOverride args, latencyOverride args with
  | Some port, Some latency =>
    Some (VObj
      (port
       ++ (if given "verbose" args || given "v" args
           then [(js "verbose", VBool true)] else [])
       ++ (if given "chaos" args
           then [(js "chaos", VObj [(js "enabled", VBool true)])] else [])
       ++ (if given "persona" args
           then [(js "defaults", VObj [(js "persona", valueOf "persona" args)])]
           else [])
       ++ latency))
  | _, _ => None
  end.

(** What the script does with its arguments: print the help, print the
    personas, or start the server with the configuration that
    [loadConfig] returns. *)
Inductive Action : Type :=
| PrintHelp
| PrintPersonas
| Listen (config : Outcome Fields).

(** The script; [None] when [overrides] has a number that is not held. *)
Definition cli (fileConfig : value) (argv : list jsstring) : option Action :=
  let args := parseArgs argv in
  if given "help" args then Some PrintHelp
  else if given "personas" args then Some PrintPersonas
  else match overridesOf args with
       | Some overrides => Some (Listen (loadConfig fileConfig overrides))
       | None => None
       end.

(** [config.latency.k] for a configuration that [loadConfig] has returned,
    when it is a number: a rational, or [NaN] ([None]). *)
Definition latencyNumber (k : string) (config : Fields) : option (option Q) :=
  match assoc (js "latency") config with
  | Some (VObj fields) =>
    match assoc (js k) fields with
    | Some (VNum n) => Some n
    | _ => None
    end
  | _ => None
  end.

(** [Math.max(floor, Math.round(base * jitter))] with
    [jitter = 1 + (Math.random() * 2 - 1) * variance], for a base and a
    variance that are rationals or [NaN] ([None]): [NaN] goes through the
    products, the sum, [Math.round] and [Math.max]. *)
Definition delayNumber (floor : Z) (base variance : option Q) (r : Q)
  : option Z :=
  match base, variance with
  | Some b, Some v => Some (delay floor b v r)
  | _, _ => None
  end.

(* ===================================================================== *)
(** * The vocabulary of the properties *)
(* ===================================================================== *)

(** One more call of [Math.random()], nothing else. *)
Definition tick (n : nat) (s : Conn) : Conn :=
  {| draws := n + draws s; sleeps := sleeps s;
     destroyed := destroyed s; log := log s |}.

Definition chaos_on : Config :=
  {| port := port DEFAULTS; latency := latency DEFAULTS;
     defaults := defaults DEFAULTS;
     chaos := {| enabled := true; errorRate := 5 # 100; slowdownRate := 1 # 10;
                 slowdownMultiplier := 5; rateLimitRate := 2 # 100 |};
     cors := true; verbose := false |}.

(** A world in which [Math.random()] always returns [r], the clock shows
    a fixed time and the peer stays connected. *)
Definition steady (r : Q) : World :=
  {| random := fun _ => r; now := 1700000000000;
     hangup := fun _ => false; builtin := fun _ _ => ProbeFalsy |}.

(** [x] lies within [base * (1 - variance)] to [base * (1 + variance)]. *)
Definition within_variance (base variance x : Q) : Prop :=
  (base * (1 - variance) <= x /\ x <= base * (1 + variance))%Q.

(** A configuration with a per-unit base of 3 and a variance of 1/4. *)
Definition tight : Config :=
  {| port := port DEFAULTS;
     latency := {| firstToken := 15; perToken := 3; variance := 1 # 4 |};
     defaults := defaults DEFAULTS; chaos := chaos DEFAULTS;
     cors := true; verbose := false |}.

(** A step into a document: a key of an object or an index of an array. *)
Inductive step : Type :=
| Key (k : string)
| Index (i : nat).

(** [doc.k1[i].k2...]; [None] is [undefined]. *)
Fixpoint at_path (steps : list step) (doc : json) : option json :=
  match steps with
  | [] => Some doc
  | Key k :: rest =>
    match field k doc with
    | Some v => at_path rest v
    | None => None
    end
  | Index i :: rest =>
    match doc with
    | JArr items => match nth_error items i with
                    | Some v => at_path rest v
                    | None => None
                    end
    | _ => None
    end
  end.

Definition is_prototype_key (key : jsstring) : bool :=
  existsb (JsString.eqb key) object_prototype_keys.

Definition request (hint : string) (streaming : bool) : Body :=
  {| model := None;
     stream := if streaming then Some (JBool true) else None;
     _persona := Some (js hint);
     tools := None; messages := None; contents := None |}.

(** [choices[0].delta.content] of a streamed OpenAI chunk. *)
Definition delta_content (f : frame) : option json :=
  match f with
  | Data d => at_path [Key "choices"; Index 0; Key "delta"; Key "content"] d
  | _ => None
  end.

Definition head_status (e : event) : option Z :=
  match e with
  | WriteHead status _ => Some status
  | _ => None
  end.

(** [wp m Q w s]: running [m] in world [w] from state [s] ends in a
    completion and a state that [Q] accepts. *)
Definition wp {A} (m : M A) (Q : completion A -> Conn -> Prop)
    (w : World) (s : Conn) : Prop :=
  Q (fst (m w s)) (snd (m w s)).

(** The state after an event. *)
Definition say (e : event) (s : Conn) : Conn :=
  {| draws := draws s; sleeps := sleeps s;
     destroyed := destroyed s; log := log s ++ [e] |}.

(** The state after a [sleep]. *)
Definition nap (w : World) (ms : Z) (s : Conn) : Conn :=
  {| draws := draws s; sleeps := S (sleeps s);
     destroyed := destroyed s || hangup w (sleeps s);
     log := log s ++ [Sleep ms] |}.

(** The contract of [Math.random()]: every value is in [0,1). *)
Definition in_range (w : World) : Prop :=
  forall n, (0 <= random w n)%Q /\ (random w n < 1)%Q.

Definition is_nil {A} (l : list A) : bool :=
  match l with [] => true | _ => false end.

(** A persona with at least one text variant, none of them empty, and with
    tool calls, if any, that each have a text variant at the same index. *)
Definition well_formed (p : Persona) : bool :=
  negb (is_nil (responses p))
  && forallb (fun t => negb (is_nil t)) (responses p)
  && match toolCalls p with
     | None => true
     | Some calls => negb (is_nil calls)
                     && (length calls <=? length (responses p))%nat
     end.

(** What the selection hands to the emitter for persona [p]. *)
Definition selected (p : Persona) (body : Body) (content : jsstring)
    (tc : option ToolCall.t) : Prop :=
  content <> []
  /\ if isToolCall (IsPersona p) body && has_toolCalls (IsPersona p)
     then exists calls i call,
            toolCalls p = Some calls /\ nth_error calls i = Some call
            /\ nth_error (responses p) i = Some content /\ tc = Some call
     else In content (responses p) /\ tc = None.

(** No [sleep] has happened. *)
Definition unslept (s : Conn) : Prop :=
  sleeps s = 0%nat /\ forallb (fun e => negb (is_sleep e)) (log s) = true.

(** The stream flag of a request: [body.stream] for the OpenAI and the
    Anthropic endpoint, the method in the path for Gemini. *)
Definition stream_off (provider : Provider) (body : Body) : bool :=
  match provider with
  | gemini _ stream => negb stream
  | _ => not_streaming body
  end.




(** Reading a log against the world: how many sleeps it has, whether the
    peer has gone during one of them, and whether nothing was written or
    ended after the peer had gone. *)
Record Audit : Type := {
  heard : nat;
  gone : bool;
  clean : bool
}.

Definition audit_step (w : World) (a : Audit) (e : event) : Audit :=
  match e with
  | Sleep _ => {| heard := S (heard a);
                  gone := gone a || hangup w (heard a);
                  clean := clean a |}
  | Write _ | End _ => {| heard := heard a;
                          gone := gone a;
                          clean := clean a && negb (gone a) |}
  | WriteHead _ _ => a
  end.

Definition audit (w : World) (l : list event) : Audit :=
  fold_left (audit_step w) l {| heard := 0; gone := false; clean := true |}.

(** Once the peer has gone, the log has no further frame and no end of
    the response. *)
Definition silent_once_gone (w : World) (l : list event) : bool :=
  clean (audit w l).

(** The log agrees with the state, and is silent once the peer has gone. *)
Definition sound (w : World) (s : Conn) : Prop :=
  audit w (log s) = {| heard := sleeps s; gone := destroyed s; clean := true |}.

(** The outcome of a streaming function that respects the liveness of the
    connection: no exception, and a sound state. *)
Definition quiet (w : World) (c : completion unit) (s : Conn) : Prop :=
  match c with
  | Throw _ => False
  | _ => sound w s
  end.

(** The frames written after the peer has gone. *)
Fixpoint frames_after_gone (w : World) (n : nat) (is_gone : bool)
    (l : list event) : list frame :=
  match l with
  | [] => []
  | Sleep _ :: rest => frames_after_gone w (S n) (is_gone || hangup w n) rest
  | Write f :: rest =>
    (if is_gone then [f] else []) ++ frames_after_gone w n is_gone rest
  | _ :: rest => frames_after_gone w n is_gone rest
  end.

(** A world in which the peer closes the connection during the sleep of
    index [k] and [Math.random()] always returns 1/2. *)
Definition leaves_at (k : nat) : World :=
  {| random := fun _ => 1 # 2; now := 1700000000000;
     hangup := fun n => Nat.eqb n k; builtin := fun _ _ => ProbeFalsy |}.

(** What a streaming function that respects the liveness of the
    connection does in world [w]: it raises no error, and once the peer has
    gone it writes no further frame and does not end the response. *)
Definition stops_once_gone (w : World) (r : completion unit * Conn) : Prop :=
  (forall e, fst r <> Throw e)
  /\ silent_once_gone w (log (snd r)) = true
  /\ frames_after_gone w 0 false (log (snd r)) = [].

Definition weather_stream : Anthropic.Params :=
  {| Anthropic.messageId := js "msg-0";
     Anthropic.model_ := str "claude-sonnet-4-20250514";
     Anthropic.content := js "I'll look up the current weather for you.";
     Anthropic.toolCall_ := nth_error tool_calls_toolCalls 0;
     Anthropic.inputTokens := 1;
     Anthropic.outputTokens := 11 |}.

(** The peer stays connected. *)
Definition stays (w : World) : Prop := forall n, hangup w n = false.

(** The connection is alive and the frames written so far are [F]. *)
Definition wrote (F : list frame) (s : Conn) : Prop :=
  destroyed s = false /\ frames (log s) = F.

(** The stream is complete: the function ended normally, the last thing it
    did was to end the response, and before that it wrote the frames [F]. *)
Definition streamed (F : list frame) (c : completion unit) (s : Conn) : Prop :=
  c = Normal tt /\ exists l, log s = l ++ [End None] /\ frames l = F.

(** The frames of a complete OpenAI stream; [callId] is the identifier
    generated for the tool call. *)
Definition OpenAI_frames (p : OpenAI.Params) (callId : jsstring) : list frame :=
  match OpenAI.toolCall_ p with
  | Some tc =>
    [Data (OpenAI.roleChunk p); Data (OpenAI.toolChunk p callId tc)]
    ++ map (fun piece => Data (OpenAI.argChunk p piece))
           (chunkString (stringify (ToolCall.arguments tc)) 8)
    ++ [Data (OpenAI.doneChunk p); DoneLine]
  | None =>
    [Data (OpenAI.roleChunk p)]
    ++ map (fun token => Data (OpenAI.tokenChunk p token))
           (tokenize (OpenAI.content p))
    ++ [Data (OpenAI.finalChunk p); DoneLine]
  end.

(** The events of a complete Anthropic stream; [toolUseId] is the
    identifier generated for the tool-use block. *)
Definition Anthropic_frames (p : Anthropic.Params) (toolUseId : jsstring)
  : list frame :=
  [Sse (js "message_start") (Anthropic.messageStart p);
   Sse (js "content_block_start") Anthropic.textBlockStart]
  ++ map (fun token => Sse (js "content_block_delta") (Anthropic.textDelta token))
         (tokenize (Anthropic.content p))
  ++ [Sse (js "content_block_stop") (Anthropic.blockStop 0)]
  ++ match Anthropic.toolCall_ p with
     | Some tc =>
       [Sse (js "content_block_start") (Anthropic.toolBlockStart toolUseId tc)]
       ++ map (fun piece => Sse (js "content_block_delta") (Anthropic.inputDelta piece))
              (chunkString (stringify (ToolCall.arguments tc)) 12)
       ++ [Sse (js "content_block_stop") (Anthropic.blockStop 1)]
     | None => []
     end
  ++ [Sse (js "message_delta") (Anthropic.messageDelta p);
      Sse (js "message_stop") Anthropic.messageStop].

(** The frames of a complete Gemini stream. *)
Definition Gemini_frames (p : Gemini.Params) : list frame :=
  match Gemini.toolCall_ p with
  | Some tc => [Data (Gemini.document p [Gemini.functionCallPart tc])]
  | None =>
    let tokens := tokenize (Gemini.content p) in
    map (fun i => Data (Gemini.tokenChunk p tokens i)) (seq 0 (length tokens))
  end.

(** [choices[0].finish_reason] and [choices[0].delta] of an OpenAI chunk. *)
Definition finish_reason (f : frame) : option json :=
  match f with
  | Data d => at_path [Key "choices"; Index 0; Key "finish_reason"] d
  | _ => None
  end.

Definition delta (f : frame) : option json :=
  match f with
  | Data d => at_path [Key "choices"; Index 0; Key "delta"] d
  | _ => None
  end.

(** The frames end with exactly one terminal chunk, an empty delta with a
    finish reason, followed by the [DONE] line; every frame before is a
    chunk whose finish reason is [null]. *)
Definition openai_ends_once (F : list frame) : Prop :=
  exists pre t reason,
    F = pre ++ [t; DoneLine]
    /\ delta t = Some (JObj [])
    /\ finish_reason t = Some (JStr reason) /\ reason <> []
    /\ Forall (fun f => finish_reason f = Some JNull) pre.

Definition is_terminal_event (f : frame) : bool :=
  match f with
  | Sse n _ => JsString.eqb n (js "message_delta") || JsString.eqb n (js "message_stop")
  | _ => false
  end.

(** The events end with exactly one [message_delta] followed by one
    [message_stop]; no event before is one of the two. *)
Definition anthropic_ends_once (F : list frame) : Prop :=
  exists pre d m,
    F = pre ++ [Sse (js "message_delta") d; Sse (js "message_stop") m]
    /\ Forall (fun f => is_terminal_event f = false) pre.

Definition carries_usageMetadata (f : frame) : bool :=
  match f with
  | Data d => has_key "usageMetadata" d
  | _ => false
  end.

Definition carries_finishReason (f : frame) : bool :=
  match f with
  | Data d => match at_path [Key "candidates"; Index 0; Key "finishReason"] d with
              | Some _ => true
              | None => false
              end
  | _ => false
  end.

(** The last frame, and only the last, carries [usageMetadata] and a
    [finishReason]. *)
Definition gemini_ends_once (F : list frame) : Prop :=
  exists pre last,
    F = pre ++ [last]
    /\ carries_usageMetadata last = true /\ carries_finishReason last = true
    /\ Forall (fun f => carries_usageMetadata f = false
                        /\ carries_finishReason f = false) pre.

Definition is_end (e : event) : bool :=
  match e with End _ => true | _ => false end.

(** The response has not been ended. *)
Definition unended (l : list event) : Prop :=
  forallb (fun e => negb (is_end e)) l = true.

(** The frames written so far are [F], and the response is not ended. *)
Definition drafted (F : list frame) (s : Conn) : Prop :=
  frames (log s) = F /\ unended (log s).

(** How a streaming function leaves the connection: having ended the
    response after the frames [F], or without having ended it. *)
Definition ended_as (F : list frame) (c : completion unit) (s : Conn) : Prop :=
  match c with
  | Normal _ => exists l, log s = l ++ [End None] /\ unended l /\ frames l = F
  | _ => unended (log s)
  end.

(** If the response has been ended, it was ended once, and the frames
    written before satisfy [E]. *)
Definition if_ended (E : list frame -> Prop) (s : Conn) : Prop :=
  forall l, log s = l ++ [End None] -> unended l /\ E (frames l).

(** The terminal sequence of each provider. *)
Definition ends_once (provider : Provider) : list frame -> Prop :=
  match provider with
  | openai => openai_ends_once
  | anthropic => anthropic_ends_once
  | gemini _ _ => gemini_ends_once
  end.

Definition is_str (s : string) (v : option json) : bool :=
  match v with
  | Some (JStr t) => JsString.eqb t (js s)
  | _ => false
  end.




(* ===================================================================== *)
(** ** The vocabulary of the further properties *)
(* ===================================================================== *)

(** A non-empty run of code units of one class. *)
Definition is_run (p : N -> bool) (t : jsstring) : bool :=
  negb (is_nil t) && forallb p t.

(** What one match of the expression looks like: a run of white space, a
    run of word characters, or one code unit that is neither. *)
Definition token_shape (t : jsstring) : bool :=
  is_run is_space t || is_run is_word t
  || match t with
     | [c] => negb (is_space c) && negb (is_word c)
     | _ => false
     end.

(** No two neighbours are runs of the same class: every run is as long as
    the text allows. *)
Fixpoint runs_are_maximal (ts : list jsstring) : bool :=
  match ts with
  | a :: (b :: _) as rest =>
    negb (is_run is_space a && is_run is_space b)
    && negb (is_run is_word a && is_run is_word b)
    && runs_are_maximal rest
  | _ => true
  end.

(** The segmentations of a text that the expression allows. *)
Definition segmentation (s : jsstring) (ts : list jsstring) : Prop :=
  concat ts = s /\ forallb token_shape ts = true /\ runs_are_maximal ts = true.

(** The class of the first code unit of a text, as the expression sees it. *)
Definition starts_with (p : N -> bool) (s : jsstring) : bool :=
  match s with
  | c :: _ => p c
  | [] => false
  end.

(** The last code unit of a text. *)
Definition ends_with (p : N -> bool) (s : jsstring) : bool :=
  starts_with p (rev s).

(** Two texts whose junction is not inside a run: the first does not end
    and the second start with code units of the same run class. *)
Definition separable (a b : jsstring) : bool :=
  negb (ends_with is_space a && starts_with is_space b)
  && negb (ends_with is_word a && starts_with is_word b).

(** [body.error.message] and [body.error.code] of a fault body. *)
Definition error_message (doc : json) : option json :=
  at_path [Key "error"; Key "message"] doc.

Definition error_code (doc : json) : option json :=
  at_path [Key "error"; Key "code"] doc.

(** A fault payload as a client sees it: an HTTP error status, a body
    whose [error] object has a message that is not empty, and the
    [retry-after] header exactly on the answers with status 429. *)
Definition fault_shaped (r : ChaosResponse) : bool :=
  existsb (Z.eqb (status r)) [400; 408; 429; 500; 504]%Z
  && match error_message (body r) with
     | Some (JStr (_ :: _)) => true
     | _ => false
     end
  && Bool.eqb (status r =? 429)%Z
       match headers r with
       | Some h => match assoc (js "retry-after") h with
                   | Some _ => true
                   | None => false
                   end
       | None => false
       end.

(** Two events that are the same but for how long a wait lasts; the
    durations of two waits are related by [longer]. *)
Definition event_like (longer : Z -> Z -> Prop) (e1 e2 : event) : Prop :=
  match e1, e2 with
  | Sleep a, Sleep b => longer a b
  | _, _ => e1 = e2
  end.

(** Two connections in the same state, with the same events but for the
    durations of the waits. *)
Definition conn_like (longer : Z -> Z -> Prop) (s1 s2 : Conn) : Prop :=
  draws s1 = draws s2 /\ sleeps s1 = sleeps s2 /\ destroyed s1 = destroyed s2
  /\ Forall2 (event_like longer) (log s1) (log s2).

(** Two computations that do the same but for the durations of their
    waits. *)
Definition sim (w : World) (longer : Z -> Z -> Prop) {A} (m1 m2 : M A) : Prop :=
  forall s1 s2, conn_like longer s1 s2 ->
    fst (m1 w s1) = fst (m2 w s2)
    /\ conn_like longer (snd (m1 w s1)) (snd (m2 w s2)).

Definition text_of (v : option json) : jsstring :=
  match v with
  | Some (JStr t) => t
  | _ => []
  end.

(** The piece of text that a frame carries for the client of each
    provider: [choices[0].delta.content] (OpenAI), [delta.text] of a
    [content_block_delta] event whose delta is a [text_delta] (Anthropic),
    [candidates[0].content.parts[0].text] (Gemini). *)
Definition frame_text (provider : Provider) (f : frame) : jsstring :=
  match provider, f with
  | openai, Data d =>
    text_of (at_path [Key "choices"; Index 0; Key "delta"; Key "content"] d)
  | anthropic, Sse n d =>
    if JsString.eqb n (js "content_block_delta")
       && is_str "text_delta" (at_path [Key "delta"; Key "type"] d)
    then text_of (at_path [Key "delta"; Key "text"] d)
    else []
  | gemini _ _, Data d =>
    text_of (at_path [Key "candidates"; Index 0; Key "content"; Key "parts";
                      Index 0; Key "text"] d)
  | _, _ => []
  end.

(** The text of a stream: the pieces of its frames, in order. *)
Definition streamed_text (provider : Provider) (F : list frame) : jsstring :=
  concat (map (frame_text provider) F).

(** The fragment of the arguments of a tool call that an OpenAI chunk
    carries: [choices[0].delta.tool_calls[0].function.arguments]. *)
Definition frame_arguments (f : frame) : jsstring :=
  match f with
  | Data d =>
    text_of (at_path [Key "choices"; Index 0; Key "delta"; Key "tool_calls";
                      Index 0; Key "function"; Key "arguments"] d)
  | _ => []
  end.

Definition streamed_arguments (F : list frame) : jsstring :=
  concat (map frame_arguments F).

(** The chunks of a streamed OpenAI tool call. *)
Definition tool_call_chunks (p : OpenAI.Params) (callId : jsstring)
    (call : ToolCall.t) : list frame :=
  [Data (OpenAI.roleChunk p); Data (OpenAI.toolChunk p callId call)]
  ++ map (fun piece => Data (OpenAI.argChunk p piece))
         (chunkString (stringify (ToolCall.arguments call)) 8)
  ++ [Data (OpenAI.doneChunk p); DoneLine].

(** [choices[0].delta.tool_calls[0].function.name] of a chunk. *)
Definition frame_tool_name (f : frame) : option json :=
  match f with
  | Data d => at_path [Key "choices"; Index 0; Key "delta"; Key "tool_calls";
                       Index 0; Key "function"; Key "name"] d
  | _ => None
  end.










(** What may follow the response head: frames and waits. *)
Definition is_body (e : event) : bool :=
  match e with
  | Write _ | Sleep _ => true
  | _ => false
  end.

(** Frames and waits, then nothing or the end of the response as the last
    event. *)
Fixpoint body_then_end (l : list event) : bool :=
  match l with
  | [] => true
  | [End _] => true
  | e :: rest => is_body e && body_then_end rest
  end.

(** The events of an exchange in the order that the HTTP response allows:
    nothing at all, or one response head first, then frames and waits, and
    the end of the response, if any, last. *)
Definition in_order (l : list event) : bool :=
  match l with
  | [] => true
  | WriteHead _ _ :: rest => body_then_end rest
  | _ => false
  end.

(** The head is written, the response is not ended. *)
Definition opened (s : Conn) : Prop :=
  exists status hs mid,
    log s = WriteHead status hs :: mid /\ forallb is_body mid = true.

(** A text without control characters, so without line breaks. *)
Definition printable (s : jsstring) : bool := forallb (fun c => (32 <=? c)%N) s.

(** The number of line feeds of a text. *)
Definition line_feeds (s : jsstring) : nat := length (filter (N.eqb 10) s).

(** The text of a frame before the blank line that ends it. *)
Definition frame_lines (f : frame) : jsstring :=
  match f with
  | Data d => js "data: " ++ stringify d
  | Sse e d => js "event: " ++ e ++ [10%N] ++ js "data: " ++ stringify d
  | DoneLine => js "data: [DONE]"
  end.

(** The decimal digits and the sign. *)
Definition digit_or_sign (c : ascii) : bool :=
  let n := N_of_ascii c in ((48 <=? n) && (n <=? 57) || (n =? 45))%N.

Fixpoint all_chars (p : ascii -> bool) (s : string) : bool :=
  match s with
  | EmptyString => true
  | String c r => p c && all_chars p r
  end.

(** The path of a Gemini endpoint. *)
Definition geminiPath (model : jsstring) (stream : bool) : jsstring :=
  js "/v1beta/models/" ++ model ++ js ":"
  ++ (if stream then js "streamGenerateContent" else js "generateContent").

(** The paths that the listener answers itself. *)
Definition is_meta (path : jsstring) : bool :=
  JsString.eqb path (js "/") || JsString.eqb path (js "/health")
  || JsString.eqb path (js "/personas") || JsString.eqb path (js "/config").

(** The status of the answer that the listener gives without handing the
    request over; [None] for a request that is not answered so: one whose
    URL does not parse, and one that reaches the chaos check. *)
Definition direct_status (req : Request) : option Z :=
  if JsString.eqb (method req) (js "OPTIONS") then Some 204%Z
  else
    match pathname req with
    | None => None
    | Some path =>
      if is_meta path then Some 200%Z
      else if negb (JsString.eqb (method req) (js "POST")) then Some 405%Z
      else match payload req with
           | Rejected _ => Some 500%Z
           | _ => match providerOf path with
                  | Some _ => None
                  | None => Some 404%Z
                  end
           end
    end.

(** An option as the help text shows it: [--key value], or [--key] alone. *)
Definition CliOption : Type := (jsstring * option jsstring)%type.

Definition render_option (o : CliOption) : list jsstring :=
  (js "--" ++ fst o)
  :: match snd o with
     | Some value => [value]
     | None => []
     end.

Definition render (opts : list CliOption) : list jsstring :=
  concat (map render_option opts).

(** A key that is not [__proto__], and a value that is not empty and does
    not start with two dashes. *)
Definition well_formed_option (o : CliOption) : bool :=
  negb (JsString.eqb (fst o) (js "__proto__"))
  && match snd o with
     | Some value => negb (is_empty value) && negb (is_long value)
     | None => true
     end.

Definition stored (o : CliOption) : ArgValue :=
  match snd o with
  | Some value => ArgText value
  | None => ArgTrue
  end.

(** The last option with the key, if any. *)
Fixpoint last_option (key : jsstring) (opts : list CliOption) : option ArgValue :=
  match opts with
  | [] => None
  | o :: rest =>
    match last_option key rest with
    | Some v => Some v
    | None => if JsString.eqb key (fst o) then Some (stored o) else None
    end
  end.

(** The deepest value of the properties. *)
Definition inner (fields : Fields) : nat :=
  fold_right (fun kv n => Nat.max (depth (snd kv)) n) 0%nat fields.

(** The value of a property that counts: an [undefined] one is skipped. *)
Definition defined (v : option value) : option value :=
  match v with
  | Some VUndefined => None
  | other => other
  end.

(** What [deepMerge] leaves under a key that [old] holds so far, when an
    object brings [new] for it: nothing changes without a value; an object
    is merged into an object, an array or [null]; any other value
    replaces what there is. *)
Definition merged_property (old new : option value) : Outcome (option value) :=
  match new with
  | None | Some VUndefined => Done old
  | Some (VObj fields) =>
    match old with
    | Some held =>
      if is_object_type held
      then match deepMerge [held; VObj fields] with
           | Done m => Done (Some (VObj m))
           | TypeError => TypeError
           | SetsPrototype => SetsPrototype
           | OutOfFuel => OutOfFuel
           end
      else Done new
    | None => Done new
    end
  | Some _ => Done new
  end.


(** Objects as [JSON.parse] and object literals make them: no key twice. *)
Definition distinct_keys (fields : Fields) : Prop := NoDup (map fst fields).

(** Keys that are created at the end of an object: neither an array index
    nor [__proto__]. *)
Definition ordinary (key : jsstring) : bool :=
  negb (JsString.eqb key (js "__proto__"))
  && match index_of key with Some _ => false | None => true end.

(** Whether the number is held: a rational or [NaN]. *)
Definition is_held (n : ParsedInt) : bool :=
  match n with
  | Unheld => false
  | _ => true
  end.

(** The numbers that the arguments give for the port and for the latency,
    and five times the latter, are held. *)
Definition numbers_held (args : Args) : bool :=
  (negb (given "port" args) || is_held (numberOf "port" args))
  && (negb (given "latency" args) || is_held (times5 (numberOf "latency" args))).

(** A number that is held, as a value. *)
Definition shown (n : ParsedInt) : value :=
  match numberValue n with
  | Some v => v
  | None => VUndefined
  end.

(** The defaults with the leaves that the arguments name replaced. *)
Definition configuredBy (args : Args) : Fields :=
  [ (js "port", if given "port" args then shown (numberOf "port" args)
                else num 4000);
    (js "latency",
     VObj [ (js "firstToken",
             if given "latency" args
             then shown (times5 (numberOf "latency" args))
             else num 300);
            (js "perToken",
             if given "latency" args then shown (numberOf "latency" args)
             else num 30);
            (js "variance", num (3 # 10)) ]);
    (js "defaults",
     VObj [ (js "persona",
             if given "persona" args then valueOf "persona" args
             else VStr (js "balanced"));
            (js "maxTokens", num 512) ]);
    (js "chaos",
     VObj [ (js "enabled", VBool (given "chaos" args));
            (js "errorRate", num (5 # 100));
            (js "slowdownRate", num (1 # 10));
            (js "slowdownMultiplier", num 5);
            (js "rateLimitRate", num (2 # 100)) ]);
    (js "cors", VBool true);
    (js "verbose", VBool (given "verbose" args || given "v" args)) ].

(* ===================================================================== *)
(** * Properties *)
(* ===================================================================== *)

(** ** Strings and the token segmenter *)

Lemma jsstring_eqb_eq (a b : jsstring) : JsString.eqb a b = true <-> a = b.
Proof.
  unfold JsString.eqb. revert b.
  induction a as [|x a IH]; intros [|y b]; simpl; split; intros H;
    try reflexivity; try discriminate.
  - apply andb_true_iff in H as [Hl H].
    apply andb_true_iff in H as [Hx H].
    apply N.eqb_eq in Hx. subst y. f_equal.
    apply IH. rewrite Hl. exact H.
  - inversion H; subst.
    destruct (IH b) as [_ IH']. specialize (IH' eq_refl).
    apply andb_true_iff in IH' as [Hl Hf].
    rewrite Hl, N.eqb_refl, Hf. reflexivity.
Qed.

Lemma span_app p s : fst (span p s) ++ snd (span p s) = s.
Proof.
  induction s as [|c r IH]; simpl; [reflexivity|].
  destruct (p c); simpl; [|reflexivity].
  destruct (span p r) as [run rest]; simpl in *. now rewrite IH.
Qed.

Lemma match_here_app s m rest :
  match_here s = Some (m, rest) -> m ++ rest = s.
Proof.
  destruct s as [|c r]; simpl; [discriminate|].
  destruct (is_space c); simpl.
  - pose proof (span_app is_space r) as H.
    destruct (span is_space r) as [run rest']; simpl in *.
    intros [= <- <-]. simpl. now rewrite H.
  - destruct (is_word c); simpl.
    + pose proof (span_app is_word r) as H.
      destruct (span is_word r) as [run rest']; simpl in *.
      intros [= <- <-]. simpl. now rewrite H.
    + intros [= <- <-]. reflexivity.
Qed.

(** Every code unit is in one of the three classes, so the expression
    matches wherever there is input left: [exec] never skips a code unit. *)
Lemma match_here_total c r : match_here (c :: r) <> None.
Proof.
  simpl. destruct (is_space c); simpl.
  - destruct (span is_space r); discriminate.
  - destruct (is_word c); simpl; [destruct (span is_word r)|]; discriminate.
Qed.

Lemma regex_exec_here s : regex_exec s = match_here s.
Proof.
  destruct s as [|c r]; [reflexivity|].
  unfold regex_exec; fold regex_exec.
  destruct (match_here (c :: r)) eqn:E; [reflexivity|].
  now apply match_here_total in E.
Qed.

(** The loop pushes a token whenever text is left. *)
Lemma tokenize_nil_inv (s : jsstring) : tokenize s = [] -> s = [].
Proof.
  funelim (tokenize s); intros E.
  - discriminate E.
  - pose proof e as E'. rewrite regex_exec_here in E'.
    destruct text as [|c r]; [reflexivity|].
    now apply match_here_total in E'.
Qed.

(** C4. Concatenating, in order, the tokens of a string gives the string
    back, for every string. *)
Theorem tokenize_round_trip (s : jsstring) : concat (tokenize s) = s.
Proof.
  funelim (tokenize s); simpl.
  - match goal with IH : concat _ = _ |- _ => rewrite IH end.
    apply match_here_app. rewrite <- regex_exec_here. assumption.
  - pose proof e as E. rewrite regex_exec_here in E.
    destruct text as [|c r]; [reflexivity|].
    now apply match_here_total in E.
Qed.

(** ** The fault injection decision *)

Lemma ltb_lt (a b : Q) : ltb a b = true <-> (a < b)%Q.
Proof.
  unfold ltb. rewrite negb_true_iff. split; intros H.
  - apply Qnot_le_lt. intros Hle. apply Qle_bool_iff in Hle. congruence.
  - destruct (Qle_bool b a) eqn:E; [|reflexivity].
    apply Qle_bool_iff in E. exfalso. exact (Qlt_not_le _ _ H E).
Qed.

Lemma ltb_ge (a b : Q) : ltb a b = false <-> (b <= a)%Q.
Proof.
  unfold ltb. rewrite negb_false_iff. apply Qle_bool_iff.
Qed.

Lemma chaos_names_differ :
  js "rate_limit" <> js "server_error" /\ js "rate_limit" <> js "slowdown"
  /\ js "server_error" <> js "slowdown".
Proof. repeat split; intros H; vm_compute in H; discriminate H. Qed.

Ltac band_iff :=
  split;
  (let B := fresh "B" in
   intros B;
   first [ reflexivity | exfalso; congruence | lra | split; lra
         | destruct B; exfalso; lra | exfalso; lra ]).

Ltac band_case :=
  split; [band_iff | split; [band_iff | split; [band_iff | band_iff]]].

(** C2. With chaos disabled the decision is [null] and nothing is drawn.
    With chaos enabled exactly one value [r] is drawn, and for rates that
    are probabilities (non-negative) the decision is the band [r] falls
    into: rate-limit iff [r < rateLimitRate], server-error iff
    [rateLimitRate <= r < rateLimitRate + errorRate], slowdown iff
    [rateLimitRate + errorRate <= r < rateLimitRate + errorRate +
    slowdownRate], and none iff [r] is past the three bands. *)
Theorem shouldTriggerChaos_bands (config : Config) (w : World) (s : Conn) :
  let c := chaos config in
  let r := random w (draws s) in
  (enabled c = false -> shouldTriggerChaos config w s = (Normal None, s))
  /\ (enabled c = true -> (0 <= errorRate c)%Q -> (0 <= slowdownRate c)%Q ->
      exists out,
        shouldTriggerChaos config w s = (Normal out, tick 1 s)
        /\ (out = Some (js "rate_limit") <-> (r < rateLimitRate c)%Q)
        /\ (out = Some (js "server_error")
            <-> (rateLimitRate c <= r /\ r < rateLimitRate c + errorRate c)%Q)
        /\ (out = Some (js "slowdown")
            <-> (rateLimitRate c + errorRate c <= r
                 /\ r < rateLimitRate c + errorRate c + slowdownRate c)%Q)
        /\ (out = None
            <-> (rateLimitRate c + errorRate c + slowdownRate c <= r)%Q)).
Proof.
  intros c r. unfold shouldTriggerChaos. fold c. split.
  - intros ->. reflexivity.
  - intros -> Her Hsr. exists (chaosBand c r). split; [reflexivity|].
    destruct chaos_names_differ as (D1 & D2 & D3).
    unfold chaosBand.
    destruct (ltb r (rateLimitRate c)) eqn:E1.
    { apply ltb_lt in E1.
      band_case. }
    apply ltb_ge in E1.
    destruct (ltb r (rateLimitRate c + errorRate c)) eqn:E2.
    { apply ltb_lt in E2.
      band_case. }
    apply ltb_ge in E2.
    destruct (ltb r (rateLimitRate c + errorRate c + slowdownRate c)) eqn:E3.
    { apply ltb_lt in E3.
      band_case. }
    apply ltb_ge in E3.
    band_case.
Qed.

Lemma shouldTriggerChaos_bands_witness :
  exists out,
    shouldTriggerChaos chaos_on (steady (3 # 100)) fresh = (Normal out, tick 1 fresh)
    /\ out = Some (js "server_error").
Proof.
  destruct (shouldTriggerChaos_bands chaos_on (steady (3 # 100)) fresh) as [_ H].
  destruct (H eq_refl) as (out & Hrun & _ & Hse & _).
  - simpl. lra.
  - simpl. lra.
  - exists out. split; [exact Hrun|].
    apply Hse. simpl. split; lra.
Defined.

(** ** The latency model *)

Lemma Math_round_near (x : Q) :
  (x - (1 # 2) < inject_Z (Math_round x) /\ inject_Z (Math_round x) <= x + (1 # 2))%Q.
Proof.
  unfold Math_round.
  pose proof (Qfloor_le (x + (1 # 2))) as Hle.
  pose proof (Qlt_floor (x + (1 # 2))) as Hlt.
  rewrite inject_Z_plus in Hlt. change (inject_Z 1) with 1%Q in Hlt.
  split; lra.
Qed.

Lemma jittered_within (base variance r : Q) :
  (0 <= base)%Q -> (0 <= variance)%Q -> (0 <= r)%Q -> (r < 1)%Q ->
  within_variance base variance (jittered base variance r).
Proof.
  intros Hb Hv Hr0 Hr1. unfold within_variance, jittered.
  assert (Hlo : (- variance <= (r * 2 - 1) * variance)%Q) by nra.
  assert (Hhi : ((r * 2 - 1) * variance <= variance)%Q) by nra.
  split; nra.
Qed.

(** The per-unit delay for base 3 and variance 1/4 when
    [Math.random()] returns 0.  The jittered value is 2.25, which is
    rounded to 2 before the floor of 5 is applied, and 2 is below
    [base * (1 - variance) = 2.25]. *)
Lemma rounded_delay_leaves_the_interval :
  getTokenDelay tight (steady 0) fresh
  = (Normal (Math_max 5 (Math_round (jittered 3 (1 # 4) 0))), tick 1 fresh)
  /\ Math_round (jittered 3 (1 # 4) 0) = 2%Z
  /\ ~ within_variance (perToken (latency tight)) (variance (latency tight))
         (inject_Z (Math_round (jittered (perToken (latency tight))
                                         (variance (latency tight))
                                         (random (steady 0) 0)))).
Proof.
  split; [reflexivity|]. split; [reflexivity|].
  unfold within_variance. simpl.
  change (Math_round (jittered 3 (1 # 4) 0)) with 2%Z.
  intros [H _]. revert H. unfold Qle. simpl. lia.
Qed.

(** In the exact arithmetic of this embedding, for a latency that is a
    number: every first-unit delay is at least 50 and
    every per-unit delay at least 5; each is the floor applied to the
    jittered value [base * (1 + (2r - 1) * variance)] rounded to the
    nearest integer.  For a base and a variance that are not negative and a
    draw [r] in [0,1), the jittered value, before it is rounded, lies within
    [base * (1 - variance)] to [base * (1 + variance)], and rounding moves
    it by at most 1/2. *)
Theorem delay_bounds (config : Config) (w : World) (s : Conn) :
  let r := random w (draws s) in
  let v := variance (latency config) in
  let first := jittered (firstToken (latency config)) v r in
  let unit := jittered (perToken (latency config)) v r in
  (exists d, getFirstTokenDelay config w s = (Normal d, tick 1 s)
             /\ d = Z.max 50 (Math_round first) /\ (50 <= d)%Z)
  /\ (exists d, getTokenDelay config w s = (Normal d, tick 1 s)
                /\ d = Z.max 5 (Math_round unit) /\ (5 <= d)%Z)
  /\ (first - (1 # 2) < inject_Z (Math_round first)
      /\ inject_Z (Math_round first) <= first + (1 # 2))%Q
  /\ (unit - (1 # 2) < inject_Z (Math_round unit)
      /\ inject_Z (Math_round unit) <= unit + (1 # 2))%Q
  /\ ((0 <= v)%Q -> (0 <= r)%Q -> (r < 1)%Q ->
      ((0 <= firstToken (latency config))%Q ->
       within_variance (firstToken (latency config)) v first)
      /\ ((0 <= perToken (latency config))%Q ->
          within_variance (perToken (latency config)) v unit)).
Proof.
  intros r v first unit.
  split; [|split; [|split; [|split]]].
  - eexists. split; [reflexivity|]. split; [reflexivity|]. apply Z.le_max_l.
  - eexists. split; [reflexivity|]. split; [reflexivity|]. apply Z.le_max_l.
  - apply Math_round_near.
  - apply Math_round_near.
  - intros Hv Hr0 Hr1. split; intros Hb; apply jittered_within; assumption.
Qed.

Lemma delay_bounds_witness :
  within_variance 300 (3 # 10) (jittered 300 (3 # 10) (1 # 4))
  /\ within_variance 30 (3 # 10) (jittered 30 (3 # 10) (1 # 4)).
Proof.
  destruct (delay_bounds DEFAULTS (steady (1 # 4)) fresh)
    as (_ & _ & _ & _ & H).
  destruct H as [H1 H2]; simpl; try lra.
  split; [apply H1 | apply H2]; simpl; lra.
Defined.

(** C5, where the code departs from it.  [--latency abc] configures a
    latency that is [NaN]: [parseInt] returns [NaN], the script stores it
    as [latency.perToken] and, times 5, as [latency.firstToken], and
    [loadConfig] returns a configuration with these two and the variance
    of the defaults.  For a base that is [NaN] both delay functions return
    [NaN] whatever [Math.random()] returns, since [Math.max] does not
    guard against it: neither 50 nor 5 is a lower bound of the delay. *)
Theorem nan_latency_defeats_the_floors :
  exists config,
    cli (VObj []) [js "--latency"; js "abc"] = Some (Listen (Done config))
    /\ latencyNumber "firstToken" config = Some None
    /\ latencyNumber "perToken" config = Some None
    /\ latencyNumber "variance" config = Some (Some (3 # 10))
    /\ forall r,
         delayNumber 50 None (Some (3 # 10)) r = None
         /\ delayNumber 5 None (Some (3 # 10)) r = None.
Proof.
  eexists. split; [vm_compute; reflexivity|].
  repeat split.
Qed.

(** ** Lookups by name: fault payloads and personas *)

(** For a kind and a provider of which neither is a property name of
    [Object.prototype], the chain of [getChaosResponse] ends in a payload
    of the table: the one of the pair, else the server error of the
    provider, else the server error of OpenAI. *)
Lemma getChaosResponse_payload engine (type provider : jsstring) :
  is_prototype_key type = false ->
  is_prototype_key provider = false ->
  getChaosResponse engine type (Some provider)
  = Normal (Payload
      match assoc type errors with
      | Some table =>
        match assoc provider table with
        | Some r => r
        | None => match assoc provider errors_server_error with
                  | Some r => r
                  | None => server_error_openai
                  end
        end
      | None => match assoc provider errors_server_error with
                | Some r => r
                | None => server_error_openai
                end
      end).
Proof.
  intros Ht Hp. unfold getChaosResponse, js_get.
  fold (is_prototype_key type). fold (is_prototype_key provider).
  rewrite Ht, Hp.
  destruct (assoc type errors) as [table|];
    [destruct (assoc provider table)|];
    destruct (assoc provider errors_server_error); reflexivity.
Qed.

(** C3, where the code departs from it.  For the kind [rate_limit] and the
    provider name [constructor], [errors.rate_limit["constructor"]] is the
    function that every object inherits from [Object.prototype]: it is
    truthy, so the chain stops there, and what [getChaosResponse] returns
    is that function and not a payload with a status and a body, whatever
    the engine.  The OpenAI-shaped server error, which the claim promises
    for a provider that is not known, is not returned. *)
Theorem getChaosResponse_inherited_provider
    (engine : jsstring -> jsstring -> probe) :
  getChaosResponse engine (js "rate_limit") (Some (js "constructor"))
  = Normal (Foreign [js "rate_limit"; js "constructor"])
  /\ assoc (js "constructor") errors_rate_limit = None
  /\ getChaosResponse engine (js "rate_limit") (Some (js "constructor"))
     <> Normal (Payload server_error_openai).
Proof.
  split; [reflexivity|]. split; [reflexivity|].
  intros H. vm_compute in H. discriminate H.
Qed.

(** For a name that is not a property name of [Object.prototype],
    [getPersona] returns the persona of that name, or [balanced] when the
    catalog has none. *)
Lemma getPersona_catalog (name : jsstring) :
  is_prototype_key name = false ->
  getPersona name = IsPersona match assoc name personas with
                              | Some p => p
                              | None => Catalog.balanced
                              end.
Proof.
  intros H. unfold getPersona, js_get. fold (is_prototype_key name).
  rewrite H. destruct (assoc name personas); reflexivity.
Qed.

(** C6, where the code departs from it.  The name [constructor] is not in
    the catalog, yet [personas["constructor"]] is the function inherited
    from [Object.prototype], which is truthy: [getPersona] returns it
    instead of the balanced persona.  It has no [responses], so a request
    with that persona hint fails with a TypeError in each of the three
    handlers, before anything is written. *)
Theorem getPersona_inherited_name (w : World) :
  assoc (js "constructor") personas = None
  /\ getPersona (js "constructor") = FromPrototype (js "constructor")
  /\ getPersona (js "constructor") <> IsPersona Catalog.balanced
  /\ (forall provider,
        exists e s, serve provider (request "constructor" false) DEFAULTS w = (Throw e, s)
                    /\ log s = []).
Proof.
  split; [reflexivity|]. split; [reflexivity|]. split; [discriminate|].
  intros [| |m st]; eexists; eexists; split; reflexivity.
Qed.

(** ** The error sentinel of the error-prone persona *)

(** C1, where the code departs from it.  A request with the persona
    [error_prone] for which the draw selects the first text variant,
    [__ERROR__:rate_limit].  Nothing in the listener or in the handler
    looks for the sentinel (the listener has the comment
    [Handle __ERROR__ persona responses] and no code for it): the
    single-shot answer has status 200 and the sentinel as the content of
    the message, and the streamed answer has status 200 and the tokens of
    the sentinel as content deltas.  The fault response for [rate_limit],
    which the claim expects, has status 429. *)
Theorem error_prone_sentinel_is_content :
  (exists s doc,
     serve openai (request "error_prone" false) DEFAULTS (steady 0) = (Normal tt, s)
     /\ log s = [WriteHead 200 json_headers; End (Some (Compact doc))]
     /\ at_path [Key "choices"; Index 0; Key "message"; Key "content"] doc
        = Some (JStr (js "__ERROR__:rate_limit")))
  /\ (exists s,
        serve openai (request "error_prone" true) DEFAULTS (steady 0) = (Normal tt, s)
        /\ map head_status (firstn 1 (log s)) = [Some 200%Z]
        /\ map delta_content (frames (log s))
           = [ Some (JStr []); Some (JStr (js "__ERROR__")); Some (JStr (js ":"));
               Some (JStr (js "rate_limit")); None; None ])
  /\ (exists r,
        getChaosResponse (builtin (steady 0)) (js "rate_limit") (Some (js "openai"))
        = Normal (Payload r)
        /\ status r = 429%Z).
Proof.
  split; [|split].
  - eexists. eexists. split; [vm_compute; reflexivity|].
    split; [reflexivity|]. vm_compute. reflexivity.
  - eexists. split; [vm_compute; reflexivity|].
    split; vm_compute; reflexivity.
  - eexists. split; [vm_compute; reflexivity|]. reflexivity.
Qed.

(* ===================================================================== *)
(** ** Reasoning about handlers: weakest preconditions *)
(* ===================================================================== *)

Arguments js : simpl never.
Arguments Math_floor : simpl never.
Arguments Math_ceil : simpl never.
Arguments Math_round : simpl never.
Arguments estimateTokens : simpl never.
Arguments estimatePrompt : simpl never.
Arguments stringify : simpl never.

Section Rules.

Context {A B : Type}.
Variable w : World.

Lemma wp_ret (a : A) (Q : completion A -> Conn -> Prop) s :
  Q (Normal a) s -> wp (ret a) Q w s.
Proof. intros H. exact H. Qed.

Lemma wp_bind (m : M A) (k : A -> M B) (Q : completion B -> Conn -> Prop) s :
  wp m (fun c s' => match c with
                    | Normal a => wp (k a) Q w s'
                    | Return => Q Return s'
                    | Throw e => Q (Throw e) s'
                    end) w s ->
  wp (bind m k) Q w s.
Proof.
  unfold wp, bind. destruct (m w s) as [[a| |e] s']; simpl; intros H; exact H.
Qed.

Lemma wp_conseq (m : M A) (Q Q' : completion A -> Conn -> Prop) s :
  (forall c s', Q c s' -> Q' c s') -> wp m Q w s -> wp m Q' w s.
Proof. unfold wp. intros H. apply H. Qed.

Lemma wp_return (Q : completion A -> Conn -> Prop) s :
  Q Return s -> wp return_ Q w s.
Proof. intros H. exact H. Qed.

Lemma wp_throw (msg : string) (Q : completion A -> Conn -> Prop) s :
  Q (Throw (js msg)) s -> wp (throw msg) Q w s.
Proof. intros H. exact H. Qed.

End Rules.

Section Primitives.

Variable w : World.

Lemma wp_call (m : M unit) (Q : completion unit -> Conn -> Prop) s :
  wp m (fun c s' => match c with
                    | Return => Q (Normal tt) s'
                    | c' => Q c' s'
                    end) w s ->
  wp (call m) Q w s.
Proof.
  unfold wp, call. destruct (m w s) as [[a| |e] s']; simpl; intros H; exact H.
Qed.

Lemma wp_emit (e : event) (Q : completion unit -> Conn -> Prop) s :
  Q (Normal tt) (say e s) -> wp (emit e) Q w s.
Proof. intros H. exact H. Qed.

Lemma wp_write (f : frame) (Q : completion unit -> Conn -> Prop) s :
  Q (Normal tt) (say (Write f) s) -> wp (res_write f) Q w s.
Proof. intros H. exact H. Qed.

Lemma wp_writeHead status hs (Q : completion unit -> Conn -> Prop) s :
  Q (Normal tt) (say (WriteHead status hs) s) -> wp (res_writeHead status hs) Q w s.
Proof. intros H. exact H. Qed.

Lemma wp_end body (Q : completion unit -> Conn -> Prop) s :
  Q (Normal tt) (say (End body) s) -> wp (res_end body) Q w s.
Proof. intros H. exact H. Qed.

Lemma wp_sleep (ms : Z) (Q : completion unit -> Conn -> Prop) s :
  Q (Normal tt) (nap w ms s) -> wp (sleep ms) Q w s.
Proof. intros H. exact H. Qed.

Lemma wp_random (P : completion Q -> Conn -> Prop) s :
  P (Normal (random w (draws s))) (tick 1 s) -> wp Math_random P w s.
Proof. intros H. exact H. Qed.

Lemma wp_now (Q : completion Z -> Conn -> Prop) s :
  Q (Normal (now w)) s -> wp Date_now Q w s.
Proof. intros H. exact H. Qed.

Lemma wp_destroyed (Q : completion bool -> Conn -> Prop) s :
  Q (Normal (destroyed s)) s -> wp res_destroyed Q w s.
Proof. intros H. exact H. Qed.

Lemma wp_return_if_destroyed (Q : completion unit -> Conn -> Prop) s :
  (destroyed s = true -> Q Return s) ->
  (destroyed s = false -> Q (Normal tt) s) ->
  wp return_if_destroyed Q w s.
Proof.
  intros Ht Hf. unfold wp, return_if_destroyed, bind, res_destroyed. simpl.
  destruct (destroyed s) eqn:E; simpl; auto.
Qed.

Lemma tick_tick n m s : tick n (tick m s) = tick (n + m) s.
Proof. unfold tick. simpl. f_equal. lia. Qed.

Lemma generateId_loop_run n id s :
  exists id', generateId_loop n id w s = (Normal id', tick n s).
Proof.
  revert id s. induction n as [|n IH]; intros id s.
  - exists id. destruct s; reflexivity.
  - simpl. unfold bind, Math_random.
    edestruct IH as [id' E]. exists id'. rewrite E.
    f_equal. unfold tick. simpl. f_equal. lia.
Qed.

Lemma wp_generateId prefix (Q : completion jsstring -> Conn -> Prop) s :
  (forall id, Q (Normal id) (tick 24 s)) -> wp (generateId prefix) Q w s.
Proof.
  intros H. unfold wp, generateId, bind.
  destruct (generateId_loop_run 24 [] s) as [id E]. rewrite E. simpl. apply H.
Qed.

Lemma wp_getTokenDelay config (Q : completion Z -> Conn -> Prop) s :
  (forall d, Q (Normal d) (tick 1 s)) -> wp (getTokenDelay config) Q w s.
Proof. intros H. apply H. Qed.

Lemma wp_getFirstTokenDelay config (Q : completion Z -> Conn -> Prop) s :
  (forall d, Q (Normal d) (tick 1 s)) -> wp (getFirstTokenDelay config) Q w s.
Proof. intros H. apply H. Qed.

(** The loop rule: [I done] holds of the state when the elements [done]
    have been processed; an iteration may also end the function. *)
Lemma wp_for_of {A} (I : list A -> Conn -> Prop) (xs : list A)
    (body : A -> M unit) (Q : completion unit -> Conn -> Prop) :
  (forall done x rest s, xs = done ++ x :: rest -> I done s ->
     wp (body x) (fun c s' => match c with
                              | Normal _ => I (done ++ [x]) s'
                              | Return => Q Return s'
                              | Throw e => Q (Throw e) s'
                              end) w s) ->
  (forall s, I xs s -> Q (Normal tt) s) ->
  forall s, I [] s -> wp (for_of xs body) Q w s.
Proof.
  intros Hbody Hend.
  assert (G : forall rest done s, xs = done ++ rest -> I done s ->
                wp (for_of rest body) Q w s).
  { induction rest as [|x rest IH]; intros done s E HI.
    - rewrite app_nil_r in E. subst done. apply Hend. exact HI.
    - simpl. apply wp_bind.
      eapply wp_conseq; [|apply (Hbody done x rest s E HI)].
      intros [[]| |e] s'; simpl; intros H; try exact H.
      apply (IH (done ++ [x])); [|exact H].
      rewrite <- app_assoc. exact E. }
  intros s HI. apply (G xs [] s eq_refl HI).
Qed.

(** The same for the counting loop: [I i] holds when [i] iterations are
    done. *)
Lemma wp_for_upto (I : nat -> Conn -> Prop) (count : nat)
    (body : nat -> M unit) (Q : completion unit -> Conn -> Prop) :
  (forall i s, (i < count)%nat -> I i s ->
     wp (body i) (fun c s' => match c with
                              | Normal _ => I (S i) s'
                              | Return => Q Return s'
                              | Throw e => Q (Throw e) s'
                              end) w s) ->
  (forall s, I count s -> Q (Normal tt) s) ->
  forall s, I O s -> wp (for_upto count 0 body) Q w s.
Proof.
  intros Hbody Hend.
  assert (G : forall n i s, (i + n = count)%nat -> I i s ->
                wp (for_upto n i body) Q w s).
  { induction n as [|n IH]; intros i s E HI.
    - replace i with count in HI by lia. apply Hend. exact HI.
    - simpl. apply wp_bind.
      eapply wp_conseq; [|apply (Hbody i s); [lia | exact HI]].
      intros [[]| |e] s'; simpl; intros H; try exact H.
      apply IH; [lia | exact H]. }
  intros s HI. apply (G count 0%nat s); [lia | exact HI].
Qed.

End Primitives.

(* ===================================================================== *)
(** ** Content selection succeeds on the catalog *)
(* ===================================================================== *)

Lemma js_index_floor {A} (l : list A) (r : Q) :
  l <> [] -> (0 <= r)%Q -> (r < 1)%Q ->
  exists i x,
    Math_floor (r * inject_Z (Z.of_nat (length l))) = Z.of_nat i
    /\ (i < length l)%nat /\ nth_error l i = Some x.
Proof.
  intros Hl Hr0 Hr1.
  set (n := Z.of_nat (length l)).
  assert (Hn : (0 < n)%Z) by (destruct l; [congruence | subst n; simpl; lia]).
  assert (HnQ : (0 < inject_Z n)%Q)
    by (change 0%Q with (inject_Z 0); rewrite <- Zlt_Qlt; exact Hn).
  set (x := (r * inject_Z n)%Q).
  assert (Hx0 : (0 <= x)%Q) by (subst x; nra).
  assert (Hx1 : (x < inject_Z n)%Q) by (subst x; nra).
  assert (H0 : (0 <= Qfloor x)%Z).
  { change 0%Z with (Qfloor (inject_Z 0)). apply Qfloor_resp_le. exact Hx0. }
  assert (H1 : (Qfloor x < n)%Z).
  { rewrite Zlt_Qlt. eapply Qle_lt_trans; [apply Qfloor_le | exact Hx1]. }
  unfold Math_floor. fold n. fold x.
  exists (Z.to_nat (Qfloor x)).
  assert (Hi : (Z.to_nat (Qfloor x) < length l)%nat) by (subst n; lia).
  destruct (nth_error l (Z.to_nat (Qfloor x))) as [y|] eqn:E.
  - exists y. repeat split; [lia | exact Hi].
  - apply nth_error_None in E. lia.
Qed.

Lemma js_index_of_nat {A} (l : list A) (i : nat) :
  js_index l (Z.of_nat i) = nth_error l i.
Proof.
  unfold js_index. destruct (Z.of_nat i <? 0)%Z eqn:E.
  - apply Z.ltb_lt in E. lia.
  - now rewrite Nat2Z.id.
Qed.

Lemma catalog_well_formed :
  forallb (fun kp => well_formed (snd kp)) personas = true.
Proof. vm_compute. reflexivity. Qed.

Lemma assoc_In {A} (k : jsstring) (l : list (jsstring * A)) (a : A) :
  assoc k l = Some a -> In (k, a) l.
Proof.
  induction l as [|[k' v] l IH]; simpl; [discriminate|].
  destruct (JsString.eqb k k') eqn:E.
  - intros [= ->]. apply jsstring_eqb_eq in E. subst. now left.
  - intros H. right. now apply IH.
Qed.

Lemma getPersona_well_formed (nm : jsstring) (p : Persona) :
  getPersona nm = IsPersona p -> well_formed p = true.
Proof.
  pose proof catalog_well_formed as W. rewrite forallb_forall in W.
  unfold getPersona, js_get.
  destruct (assoc nm personas) as [q|] eqn:E.
  - intros [= <-]. apply (W (nm, q)). now apply assoc_In.
  - destruct (existsb (JsString.eqb nm) object_prototype_keys); [discriminate|].
    intros [= <-]. reflexivity.
Qed.

Lemma well_formed_nonempty p i t :
  well_formed p = true -> nth_error (responses p) i = Some t -> t <> [].
Proof.
  unfold well_formed. intros H E.
  apply andb_true_iff in H as [H _]. apply andb_true_iff in H as [_ H].
  rewrite forallb_forall in H. apply nth_error_In in E.
  specialize (H t E). destruct t; [discriminate | congruence].
Qed.

Lemma wp_selectContent (w : World) (p : Persona) (body : Body)
    (P : completion (option jsstring * option ToolCall.t) -> Conn -> Prop) s :
  in_range w -> well_formed p = true ->
  (forall content tc, selected p body content tc ->
                      P (Normal (Some content, tc)) (tick 1 s)) ->
  wp (selectContent (IsPersona p) body) P w s.
Proof.
  intros Hw Hp HP. destruct (Hw (draws s)) as [Hr0 Hr1].
  pose proof Hp as Hp'. unfold well_formed in Hp'.
  apply andb_true_iff in Hp' as [Hp' Hcalls].
  apply andb_true_iff in Hp' as [Hne _].
  assert (Hresp : responses p <> [])
    by (destruct (responses p); [discriminate | congruence]).
  unfold wp, selectContent.
  destruct (isToolCall (IsPersona p) body && has_toolCalls (IsPersona p)) eqn:C.
  - apply andb_true_iff in C as [C1 C2]. simpl in C2.
    unfold getToolCall, bind, Math_random.
    destruct (toolCalls p) as [calls|] eqn:T; [|discriminate]. simpl.
    apply andb_true_iff in Hcalls as [Hc1 Hc2]. apply Nat.leb_le in Hc2.
    assert (Hc : calls <> []) by (destruct calls; [discriminate | congruence]).
    destruct (js_index_floor Hc Hr0 Hr1)
      as (i & call & Ei & Hi & Ecall).
    rewrite Ei, !js_index_of_nat, Ecall.
    destruct (nth_error (responses p) i) as [t|] eqn:Et;
      [|apply nth_error_None in Et; lia].
    pose proof (well_formed_nonempty p i Hp Et) as Hn || pose proof (well_formed_nonempty Hp Et) as Hn.
    destruct t as [|c t]; [congruence|]. simpl.
    apply HP. split; [exact Hn|].
    simpl. rewrite C1. rewrite T. simpl.
    exists calls, i, call. repeat split; assumption.
  - unfold getResponse, bind, Math_random. simpl.
    destruct (js_index_floor Hresp Hr0 Hr1)
      as (i & t & Ei & Hi & Et).
    rewrite Ei, js_index_of_nat, Et. simpl.
    apply HP. split; [exact (well_formed_nonempty p i Hp Et)|].
    rewrite C. split; [eapply nth_error_In; eassumption | reflexivity].
Qed.

Lemma wp_estimateTokens_of (w : World) (content : jsstring)
    (P : completion (jsstring * Z) -> Conn -> Prop) s :
  P (Normal (content, estimateTokens content)) s ->
  wp (estimateTokens_of (Some content)) P w s.
Proof. intros H. exact H. Qed.

Lemma tokenize_nonempty (text : jsstring) : text <> [] -> tokenize text <> [].
Proof.
  intros H E. apply H. now apply tokenize_nil_inv.
Qed.

Ltac wp_step :=
  lazymatch goal with
  | |- wp (bind _ _) _ _ _ => apply wp_bind
  | |- wp (ret _) _ _ _ => apply wp_ret
  | |- wp return_ _ _ _ => apply wp_return
  | |- wp (throw _) _ _ _ => apply wp_throw
  | |- wp (call _) _ _ _ => apply wp_call
  | |- wp (res_write _) _ _ _ => apply wp_write
  | |- wp (Anthropic.writeSSE _ _) _ _ _ => apply wp_write
  | |- wp (res_writeHead _ _) _ _ _ => apply wp_writeHead
  | |- wp (res_end _) _ _ _ => apply wp_end
  | |- wp (sleep _) _ _ _ => apply wp_sleep
  | |- wp Date_now _ _ _ => apply wp_now
  | |- wp Math_random _ _ _ => apply wp_random
  | |- wp (generateId _) _ _ _ => apply wp_generateId; intros ?
  | |- wp (getTokenDelay _) _ _ _ => apply wp_getTokenDelay; intros ?
  | |- wp (getFirstTokenDelay _) _ _ _ => apply wp_getFirstTokenDelay; intros ?
  | |- wp (estimateTokens_of (Some _)) _ _ _ => apply wp_estimateTokens_of
  end; cbv beta iota zeta.

Ltac wp_steps := repeat wp_step.

(* ===================================================================== *)
(** ** The single-shot mode does not wait *)
(* ===================================================================== *)

Lemma unslept_fresh : unslept fresh.
Proof. split; reflexivity. Qed.

Lemma unslept_tick n s : unslept s -> unslept (tick n s).
Proof. intros H. exact H. Qed.

Lemma unslept_say e s : is_sleep e = false -> unslept s -> unslept (say e s).
Proof.
  intros He [H1 H2]. split; [exact H1|]. simpl.
  rewrite forallb_app, H2. simpl. now rewrite He.
Qed.

Create HintDb nullmodel.
#[local] Hint Resolve unslept_tick unslept_say : nullmodel.

(** The selection and the usage estimate call [Math.random()] at most, also
    when they throw. *)
Lemma selectContent_draws_only (w : World) persona body s :
  exists n, snd (selectContent persona body w s) = tick n s.
Proof.
  unfold selectContent.
  destruct (isToolCall persona body && has_toolCalls persona).
  - unfold getToolCall. destruct persona as [p|key].
    + destruct (toolCalls p) as [calls|].
      * exists 1%nat. reflexivity.
      * exists 0%nat. destruct s; reflexivity.
    + exists 0%nat. destruct s; reflexivity.
  - unfold getResponse. destruct persona as [p|key].
    + exists 1%nat. reflexivity.
    + exists 1%nat. reflexivity.
Qed.

Lemma wp_selectContent_any (w : World) persona body
    (P : completion (option jsstring * option ToolCall.t) -> Conn -> Prop) s :
  (forall c n, P c (tick n s)) -> wp (selectContent persona body) P w s.
Proof.
  intros H. unfold wp.
  destruct (selectContent_draws_only w persona body s) as [n E].
  rewrite E. apply H.
Qed.

Lemma wp_estimateTokens_of_any (w : World) content
    (P : completion (jsstring * Z) -> Conn -> Prop) s :
  (forall c, P c s) -> wp (estimateTokens_of content) P w s.
Proof. intros H. unfold wp. destruct content; simpl; apply H. Qed.

Section SingleShot.

Variable w : World.




End SingleShot.



Section SingleShotHandlers.

Variable w : World.
Variable body : Body.
Variable config : Config.




End SingleShotHandlers.

Lemma resolvePersona_catalog (body : Body) (config : Config) :
  is_prototype_key (persona_hint body config) = false ->
  exists p, resolvePersona body config = IsPersona p /\ well_formed p = true.
Proof.
  intros H. unfold resolvePersona. rewrite (getPersona_catalog _ H).
  eexists. split; [reflexivity|].
  eapply getPersona_well_formed. apply getPersona_catalog. exact H.
Qed.

Section SingleShotAnswers.

Variable w : World.
Variable body : Body.
Variable config : Config.
Hypothesis Hrange : in_range w.
Hypothesis Hhint : is_prototype_key (persona_hint body config) = false.




End SingleShotAnswers.

Lemma wp_and {A} (m : M A) (P1 P2 : completion A -> Conn -> Prop) w s :
  wp m P1 w s -> wp m P2 w s -> wp m (fun c s' => P1 c s' /\ P2 c s') w s.
Proof. unfold wp. intros H1 H2. split; assumption. Qed.



Lemma chaos_names_eqb :
  JsString.eqb (js "rate_limit") (js "slowdown") = false
  /\ JsString.eqb (js "server_error") (js "slowdown") = false
  /\ JsString.eqb (js "slowdown") (js "slowdown") = true.
Proof. vm_compute. repeat split; reflexivity. Qed.



(** C10, where the code departs from it.  A request without a stream flag
    whose persona hint is [constructor], on each of the three providers:
    [getPersona] returns the function inherited from [Object.prototype],
    the handler throws when it selects the content, before anything is
    written, and the exception passes the [catch] block of the listener.
    No document is rendered or sent, in any world. *)
Theorem single_shot_inherited_persona_sends_nothing (w : World)
    (model : jsstring) :
  let body := request "constructor" false in
  stream_off openai body = true
  /\ (exists e s, serve openai body DEFAULTS w = (Throw e, s)
                  /\ log s = [] /\ sleeps s = 0%nat)
  /\ (exists e s, serve anthropic body DEFAULTS w = (Throw e, s)
                  /\ log s = [] /\ sleeps s = 0%nat)
  /\ (exists e s, serve (gemini model false) body DEFAULTS w = (Throw e, s)
                  /\ log s = [] /\ sleeps s = 0%nat).
Proof.
  cbv zeta. split; [reflexivity|].
  split; [|split]; do 2 eexists; (split; [reflexivity|]); split; reflexivity.
Qed.

(* ===================================================================== *)
(** ** Streaming and the liveness of the connection *)
(* ===================================================================== *)

Lemma audit_snoc w l e : audit w (l ++ [e]) = audit_step w (audit w l) e.
Proof. unfold audit. rewrite fold_left_app. reflexivity. Qed.

Lemma sound_tick w n s : sound w s -> sound w (tick n s).
Proof. intros H. exact H. Qed.

Lemma sound_nap w ms s : sound w s -> sound w (nap w ms s).
Proof.
  unfold sound. intros H. simpl. rewrite audit_snoc, H. reflexivity.
Qed.

Lemma sound_head w status hs s : sound w s -> sound w (say (WriteHead status hs) s).
Proof.
  unfold sound. intros H. simpl. rewrite audit_snoc, H. reflexivity.
Qed.

Lemma sound_write w f s :
  sound w s -> destroyed s = false -> sound w (say (Write f) s).
Proof.
  unfold sound. intros H D. simpl. rewrite audit_snoc, H. simpl.
  rewrite D. reflexivity.
Qed.

Lemma sound_end w b s :
  sound w s -> destroyed s = false -> sound w (say (End b) s).
Proof.
  unfold sound. intros H D. simpl. rewrite audit_snoc, H. simpl.
  rewrite D. reflexivity.
Qed.

#[local] Hint Resolve sound_tick sound_nap sound_head sound_write sound_end
  : nullmodel.

(** A loop whose iterations wait, check the connection and write one
    frame. *)
Lemma checked_loop_quiet {A} (w : World) (config : Config) (xs : list A)
    (f : A -> frame) (P : completion unit -> Conn -> Prop) s :
  (forall s', sound w s' -> P Return s') ->
  (forall s', sound w s' -> destroyed s' = false -> P (Normal tt) s') ->
  sound w s -> destroyed s = false ->
  wp (for_of xs (fun x =>
        d <- getTokenDelay config ;;
        sleep d ;;
        return_if_destroyed ;;
        res_write (f x))) P w s.
Proof.
  intros HR HN Hs Hd.
  apply (wp_for_of w (fun _ s' => sound w s' /\ destroyed s' = false));
    [| intros s' [H1 H2]; auto | auto].
  intros done x rest s' _ [H1 H2].
  wp_steps. apply wp_return_if_destroyed; intros D.
  - apply HR. auto with nullmodel.
  - wp_steps. split; [|exact D]. apply sound_write; auto with nullmodel.
Qed.

Lemma checked_count_loop_quiet (w : World) (config : Config) (count : nat)
    (f : nat -> frame) (P : completion unit -> Conn -> Prop) s :
  (forall s', sound w s' -> P Return s') ->
  (forall s', sound w s' -> destroyed s' = false -> P (Normal tt) s') ->
  sound w s -> destroyed s = false ->
  wp (for_upto count 0 (fun i =>
        d <- getTokenDelay config ;;
        sleep d ;;
        return_if_destroyed ;;
        res_write (f i))) P w s.
Proof.
  intros HR HN Hs Hd.
  apply (wp_for_upto w (fun _ s' => sound w s' /\ destroyed s' = false));
    [| intros s' [H1 H2]; auto | auto].
  intros i s' _ [H1 H2].
  wp_steps. apply wp_return_if_destroyed; intros D.
  - apply HR. auto with nullmodel.
  - wp_steps. split; [|exact D]. apply sound_write; auto with nullmodel.
Qed.

Section CheckedStreams.

Variable w : World.
Variable config : Config.
Variable s : Conn.
Hypothesis Hlog : log s = [].
Hypothesis Hsleeps : sleeps s = 0%nat.
Hypothesis Halive : destroyed s = false.
(** The peer is still there when the first-unit wait ends. *)
Hypothesis Hfirst : hangup w 0 = false.

Lemma start_sound : sound w s.
Proof. unfold sound. rewrite Hlog, Hsleeps, Halive. reflexivity. Qed.

Lemma first_nap_alive ms (s' : Conn) :
  destroyed s' = destroyed s -> sleeps s' = sleeps s ->
  destroyed (nap w ms s') = false.
Proof.
  intros D S. simpl. rewrite D, S, Halive, Hsleeps, Hfirst. reflexivity.
Qed.

Lemma OpenAI_text_stream_quiet (p : OpenAI.Params) :
  OpenAI.toolCall_ p = None ->
  wp (OpenAI.sendStreaming config p) (quiet w) w s.
Proof.
  intros Hp. pose proof start_sound as S0.
  unfold OpenAI.sendStreaming. rewrite Hp. wp_steps.
  match goal with |- wp _ _ _ ?st =>
    assert (Hst : sound w st) by
      (apply sound_nap, sound_tick, sound_write; [|exact Halive];
       apply sound_head, sound_tick, S0);
    assert (Hd : destroyed st = false) by (apply first_nap_alive; reflexivity)
  end.
  apply checked_loop_quiet; [ | | exact Hst | exact Hd ].
  - intros s' H. exact H.
  - intros s' H D. wp_steps. simpl. auto 8 with nullmodel.
Qed.

Lemma Anthropic_stream_quiet (p : Anthropic.Params) :
  wp (Anthropic.sendStreaming config p) (quiet w) w s.
Proof.
  pose proof start_sound as S0.
  unfold Anthropic.sendStreaming, Anthropic.streamText, Anthropic.writeSSE.
  wp_step. wp_step. wp_step. wp_step. wp_step. wp_step. wp_step.
  wp_step. wp_step. wp_step.
  match goal with |- wp _ _ _ ?st =>
    assert (Hst : sound w st) by
      (apply sound_nap, sound_tick, sound_write; [|exact Halive];
       apply sound_head, sound_tick, S0);
    assert (Hd : destroyed st = false) by (apply first_nap_alive; reflexivity)
  end.
  destruct (Anthropic.toolCall_ p) as [tc|].
  - wp_steps.
    apply checked_loop_quiet;
      [ | | apply sound_write; assumption | exact Hd ].
    + intros s' H. exact H.
    + intros s' H D. wp_steps.
      apply checked_loop_quiet;
        [ | | apply sound_write; [apply sound_tick, sound_write; assumption | exact D]
          | exact D ].
      * intros s'' H'. exact H'.
      * intros s'' H' D'. wp_steps. simpl. auto 10 with nullmodel.
  - wp_steps.
    apply checked_loop_quiet;
      [ | | apply sound_write; assumption | exact Hd ].
    + intros s' H. exact H.
    + intros s' H D. wp_steps. simpl. auto 10 with nullmodel.
Qed.

Lemma Gemini_stream_quiet (p : Gemini.Params) :
  wp (Gemini.sendStreaming config p) (quiet w) w s.
Proof.
  pose proof start_sound as S0.
  unfold Gemini.sendStreaming.
  wp_step. wp_step. wp_step. wp_step. wp_step. wp_step.
  match goal with |- wp _ _ _ ?st =>
    assert (Hst : sound w st) by
      (apply sound_nap, sound_tick, sound_head, S0);
    assert (Hd : destroyed st = false) by (apply first_nap_alive; reflexivity)
  end.
  destruct (Gemini.toolCall_ p) as [tc|].
  - wp_steps. simpl. auto 8 with nullmodel.
  - cbv zeta. wp_step.
    apply checked_count_loop_quiet; [ | | exact Hst | exact Hd ].
    + intros s' H. exact H.
    + intros s' H D. wp_steps. simpl. auto 8 with nullmodel.
Qed.

End CheckedStreams.

(** C7, where the code departs from it.  A streamed OpenAI tool call
    whose peer leaves during the wait before the first fragment of the
    arguments (the sleep of index 1): the loop over the fragments has no
    check of [res.destroyed], so the seven fragments, the final chunk and
    the [DONE] line are written to the closed connection and the response
    is ended.  The loop over the tokens of a text, which has the check,
    writes nothing more when the peer leaves at the same moment. *)
Theorem openai_tool_stream_writes_after_hangup :
  let w := leaves_at 1 in
  let r := serve openai (request "tool_calls" true) DEFAULTS w in
  let text := serve openai (request "terse" true) DEFAULTS w in
  fst r = Normal tt
  /\ destroyed (snd r) = true
  /\ silent_once_gone w (log (snd r)) = false
  /\ length (frames_after_gone w 0 false (log (snd r))) = 9%nat
  /\ last (log (snd r)) (Sleep 0) = End None
  /\ destroyed (snd text) = true
  /\ frames_after_gone w 0 false (log (snd text)) = []
  /\ last (log (snd text)) (End None) = Sleep 30.
Proof. vm_compute. repeat split; reflexivity. Qed.

Lemma gone_fold_any_clean w l a b c c' :
  gone (fold_left (audit_step w) l {| heard := a; gone := b; clean := c |})
  = gone (fold_left (audit_step w) l {| heard := a; gone := b; clean := c' |}).
Proof.
  revert a b c c'. induction l as [|y l IH]; intros a b c c'; [reflexivity|].
  destruct y; simpl; apply IH.
Qed.

Lemma frames_after_gone_snoc w l e n g :
  frames_after_gone w n g (l ++ [e])
  = frames_after_gone w n g l
    ++ match e with
       | Write f =>
         if gone (fold_left (audit_step w) l
                    {| heard := n; gone := g; clean := true |})
         then [f] else []
       | _ => []
       end.
Proof.
  revert n g. induction l as [|x l IH]; intros n g; simpl.
  - destruct e; simpl; try reflexivity. now rewrite app_nil_r.
  - destruct x; simpl; rewrite ?IH; try reflexivity.
    + rewrite <- app_assoc. f_equal. destruct e; try reflexivity.
      now rewrite (gone_fold_any_clean w l n g (negb g) true).
    + destruct e; try reflexivity.
      now rewrite (gone_fold_any_clean w l n g (negb g) true).
Qed.

Lemma clean_no_frames_after_gone w l :
  clean (audit w l) = true -> frames_after_gone w 0 false l = [].
Proof.
  induction l as [|e l IH] using rev_ind; [reflexivity|].
  rewrite audit_snoc, frames_after_gone_snoc. fold (audit w l).
  destruct e; simpl; intros H.
  - rewrite IH by exact H. reflexivity.
  - apply andb_true_iff in H as [H1 H2]. rewrite IH by exact H1.
    apply negb_true_iff in H2. rewrite H2. reflexivity.
  - apply andb_true_iff in H as [H1 H2]. rewrite IH by exact H1. reflexivity.
  - rewrite IH by exact H. reflexivity.
Qed.

Lemma quiet_stops w (m : M unit) s :
  wp m (quiet w) w s -> stops_once_gone w (m w s).
Proof.
  unfold wp, quiet, stops_once_gone, silent_once_gone, sound.
  destruct (m w s) as [[[]| |e] s']; simpl; intros H; try contradiction;
    (split; [intros e'; discriminate|]);
    (split; [now rewrite H | apply clean_no_frames_after_gone; now rewrite H]).
Qed.

(** X29. In the token loop of the text path of each
    of the three emitters, and in both loops of the Anthropic tool path,
    the connection is checked once per iteration, after the per-unit wait
    and before the frame of that iteration is written.  So, when the peer
    is still there after the first-unit wait, these streaming functions
    raise no error in any world, and once the peer has gone they write no
    further frame, no terminal frame either, and do not end the response:
    the function returns.  (Gemini's tool path has one frame and no loop.) *)
Theorem checked_loops_stop_once_gone (w : World) (config : Config) (s : Conn) :
  log s = [] -> sleeps s = 0%nat -> destroyed s = false ->
  hangup w 0 = false ->
  (forall p, OpenAI.toolCall_ p = None ->
             stops_once_gone w (OpenAI.sendStreaming config p w s))
  /\ (forall p, stops_once_gone w (Anthropic.sendStreaming config p w s))
  /\ (forall p, stops_once_gone w (Gemini.sendStreaming config p w s)).
Proof.
  intros Hlog Hsl Hd Hfirst. split; [|split]; intros p.
  - intros Hp. apply quiet_stops. now apply OpenAI_text_stream_quiet.
  - apply quiet_stops. now apply Anthropic_stream_quiet.
  - apply quiet_stops. now apply Gemini_stream_quiet.
Qed.

Lemma checked_loops_stop_once_gone_witness :
  stops_once_gone (leaves_at 20)
    (Anthropic.sendStreaming DEFAULTS weather_stream (leaves_at 20) fresh)
  /\ destroyed (snd (Anthropic.sendStreaming DEFAULTS weather_stream
                       (leaves_at 20) fresh)) = true.
Proof.
  destruct (checked_loops_stop_once_gone (leaves_at 20) DEFAULTS fresh
              eq_refl eq_refl eq_refl eq_refl) as (_ & H & _).
  split; [exact (H weather_stream) | vm_compute; reflexivity].
Defined.

(* ===================================================================== *)
(** ** The frames of a stream that runs to completion *)
(* ===================================================================== *)

Lemma frames_app l1 l2 : frames (l1 ++ l2) = frames l1 ++ frames l2.
Proof.
  induction l1 as [|e l1 IH]; [reflexivity|].
  destruct e; simpl; rewrite IH; reflexivity.
Qed.

Lemma wrote_tick F n s : wrote F s -> wrote F (tick n s).
Proof. intros H. exact H. Qed.

Lemma wrote_nap w F ms s : stays w -> wrote F s -> wrote F (nap w ms s).
Proof.
  intros Hw [D H]. split; simpl.
  - rewrite D, Hw. reflexivity.
  - rewrite frames_app, H. simpl. apply app_nil_r.
Qed.

Lemma wrote_head F status hs s : wrote F s -> wrote F (say (WriteHead status hs) s).
Proof.
  intros [D H]. split; [exact D|]. simpl.
  rewrite frames_app, H. simpl. apply app_nil_r.
Qed.

Lemma wrote_write F f s : wrote F s -> wrote (F ++ [f]) (say (Write f) s).
Proof.
  intros [D H]. split; [exact D|]. simpl.
  rewrite frames_app, H. reflexivity.
Qed.

Section StreamLoops.

Variable w : World.
Variable config : Config.
Hypothesis Hstays : stays w.

(** A loop that waits, checks the connection and writes one frame per
    element writes the frames of the elements, in order. *)
Lemma checked_loop_frames {A} (xs : list A) (f : A -> frame)
    (P : completion unit -> Conn -> Prop) (F : list frame) s :
  (forall s', wrote (F ++ map f xs) s' -> P (Normal tt) s') ->
  wrote F s ->
  wp (for_of xs (fun x =>
        d <- getTokenDelay config ;;
        sleep d ;;
        return_if_destroyed ;;
        res_write (f x))) P w s.
Proof.
  intros HN Hs.
  apply (wp_for_of w (fun done s' => wrote (F ++ map f done) s'));
    [| exact HN | simpl; rewrite app_nil_r; exact Hs].
  intros done x rest s' _ H.
  wp_steps.
  assert (H' : wrote (F ++ map f done) (nap w d (tick 1 s')))
    by (apply wrote_nap, wrote_tick; assumption).
  apply wp_return_if_destroyed; intros D.
  - destruct H' as [D' _]. congruence.
  - wp_steps. rewrite map_app, app_assoc. simpl. apply wrote_write. exact H'.
Qed.

(** The same loop without the check of the connection. *)
Lemma unchecked_loop_frames {A} (xs : list A) (f : A -> frame)
    (P : completion unit -> Conn -> Prop) (F : list frame) s :
  (forall s', wrote (F ++ map f xs) s' -> P (Normal tt) s') ->
  wrote F s ->
  wp (for_of xs (fun x =>
        d <- getTokenDelay config ;;
        sleep d ;;
        res_write (f x))) P w s.
Proof.
  intros HN Hs.
  apply (wp_for_of w (fun done s' => wrote (F ++ map f done) s'));
    [| exact HN | simpl; rewrite app_nil_r; exact Hs].
  intros done x rest s' _ H.
  wp_steps. rewrite map_app, app_assoc. simpl.
  apply wrote_write, wrote_nap, wrote_tick; assumption.
Qed.

(** The counting loop writes the frames of the indices [0 .. count-1]. *)
Lemma counted_loop_frames (count : nat) (f : nat -> frame)
    (P : completion unit -> Conn -> Prop) (F : list frame) s :
  (forall s', wrote (F ++ map f (seq 0 count)) s' -> P (Normal tt) s') ->
  wrote F s ->
  wp (for_upto count 0 (fun i =>
        d <- getTokenDelay config ;;
        sleep d ;;
        return_if_destroyed ;;
        res_write (f i))) P w s.
Proof.
  intros HN Hs.
  apply (wp_for_upto w (fun i s' => wrote (F ++ map f (seq 0 i)) s'));
    [| exact HN | simpl; rewrite app_nil_r; exact Hs].
  intros i s' _ H.
  wp_steps.
  assert (H' : wrote (F ++ map f (seq 0 i)) (nap w d (tick 1 s')))
    by (apply wrote_nap, wrote_tick; assumption).
  apply wp_return_if_destroyed; intros D.
  - destruct H' as [D' _]. congruence.
  - wp_steps. rewrite seq_S, map_app, app_assoc. simpl.
    apply wrote_write. exact H'.
Qed.

End StreamLoops.

Lemma streamed_end F s : wrote F s -> streamed F (Normal tt) (say (End None) s).
Proof.
  intros [_ H]. split; [reflexivity|]. exists (log s). split; [reflexivity | exact H].
Qed.

Lemma streamed_as F F' s0 :
  wrote F s0 -> F = F' -> streamed F' (Normal tt) (say (End None) s0).
Proof. intros H <-. now apply streamed_end. Qed.

Ltac frames_eq := simpl; rewrite <- ?app_assoc; simpl; reflexivity.

Section CompleteStreams.

Variable w : World.
Variable config : Config.
Variable s : Conn.
Hypothesis Hstays : stays w.
Hypothesis Hlog : log s = [].
Hypothesis Halive : destroyed s = false.

Lemma start_wrote : wrote [] s.
Proof. split; [exact Halive | now rewrite Hlog]. Qed.

Lemma OpenAI_stream_frames (p : OpenAI.Params) :
  wp (OpenAI.sendStreaming config p)
     (fun c s' => exists callId, streamed (OpenAI_frames p callId) c s') w s.
Proof.
  pose proof start_wrote as W0.
  unfold OpenAI.sendStreaming, OpenAI_frames.
  do 10 wp_step.
  match goal with |- wp _ _ _ ?st =>
    assert (W1 : wrote ([] ++ [Data (OpenAI.roleChunk p)]) st) by
      (apply wrote_nap, wrote_tick, wrote_write, wrote_head, wrote_tick;
       assumption)
  end.
  destruct (OpenAI.toolCall_ p) as [tc|].
  - wp_steps.
    eapply unchecked_loop_frames;
      [exact Hstays | | apply wrote_write, wrote_tick; exact W1].
    intros s' W2. wp_steps. eexists.
    eapply streamed_as; [apply wrote_write, wrote_write; exact W2 | frames_eq].
  - wp_steps.
    eapply checked_loop_frames; [exact Hstays | | exact W1].
    intros s' W2. wp_steps. exists [].
    eapply streamed_as; [apply wrote_write, wrote_write; exact W2 | frames_eq].
Qed.

Lemma Anthropic_stream_frames (p : Anthropic.Params) :
  wp (Anthropic.sendStreaming config p)
     (fun c s' => exists toolUseId, streamed (Anthropic_frames p toolUseId) c s') w s.
Proof.
  pose proof start_wrote as W0.
  unfold Anthropic.sendStreaming, Anthropic_frames, Anthropic.streamText,
    Anthropic.writeSSE.
  do 10 wp_step.
  match goal with |- wp _ _ _ ?st =>
    assert (W1 : wrote ([] ++ [Sse (js "message_start") (Anthropic.messageStart p)]) st) by
      (apply wrote_nap, wrote_tick, wrote_write, wrote_head, wrote_tick;
       assumption)
  end.
  destruct (Anthropic.toolCall_ p) as [tc|].
  - wp_steps.
    eapply checked_loop_frames; [exact Hstays | | apply wrote_write; exact W1].
    intros s' W2. wp_steps.
    eapply checked_loop_frames;
      [exact Hstays | | apply wrote_write, wrote_tick, wrote_write; exact W2].
    intros s'' W3. wp_steps. eexists.
    eapply streamed_as;
      [apply wrote_write, wrote_write, wrote_write; exact W3 | frames_eq].
  - wp_steps.
    eapply checked_loop_frames; [exact Hstays | | apply wrote_write; exact W1].
    intros s' W2. wp_steps. exists [].
    eapply streamed_as;
      [apply wrote_write, wrote_write, wrote_write; exact W2 | frames_eq].
Qed.

Lemma Gemini_stream_frames (p : Gemini.Params) :
  wp (Gemini.sendStreaming config p) (streamed (Gemini_frames p)) w s.
Proof.
  pose proof start_wrote as W0.
  unfold Gemini.sendStreaming, Gemini_frames.
  do 6 wp_step.
  match goal with |- wp _ _ _ ?st =>
    assert (W1 : wrote [] st) by
      (apply wrote_nap, wrote_tick, wrote_head; assumption)
  end.
  destruct (Gemini.toolCall_ p) as [tc|] eqn:E.
  - wp_steps.
    eapply streamed_as; [apply wrote_write; exact W1|].
    simpl. unfold Gemini.document. rewrite E. reflexivity.
  - cbv zeta. wp_step.
    eapply counted_loop_frames; [exact Hstays | | exact W1].
    intros s' W2. wp_steps. apply streamed_end. exact W2.
Qed.

End CompleteStreams.

(** ** The handlers in streaming mode *)

Section StreamingHandlers.

Variable w : World.
Variable body : Body.
Variable config : Config.
Variable s : Conn.
Hypothesis Hrange : in_range w.
Hypothesis Hstays : stays w.
Hypothesis Hhint : is_prototype_key (persona_hint body config) = false.
Hypothesis Hlog : log s = [].
Hypothesis Halive : destroyed s = false.

Lemma handleChatCompletions_streams :
  not_streaming body = false ->
  wp (OpenAI.handleChatCompletions body config)
     (fun c s' =>
        c = Return
        /\ exists persona p callId,
             resolvePersona body config = IsPersona persona
             /\ selected persona body (OpenAI.content p) (OpenAI.toolCall_ p)
             /\ streamed (OpenAI_frames p callId) (Normal tt) s') w s.
Proof.
  intros Hon.
  destruct (resolvePersona_catalog body config Hhint) as (persona & Hp & Hwf).
  unfold OpenAI.handleChatCompletions. cbv zeta. rewrite Hp.
  wp_step. apply wp_selectContent; [exact Hrange | exact Hwf |].
  intros content tc Hsel. cbv beta iota. wp_steps. rewrite Hon. wp_steps.
  match goal with |- wp (OpenAI.sendStreaming _ ?p) _ _ ?st =>
    eapply wp_conseq;
      [|apply (@OpenAI_stream_frames w config st Hstays Hlog Halive p)]
  end.
  intros c s' [callId [Hc Hl]]. subst c. cbv beta iota.
  apply wp_return. split; [reflexivity|].
  match type of Hl with context [OpenAI_frames ?p _] =>
    exists persona, p, callId end.
  split; [reflexivity|]. split; [exact Hsel|]. split; [reflexivity | exact Hl].
Qed.

Lemma handleMessages_streams :
  not_streaming body = false ->
  wp (Anthropic.handleMessages body config)
     (fun c s' =>
        c = Return
        /\ exists persona p toolUseId,
             resolvePersona body config = IsPersona persona
             /\ selected persona body (Anthropic.content p) (Anthropic.toolCall_ p)
             /\ streamed (Anthropic_frames p toolUseId) (Normal tt) s') w s.
Proof.
  intros Hon.
  destruct (resolvePersona_catalog body config Hhint) as (persona & Hp & Hwf).
  unfold Anthropic.handleMessages. cbv zeta. rewrite Hp.
  wp_step. apply wp_selectContent; [exact Hrange | exact Hwf |].
  intros content tc Hsel. cbv beta iota. wp_steps. rewrite Hon. wp_steps.
  match goal with |- wp (Anthropic.sendStreaming _ ?p) _ _ ?st =>
    eapply wp_conseq;
      [|apply (@Anthropic_stream_frames w config st Hstays Hlog Halive p)]
  end.
  intros c s' [toolUseId [Hc Hl]]. subst c. cbv beta iota.
  apply wp_return. split; [reflexivity|].
  match type of Hl with context [Anthropic_frames ?p _] =>
    exists persona, p, toolUseId end.
  split; [reflexivity|]. split; [exact Hsel|]. split; [reflexivity | exact Hl].
Qed.

Lemma handleGenerateContent_streams (model : jsstring) :
  wp (Gemini.handleGenerateContent body config model true)
     (fun c s' =>
        c = Return
        /\ exists persona p,
             resolvePersona body config = IsPersona persona
             /\ selected persona body (Gemini.content p) (Gemini.toolCall_ p)
             /\ streamed (Gemini_frames p) (Normal tt) s') w s.
Proof.
  destruct (resolvePersona_catalog body config Hhint) as (persona & Hp & Hwf).
  unfold Gemini.handleGenerateContent. cbv zeta. rewrite Hp.
  wp_step. apply wp_selectContent; [exact Hrange | exact Hwf |].
  intros content tc Hsel. cbv beta iota. wp_steps. simpl negb. cbv iota.
  wp_steps.
  match goal with |- wp (Gemini.sendStreaming _ ?p) _ _ ?st =>
    eapply wp_conseq;
      [|apply (@Gemini_stream_frames w config st Hstays Hlog Halive p)]
  end.
  intros c s' [Hc Hl]. subst c. cbv beta iota.
  apply wp_return. split; [reflexivity|].
  match type of Hl with context [Gemini_frames ?p] =>
    exists persona, p end.
  split; [reflexivity|]. split; [exact Hsel|]. split; [reflexivity | exact Hl].
Qed.

End StreamingHandlers.

(* ===================================================================== *)
(** ** Termination of a complete stream *)
(* ===================================================================== *)

Lemma OpenAI_frames_end_once p callId : openai_ends_once (OpenAI_frames p callId).
Proof.
  unfold OpenAI_frames, openai_ends_once.
  destruct (OpenAI.toolCall_ p) as [tc|].
  - eexists (_ ++ _), _, _. split; [rewrite <- app_assoc; reflexivity|].
    split; [reflexivity|]. split; [reflexivity|]. split; [discriminate|].
    apply Forall_app. split.
    + repeat constructor.
    + apply Forall_map, Forall_forall. intros piece _. reflexivity.
  - eexists (_ ++ _), _, _. split; [rewrite <- app_assoc; reflexivity|].
    split; [reflexivity|]. split; [reflexivity|]. split; [discriminate|].
    apply Forall_app. split.
    + repeat constructor.
    + apply Forall_map, Forall_forall. intros token _. reflexivity.
Qed.

Lemma Anthropic_frames_end_once p id : anthropic_ends_once (Anthropic_frames p id).
Proof.
  unfold Anthropic_frames, anthropic_ends_once.
  match goal with
  | |- exists pre d m, ?A ++ ?B ++ ?C ++ ?D ++ [Sse ?n1 ?x1; Sse ?n2 ?x2] = _ /\ _ =>
    exists (A ++ B ++ C ++ D), x1, x2
  end.
  split; [now rewrite <- !app_assoc|].
  repeat (apply Forall_app; split).
  - repeat constructor.
  - apply Forall_map, Forall_forall. intros t _. reflexivity.
  - repeat constructor.
  - destruct (Anthropic.toolCall_ p) as [tc|]; [|constructor].
    repeat (apply Forall_app; split).
    + repeat constructor.
    + apply Forall_map, Forall_forall. intros t _. reflexivity.
    + repeat constructor.
Qed.

Lemma Gemini_tokenChunk_last p tokens i :
  S i = length tokens ->
  carries_usageMetadata (Data (Gemini.tokenChunk p tokens i)) = true
  /\ carries_finishReason (Data (Gemini.tokenChunk p tokens i)) = true.
Proof.
  intros H. unfold Gemini.tokenChunk.
  replace (Z.of_nat i =? Z.of_nat (length tokens) - 1)%Z with true
    by (symmetry; apply Z.eqb_eq; lia).
  split; reflexivity.
Qed.

Lemma Gemini_tokenChunk_inner p tokens i :
  (S i < length tokens)%nat ->
  carries_usageMetadata (Data (Gemini.tokenChunk p tokens i)) = false
  /\ carries_finishReason (Data (Gemini.tokenChunk p tokens i)) = false.
Proof.
  intros H. unfold Gemini.tokenChunk.
  replace (Z.of_nat i =? Z.of_nat (length tokens) - 1)%Z with false
    by (symmetry; apply Z.eqb_neq; lia).
  split; reflexivity.
Qed.

Lemma Gemini_frames_end_once p :
  (Gemini.toolCall_ p = None -> Gemini.content p <> []) ->
  gemini_ends_once (Gemini_frames p).
Proof.
  intros Hc. unfold Gemini_frames, gemini_ends_once.
  destruct (Gemini.toolCall_ p) as [tc|] eqn:E.
  - exists [], (Data (Gemini.document p [Gemini.functionCallPart tc])).
    split; [reflexivity|]. unfold Gemini.document. rewrite E.
    split; [reflexivity|]. split; [reflexivity | constructor].
  - cbv zeta. pose proof (tokenize_nonempty (Hc eq_refl)) as Hne.
    set (tokens := tokenize (Gemini.content p)) in *.
    destruct (length tokens) as [|n] eqn:L;
      [destruct tokens; [congruence | discriminate]|].
    rewrite seq_S, map_app. simpl.
    eexists _, _. split; [reflexivity|].
    destruct (@Gemini_tokenChunk_last p tokens n) as [H1 H2]; [congruence|].
    split; [exact H1|]. split; [exact H2|].
    apply Forall_map, Forall_forall. intros i Hi. apply in_seq in Hi.
    apply Gemini_tokenChunk_inner. lia.
Qed.

(* ===================================================================== *)
(** ** Streams in any world: what was written when the response is ended *)
(* ===================================================================== *)

Lemma unended_snoc l e : is_end e = false -> unended l -> unended (l ++ [e]).
Proof.
  unfold unended. intros He H. rewrite forallb_app, H. simpl. now rewrite He.
Qed.

Lemma drafted_tick F n s : drafted F s -> drafted F (tick n s).
Proof. intros H. exact H. Qed.

Lemma drafted_nap w F ms s : drafted F s -> drafted F (nap w ms s).
Proof.
  intros [H U]. split; simpl.
  - rewrite frames_app, H. simpl. apply app_nil_r.
  - now apply unended_snoc.
Qed.

Lemma drafted_head F status hs s :
  drafted F s -> drafted F (say (WriteHead status hs) s).
Proof.
  intros [H U]. split; simpl.
  - rewrite frames_app, H. simpl. apply app_nil_r.
  - now apply unended_snoc.
Qed.

Lemma drafted_write F f s : drafted F s -> drafted (F ++ [f]) (say (Write f) s).
Proof.
  intros [H U]. split; simpl.
  - rewrite frames_app, H. reflexivity.
  - now apply unended_snoc.
Qed.

Lemma ended_as_end F F' s :
  drafted F s -> F = F' -> ended_as F' (Normal tt) (say (End None) s).
Proof.
  intros [H U] <-. exists (log s). repeat split; assumption.
Qed.

Section OpenLoops.

Variable w : World.
Variable config : Config.

Lemma checked_loop_drafts {A} (xs : list A) (f : A -> frame)
    (P : completion unit -> Conn -> Prop) (F : list frame) s :
  (forall s', drafted (F ++ map f xs) s' -> P (Normal tt) s') ->
  (forall s', unended (log s') -> P Return s') ->
  drafted F s ->
  wp (for_of xs (fun x =>
        d <- getTokenDelay config ;;
        sleep d ;;
        return_if_destroyed ;;
        res_write (f x))) P w s.
Proof.
  intros HN HR Hs.
  apply (wp_for_of w (fun done s' => drafted (F ++ map f done) s'));
    [| exact HN | simpl; rewrite app_nil_r; exact Hs].
  intros done x rest s' _ H.
  wp_steps.
  assert (H' : drafted (F ++ map f done) (nap w d (tick 1 s')))
    by (apply drafted_nap, drafted_tick; assumption).
  apply wp_return_if_destroyed; intros D.
  - apply HR. apply H'.
  - wp_steps. rewrite map_app, app_assoc. simpl. apply drafted_write. exact H'.
Qed.

Lemma unchecked_loop_drafts {A} (xs : list A) (f : A -> frame)
    (P : completion unit -> Conn -> Prop) (F : list frame) s :
  (forall s', drafted (F ++ map f xs) s' -> P (Normal tt) s') ->
  drafted F s ->
  wp (for_of xs (fun x =>
        d <- getTokenDelay config ;;
        sleep d ;;
        res_write (f x))) P w s.
Proof.
  intros HN Hs.
  apply (wp_for_of w (fun done s' => drafted (F ++ map f done) s'));
    [| exact HN | simpl; rewrite app_nil_r; exact Hs].
  intros done x rest s' _ H.
  wp_steps. rewrite map_app, app_assoc. simpl.
  apply drafted_write, drafted_nap, drafted_tick; assumption.
Qed.

Lemma counted_loop_drafts (count : nat) (f : nat -> frame)
    (P : completion unit -> Conn -> Prop) (F : list frame) s :
  (forall s', drafted (F ++ map f (seq 0 count)) s' -> P (Normal tt) s') ->
  (forall s', unended (log s') -> P Return s') ->
  drafted F s ->
  wp (for_upto count 0 (fun i =>
        d <- getTokenDelay config ;;
        sleep d ;;
        return_if_destroyed ;;
        res_write (f i))) P w s.
Proof.
  intros HN HR Hs.
  apply (wp_for_upto w (fun i s' => drafted (F ++ map f (seq 0 i)) s'));
    [| exact HN | simpl; rewrite app_nil_r; exact Hs].
  intros i s' _ H.
  wp_steps.
  assert (H' : drafted (F ++ map f (seq 0 i)) (nap w d (tick 1 s')))
    by (apply drafted_nap, drafted_tick; assumption).
  apply wp_return_if_destroyed; intros D.
  - apply HR. apply H'.
  - wp_steps. rewrite seq_S, map_app, app_assoc. simpl.
    apply drafted_write. exact H'.
Qed.

Variable s : Conn.
Hypothesis Hlog : log s = [].

Lemma start_drafted : drafted [] s.
Proof. split; now rewrite Hlog. Qed.

Lemma OpenAI_stream_outcome (p : OpenAI.Params) :
  wp (OpenAI.sendStreaming config p)
     (fun c s' => exists callId, ended_as (OpenAI_frames p callId) c s') w s.
Proof.
  pose proof start_drafted as W0.
  unfold OpenAI.sendStreaming, OpenAI_frames.
  do 10 wp_step.
  match goal with |- wp _ _ _ ?st =>
    assert (W1 : drafted ([] ++ [Data (OpenAI.roleChunk p)]) st) by
      (apply drafted_nap, drafted_tick, drafted_write, drafted_head, drafted_tick;
       assumption)
  end.
  destruct (OpenAI.toolCall_ p) as [tc|].
  - wp_steps.
    eapply unchecked_loop_drafts; [| apply drafted_write, drafted_tick; exact W1].
    intros s' W2. wp_steps. eexists.
    eapply ended_as_end; [apply drafted_write, drafted_write; exact W2 | frames_eq].
  - wp_steps.
    eapply checked_loop_drafts; [ | | exact W1].
    + intros s' W2. wp_steps. exists [].
      eapply ended_as_end; [apply drafted_write, drafted_write; exact W2 | frames_eq].
    + intros s' U. exists []. exact U.
Qed.

Lemma Anthropic_stream_outcome (p : Anthropic.Params) :
  wp (Anthropic.sendStreaming config p)
     (fun c s' => exists toolUseId, ended_as (Anthropic_frames p toolUseId) c s') w s.
Proof.
  pose proof start_drafted as W0.
  unfold Anthropic.sendStreaming, Anthropic_frames, Anthropic.streamText,
    Anthropic.writeSSE.
  do 10 wp_step.
  match goal with |- wp _ _ _ ?st =>
    assert (W1 : drafted ([] ++ [Sse (js "message_start") (Anthropic.messageStart p)]) st) by
      (apply drafted_nap, drafted_tick, drafted_write, drafted_head, drafted_tick;
       assumption)
  end.
  destruct (Anthropic.toolCall_ p) as [tc|].
  - wp_steps.
    eapply checked_loop_drafts; [ | | apply drafted_write; exact W1].
    + intros s' W2. wp_steps.
      eapply checked_loop_drafts;
        [ | | apply drafted_write, drafted_tick, drafted_write; exact W2].
      * intros s'' W3. wp_steps. eexists.
        eapply ended_as_end;
          [apply drafted_write, drafted_write, drafted_write; exact W3 | frames_eq].
      * intros s'' U. exists []. exact U.
    + intros s' U. exists []. exact U.
  - wp_steps.
    eapply checked_loop_drafts; [ | | apply drafted_write; exact W1].
    + intros s' W2. wp_steps. exists [].
      eapply ended_as_end;
        [apply drafted_write, drafted_write, drafted_write; exact W2 | frames_eq].
    + intros s' U. exists []. exact U.
Qed.

Lemma Gemini_stream_outcome (p : Gemini.Params) :
  wp (Gemini.sendStreaming config p) (ended_as (Gemini_frames p)) w s.
Proof.
  pose proof start_drafted as W0.
  unfold Gemini.sendStreaming, Gemini_frames.
  do 6 wp_step.
  match goal with |- wp _ _ _ ?st =>
    assert (W1 : drafted [] st) by
      (apply drafted_nap, drafted_tick, drafted_head; assumption)
  end.
  destruct (Gemini.toolCall_ p) as [tc|] eqn:E.
  - wp_steps.
    eapply ended_as_end; [apply drafted_write; exact W1|].
    simpl. unfold Gemini.document. rewrite E. reflexivity.
  - cbv zeta. wp_step.
    eapply counted_loop_drafts; [ | | exact W1].
    + intros s' W2. wp_steps. eapply ended_as_end; [exact W2 | reflexivity].
    + intros s' U. exact U.
Qed.

End OpenLoops.

Lemma js_index_In {A} (l : list A) (i : Z) (x : A) :
  js_index l i = Some x -> In x l.
Proof.
  unfold js_index. destruct (i <? 0)%Z; [discriminate|]. apply nth_error_In.
Qed.

(** Whatever [Math.random()] returns, a text that the selection hands out
    for a persona of the catalog is one of its variants, so it is not
    empty. *)
Lemma wp_selectContent_sound (w : World) persona body
    (P : completion (option jsstring * option ToolCall.t) -> Conn -> Prop) s :
  (forall p, persona = IsPersona p -> well_formed p = true) ->
  (forall c n,
     (forall content tc, c = Normal (Some content, tc) -> content <> []) ->
     P c (tick n s)) ->
  wp (selectContent persona body) P w s.
Proof.
  intros Hwf HP. unfold wp, selectContent.
  assert (Hne : forall p t, persona = IsPersona p -> In t (responses p) -> t <> []).
  { intros p t Hp Ht. specialize (Hwf p Hp). unfold well_formed in Hwf.
    apply andb_true_iff in Hwf as [Hwf _]. apply andb_true_iff in Hwf as [_ Hwf].
    rewrite forallb_forall in Hwf. specialize (Hwf t Ht).
    destruct t; [discriminate | congruence]. }
  destruct s as [dr sl ds lg].
  destruct (isToolCall persona body && has_toolCalls persona).
  - unfold getToolCall. destruct persona as [p|key].
    + destruct (toolCalls p) as [calls|].
      * apply (HP _ 1%nat). intros content tc [= Hc _].
        unfold or_string in Hc.
        destruct (js_index (responses p) _) as [[|c t]|] eqn:E1 in Hc.
        -- apply (Hne p content eq_refl). eapply js_index_In. exact Hc.
        -- injection Hc as <-. discriminate.
        -- apply (Hne p content eq_refl). eapply js_index_In. exact Hc.
      * apply (HP (Throw _) 0%nat). intros content tc H. discriminate H.
    + apply (HP (Throw _) 0%nat). intros content tc H. discriminate H.
  - unfold getResponse. destruct persona as [p|key].
    + apply (HP _ 1%nat). intros content tc [= Hc _].
      apply (Hne p content eq_refl). eapply js_index_In. exact Hc.
    + apply (HP (Throw _) 1%nat). intros content tc H. discriminate H.
Qed.

Lemma if_ended_unended E s : unended (log s) -> if_ended E s.
Proof.
  intros U l Hl. rewrite Hl in U. unfold unended in U.
  rewrite forallb_app in U. apply andb_true_iff in U as [_ U]. discriminate U.
Qed.

Lemma if_ended_of E F c s : ended_as F c s -> E F -> if_ended E s.
Proof.
  destruct c as [[]| |e]; simpl; intros H HE;
    try (now apply if_ended_unended).
  destruct H as (l0 & Hl0 & U & HF). intros l Hl.
  rewrite Hl0 in Hl. apply app_inj_tail in Hl as [-> _].
  split; [exact U | now rewrite HF].
Qed.

(** Nothing has been written yet. *)
Ltac not_started :=
  apply if_ended_unended; unfold unended; simpl;
  match goal with H : log _ = [] |- _ => rewrite H end; reflexivity.

Section EndedHandlers.

Variable w : World.
Variable body : Body.
Variable config : Config.
Variable s : Conn.
Hypothesis Hlog : log s = [].

Lemma resolvePersona_well_formed p :
  resolvePersona body config = IsPersona p -> well_formed p = true.
Proof. apply getPersona_well_formed. Qed.

Lemma handleChatCompletions_if_ended :
  not_streaming body = false ->
  wp (OpenAI.handleChatCompletions body config)
     (fun _ s' => if_ended openai_ends_once s') w s.
Proof.
  intros Hon. unfold OpenAI.handleChatCompletions. cbv zeta.
  wp_step. apply wp_selectContent_sound; [apply resolvePersona_well_formed|].
  intros [[content tc]| |e] n Hne; cbv beta iota;
    [ | not_started | not_started ].
  wp_steps. apply wp_estimateTokens_of_any.
  intros [[text k]| |e]; cbv beta iota;
    [ | not_started | not_started ].
  rewrite Hon. wp_steps.
  match goal with |- wp (OpenAI.sendStreaming _ ?p) _ _ ?st =>
    eapply wp_conseq; [|apply (@OpenAI_stream_outcome w config st Hlog p)]
  end.
  intros c s' [callId H].
  assert (G : if_ended openai_ends_once s')
    by (eapply if_ended_of; [exact H | apply OpenAI_frames_end_once]).
  destruct c as [[]| |e']; cbv beta iota;
    [apply wp_return; exact G | exact G | exact G].
Qed.

Lemma handleMessages_if_ended :
  not_streaming body = false ->
  wp (Anthropic.handleMessages body config)
     (fun _ s' => if_ended anthropic_ends_once s') w s.
Proof.
  intros Hon. unfold Anthropic.handleMessages. cbv zeta.
  wp_step. apply wp_selectContent_sound; [apply resolvePersona_well_formed|].
  intros [[content tc]| |e] n Hne; cbv beta iota;
    [ | not_started | not_started ].
  wp_steps. apply wp_estimateTokens_of_any.
  intros [[text k]| |e]; cbv beta iota;
    [ | not_started | not_started ].
  rewrite Hon. wp_steps.
  match goal with |- wp (Anthropic.sendStreaming _ ?p) _ _ ?st =>
    eapply wp_conseq; [|apply (@Anthropic_stream_outcome w config st Hlog p)]
  end.
  intros c s' [toolUseId H].
  assert (G : if_ended anthropic_ends_once s')
    by (eapply if_ended_of; [exact H | apply Anthropic_frames_end_once]).
  destruct c as [[]| |e']; cbv beta iota;
    [apply wp_return; exact G | exact G | exact G].
Qed.

End EndedHandlers.

Section EndedGemini.

Variable w : World.
Variable body : Body.
Variable config : Config.
Variable s : Conn.
Hypothesis Hlog : log s = [].

Lemma handleGenerateContent_if_ended (model : jsstring) :
  wp (Gemini.handleGenerateContent body config model true)
     (fun _ s' => if_ended gemini_ends_once s') w s.
Proof.
  unfold Gemini.handleGenerateContent. cbv zeta.
  wp_step.
  apply wp_selectContent_sound; [apply (@resolvePersona_well_formed body config)|].
  intros [[content tc]| |e] n Hne; cbv beta iota;
    [ | not_started | not_started ].
  wp_steps. destruct content as [text|]; [|not_started].
  wp_steps. simpl negb. cbv iota. wp_steps.
  match goal with |- wp (Gemini.sendStreaming _ ?p) _ _ ?st =>
    eapply wp_conseq; [|apply (@Gemini_stream_outcome w config st Hlog p)]
  end.
  intros c s' H.
  assert (G : if_ended gemini_ends_once s').
  { eapply if_ended_of; [exact H|]. apply Gemini_frames_end_once.
    intros _. simpl. eapply Hne. reflexivity. }
  destruct c as [[]| |e']; cbv beta iota;
    [apply wp_return; exact G | exact G | exact G].
Qed.

End EndedGemini.

(** C8. A stream runs to completion when the handler ends the response,
    which is the last thing a streaming function does.  In every world,
    for every streaming request on each of the three providers: if the
    response has been ended, it was ended once, and the frames written
    before it end with exactly one terminal sequence, so no frame follows
    that sequence.  OpenAI: the frames end with one chunk that has an empty
    delta and a finish reason, followed by the line [data: [DONE]\n\n], and
    every frame before has a null finish reason.  Anthropic: the events end
    with one [message_delta] followed by one [message_stop], and neither
    occurs before.  Gemini: the last frame, and only the last, carries
    [usageMetadata] and a [finishReason].  And a stream does run to
    completion when the random source keeps its contract, the peer stays
    connected and the persona hint is not a property name of
    [Object.prototype]. *)
Theorem complete_stream_ends_once (w : World) (provider : Provider)
    (body : Body) (config : Config) :
  stream_off provider body = false ->
  let r := routeToProvider provider body config w fresh in
  (forall l, log (snd r) = l ++ [End None] ->
             unended l /\ ends_once provider (frames l))
  /\ (in_range w -> stays w ->
      is_prototype_key (persona_hint body config) = false ->
      fst r = Normal tt /\ exists l, log (snd r) = l ++ [End None])
  /\ wire DoneLine
     = [100; 97; 116; 97; 58; 32; 91; 68; 79; 78; 69; 93; 10; 10]%N.
Proof.
  intros Hon. cbv zeta. unfold routeToProvider, call.
  split; [|split; [|reflexivity]].
  - destruct provider as [| |model st]; simpl in Hon.
    + pose proof (@handleChatCompletions_if_ended w body config fresh eq_refl Hon) as H.
      unfold wp in H.
      destruct (OpenAI.handleChatCompletions body config w fresh) as [[[]| |e] s'];
        exact H.
    + pose proof (@handleMessages_if_ended w body config fresh eq_refl Hon) as H.
      unfold wp in H.
      destruct (Anthropic.handleMessages body config w fresh) as [[[]| |e] s'];
        exact H.
    + destruct st; [|discriminate].
      pose proof (@handleGenerateContent_if_ended w body config fresh eq_refl model) as H.
      unfold wp in H.
      destruct (Gemini.handleGenerateContent body config model true w fresh)
        as [[[]| |e] s']; exact H.
  - intros Hrange Hstays Hhint.
    destruct provider as [| |model st]; simpl in Hon.
    + pose proof (@handleChatCompletions_streams w body config fresh Hrange Hstays
                    Hhint eq_refl eq_refl Hon) as H.
      unfold wp in H.
      destruct (OpenAI.handleChatCompletions body config w fresh) as [c s'].
      simpl in *. destruct H as [-> (persona & p & id & _ & _ & _ & l & Hl & _)].
      split; [reflexivity|]. exists l. exact Hl.
    + pose proof (@handleMessages_streams w body config fresh Hrange Hstays
                    Hhint eq_refl eq_refl Hon) as H.
      unfold wp in H.
      destruct (Anthropic.handleMessages body config w fresh) as [c s'].
      simpl in *. destruct H as [-> (persona & p & id & _ & _ & _ & l & Hl & _)].
      split; [reflexivity|]. exists l. exact Hl.
    + destruct st; [|discriminate].
      pose proof (@handleGenerateContent_streams w body config fresh Hrange Hstays
                    Hhint eq_refl eq_refl model) as H.
      unfold wp in H.
      destruct (Gemini.handleGenerateContent body config model true w fresh) as [c s'].
      simpl in *. destruct H as [-> (persona & p & _ & _ & _ & l & Hl & _)].
      split; [reflexivity|]. exists l. exact Hl.
Qed.

Lemma complete_stream_ends_once_witness :
  let r := routeToProvider (gemini (js "gemini-pro") true) (request "terse" true)
             DEFAULTS (steady (1 # 2)) fresh in
  fst r = Normal tt
  /\ exists l, log (snd r) = l ++ [End None] /\ gemini_ends_once (frames l).
Proof.
  assert (R : in_range (steady (1 # 2))) by (intros n; simpl; split; lra).
  assert (S : stays (steady (1 # 2))) by (intros n; reflexivity).
  destruct (@complete_stream_ends_once (steady (1 # 2))
              (gemini (js "gemini-pro") true) (request "terse" true) DEFAULTS
              eq_refl) as (H1 & H2 & _).
  destruct (H2 R S eq_refl) as (Hc & l & Hl).
  split; [exact Hc|]. exists l. split; [exact Hl | apply (H1 l Hl)].
Defined.

(* ===================================================================== *)
(** ** The Anthropic stream of the tool-call persona *)
(* ===================================================================== *)

Lemma chunkString_round_trip (text : jsstring) (size : positive) :
  concat (chunkString text size) = text.
Proof.
  funelim (chunkString text size); [reflexivity|].
  simp chunkString. cbn [concat].
  match goal with IH : concat _ = _ |- _ => rewrite IH end.
  apply firstn_skipn.
Qed.





(* ===================================================================== *)
(** * Further properties of the code *)
(* ===================================================================== *)

(** ** The shape of the tokens *)

Lemma tokenize_nil : tokenize [] = [].
Proof. now simp tokenize. Qed.

Lemma tokenize_cons s m rest :
  match_here s = Some (m, rest) -> tokenize s = m :: tokenize rest.
Proof.
  intros Hm. funelim (tokenize s).
  - pose proof e as E. rewrite regex_exec_here in E. rewrite E in Hm.
    injection Hm as <- <-. reflexivity.
  - pose proof e as E. rewrite regex_exec_here in E. congruence.
Qed.

(** Reasoning about [tokenize] follows the matches of the expression. *)
Lemma tokenize_by_match (P : jsstring -> list jsstring -> Prop) :
  P [] [] ->
  (forall s m rest, match_here s = Some (m, rest) ->
                    P rest (tokenize rest) -> P s (m :: tokenize rest)) ->
  forall s, P s (tokenize s).
Proof.
  intros Hnil Hcons s.
  remember (length s) as n eqn:En. revert s En.
  induction n as [n IH] using lt_wf_ind. intros s En.
  destruct s as [|c r]; [rewrite tokenize_nil; exact Hnil|].
  destruct (match_here (c :: r)) as [[m rest]|] eqn:E;
    [|now apply match_here_total in E].
  erewrite tokenize_cons by exact E. apply Hcons; [exact E|].
  apply (IH (length rest)); [|reflexivity].
  subst n. eapply match_here_shorter; eassumption.
Qed.

Lemma space_not_word c : is_space c = true -> is_word c = false.
Proof.
  unfold is_space, is_word. intros H.
  destruct ((65 <=? c) && (c <=? 90) || (97 <=? c) && (c <=? 122)
            || (48 <=? c) && (c <=? 57) || (c =? 95))%N eqn:W; [|reflexivity].
  exfalso.
  repeat (apply orb_true_iff in W as [W|W]);
    repeat (apply andb_true_iff in W as [? W]);
    repeat match goal with
           | H : (_ <=? _)%N = true |- _ => apply N.leb_le in H
           | H : (_ =? _)%N = true |- _ => apply N.eqb_eq in H
           end;
    repeat (apply orb_true_iff in H as [H|H]);
    repeat (apply andb_true_iff in H as [? H]);
    repeat match goal with
           | H : (_ <=? _)%N = true |- _ => apply N.leb_le in H
           | H : (_ =? _)%N = true |- _ => apply N.eqb_eq in H
           end; lia.
Qed.

(** [span] returns the run and what follows it. *)
Lemma span_run p s : forallb p (fst (span p s)) = true.
Proof.
  induction s as [|c r IH]; simpl; [reflexivity|].
  destruct (p c) eqn:E; simpl; [|reflexivity].
  destruct (span p r) as [run rest]; simpl in *. now rewrite E.
Qed.

Lemma span_stops p s :
  match snd (span p s) with
  | [] => True
  | c :: _ => p c = false
  end.
Proof.
  induction s as [|c r IH]; simpl; [exact I|].
  destruct (p c) eqn:E; simpl; [|exact E].
  destruct (span p r) as [run rest]; simpl in *. exact IH.
Qed.

Lemma match_here_shape s m rest :
  match_here s = Some (m, rest) ->
  token_shape m = true
  /\ (is_run is_space m = true -> starts_with is_space rest = false)
  /\ (is_run is_word m = true -> starts_with is_word rest = false).
Proof.
  destruct s as [|c r]; simpl; [discriminate|].
  destruct (is_space c) eqn:S; simpl.
  - pose proof (span_run is_space r) as R.
    pose proof (span_stops is_space r) as T.
    destruct (span is_space r) as [run rest']; simpl in *.
    intros [= <- <-]. unfold token_shape, is_run. simpl. rewrite S, R. simpl.
    split; [reflexivity|]. split.
    + intros _. destruct rest'; [reflexivity | exact T].
    + rewrite (space_not_word c S). discriminate.
  - destruct (is_word c) eqn:W; simpl.
    + pose proof (span_run is_word r) as R.
      pose proof (span_stops is_word r) as T.
      destruct (span is_word r) as [run rest']; simpl in *.
      intros [= <- <-]. unfold token_shape, is_run. simpl. rewrite S, W, R. simpl.
      split; [reflexivity|]. split.
      * discriminate.
      * intros _. destruct rest'; [reflexivity | exact T].
    + intros [= <- <-]. unfold token_shape, is_run. simpl. rewrite S, W. simpl.
      split; [reflexivity|]. split; discriminate.
Qed.

(** The first token of a text starts like the text. *)
Lemma tokenize_head p s :
  starts_with p s = match tokenize s with
                    | t :: _ => starts_with p t
                    | [] => false
                    end.
Proof.
  destruct s as [|c r]; [now rewrite tokenize_nil|].
  destruct (match_here (c :: r)) as [[m rest]|] eqn:E;
    [|now apply match_here_total in E].
  erewrite tokenize_cons by exact E.
  pose proof (match_here_app _ E) as A.
  destruct (match_here_shape _ E) as [Sh _].
  destruct m as [|c' m]; [discriminate Sh|].
  simpl in A. injection A as -> _. reflexivity.
Qed.

Lemma is_run_starts p t : is_run p t = true -> starts_with p t = true.
Proof.
  destruct t as [|c t]; [discriminate|]. unfold is_run. simpl.
  now intros H%andb_true_iff.
Qed.

Lemma tokenize_segments (s : jsstring) : segmentation s (tokenize s).
Proof.
  unfold segmentation.
  apply (tokenize_by_match
           (fun s ts => concat ts = s /\ forallb token_shape ts = true
                        /\ runs_are_maximal ts = true)).
  - repeat split.
  - clear s. intros s m rest E (IH1 & IH2 & IH3).
    destruct (match_here_shape _ E) as (Sh & Sp & Wd).
    split; [simpl; rewrite IH1; now apply match_here_app|].
    split; [simpl; now rewrite Sh, IH2|].
    simpl. destruct (tokenize rest) as [|b ts] eqn:T; [reflexivity|].
    rewrite IH3, andb_true_r.
    pose proof (tokenize_head is_space rest) as Hs.
    pose proof (tokenize_head is_word rest) as Hw.
    rewrite T in Hs, Hw.
    apply andb_true_iff. split; apply negb_true_iff, andb_false_iff.
    + destruct (is_run is_space m) eqn:R; [right | now left].
      specialize (Sp eq_refl). rewrite Sp in Hs.
      destruct (is_run is_space b) eqn:Rb; [|reflexivity].
      apply is_run_starts in Rb. congruence.
    + destruct (is_run is_word m) eqn:R; [right | now left].
      specialize (Wd eq_refl). rewrite Wd in Hw.
      destruct (is_run is_word b) eqn:Rb; [|reflexivity].
      apply is_run_starts in Rb. congruence.
Qed.

(** X1. Every token of [tokenize] is a non-empty run of white space, a
    non-empty run of word characters, or one code unit that is neither; no
    two neighbouring tokens are runs of the same class, so every run is as
    long as the text allows; and there is no token only for the empty
    text. *)
Theorem tokenize_maximal_runs (s : jsstring) :
  forallb token_shape (tokenize s) = true
  /\ runs_are_maximal (tokenize s) = true
  /\ (tokenize s = [] <-> s = []).
Proof.
  destruct (tokenize_segments s) as (Hc & Hs & Hm).
  split; [exact Hs|]. split; [exact Hm|]. split.
  - intros E. rewrite E in Hc. now symmetry.
  - intros ->. apply tokenize_nil.
Qed.

Lemma span_run_app p t rest :
  forallb p t = true -> starts_with p rest = false ->
  span p (t ++ rest) = (t, rest).
Proof.
  intros Ht Hr. induction t as [|c t IH]; simpl.
  - destruct rest as [|d rest]; [reflexivity|]. simpl in *. now rewrite Hr.
  - simpl in Ht. apply andb_true_iff in Ht as [Hc Ht].
    rewrite Hc, (IH Ht). reflexivity.
Qed.

(** A text that starts with a token after which the run cannot go on is
    matched by the expression as that token. *)
Lemma match_here_of_token t rest :
  token_shape t = true ->
  (is_run is_space t = true -> starts_with is_space rest = false) ->
  (is_run is_word t = true -> starts_with is_word rest = false) ->
  match_here (t ++ rest) = Some (t, rest).
Proof.
  unfold token_shape, is_run. intros Sh Sp Wd.
  destruct t as [|c t]; [discriminate Sh|].
  cbn [is_nil negb andb forallb] in Sh, Sp, Wd.
  change ((c :: t) ++ rest) with (c :: (t ++ rest)).
  unfold match_here.
  destruct (is_space c) eqn:S.
  - destruct (forallb is_space t) eqn:R.
    + pose proof (span_run_app is_space t rest R (Sp eq_refl)) as X.
      unfold jsstring, JsString.t, JsString.code_unit in *. now rewrite X.
    + rewrite (space_not_word c S) in Sh. simpl in Sh.
      destruct t; discriminate Sh.
  - destruct (is_word c) eqn:W; simpl.
    + destruct (forallb is_word t) eqn:R.
      * pose proof (span_run_app is_word t rest R (Wd eq_refl)) as X.
        unfold jsstring, JsString.t, JsString.code_unit in *. now rewrite X.
      * simpl in Sh. destruct t; discriminate Sh.
    + simpl in Sh. destruct t; [reflexivity | discriminate Sh].
Qed.

(** A well-shaped token that starts with a code unit of a class is a run of
    that class. *)
Lemma shape_starts_space t :
  token_shape t = true -> starts_with is_space t = true -> is_run is_space t = true.
Proof.
  unfold token_shape, is_run. destruct t as [|c t]; [discriminate|].
  simpl. intros Sh S. rewrite S, (space_not_word c S) in *. simpl in *.
  destruct (forallb is_space t); [reflexivity|]. destruct t; discriminate Sh.
Qed.

Lemma shape_starts_word t :
  token_shape t = true -> starts_with is_word t = true -> is_run is_word t = true.
Proof.
  unfold token_shape, is_run. destruct t as [|c t]; [discriminate|].
  simpl. intros Sh W. rewrite W in *.
  destruct (is_space c) eqn:S; [rewrite (space_not_word c S) in W; discriminate|].
  simpl in *. destruct (forallb is_word t); [reflexivity|].
  destruct t; discriminate Sh.
Qed.

Lemma shape_nonempty t : token_shape t = true -> t <> [].
Proof. destruct t; [discriminate | discriminate]. Qed.

(** X2. [tokenize] is determined by the shape of its result: a list of
    pieces that concatenate to the text, each a run of white space, a run
    of word characters or one other code unit, with no two neighbouring
    runs of the same class, is the list that [tokenize] returns. *)
Theorem segmentation_unique (s : jsstring) (ts : list jsstring) :
  segmentation s ts -> ts = tokenize s.
Proof.
  revert s. induction ts as [|t ts IH]; intros s (Hc & Hs & Hm).
  - simpl in Hc. subst s. now rewrite tokenize_nil.
  - simpl in Hc, Hs. apply andb_true_iff in Hs as [Ht Hs].
    assert (Hrest : segmentation (concat ts) ts).
    { split; [reflexivity|]. split; [exact Hs|].
      simpl in Hm. destruct ts as [|b ts']; [reflexivity|].
      now apply andb_true_iff in Hm as [_ Hm]. }
    assert (Hstart : forall p, starts_with p (concat ts)
                               = match ts with
                                 | b :: _ => starts_with p b
                                 | [] => false
                                 end).
    { intros p. destruct ts as [|b ts']; [reflexivity|].
      simpl in Hs. apply andb_true_iff in Hs as [Hb _].
      destruct b as [|c b]; [discriminate Hb | reflexivity]. }
    assert (E : match_here (t ++ concat ts) = Some (t, concat ts)).
    { apply match_here_of_token; [exact Ht | |]; intros R; rewrite Hstart;
        destruct ts as [|b ts']; try reflexivity;
        simpl in Hm, Hs; apply andb_true_iff in Hs as [Hb _];
        apply andb_true_iff in Hm as [Hm _];
        apply andb_true_iff in Hm as [Hm1 Hm2];
        rewrite R in *; simpl in *.
      - destruct (starts_with is_space b) eqn:B; [|reflexivity].
        rewrite (shape_starts_space b Hb B) in Hm1. discriminate.
      - destruct (starts_with is_word b) eqn:B; [|reflexivity].
        rewrite (shape_starts_word b Hb B) in Hm2. discriminate. }
    subst s. erewrite tokenize_cons by exact E.
    f_equal. apply IH. exact Hrest.
Qed.

Lemma segmentation_unique_witness :
  [js "ab"; js " "; js "c"; js "!"] = tokenize (js "ab c!").
Proof.
  apply segmentation_unique. repeat split; reflexivity.
Defined.

Lemma ends_with_app p a b : b <> [] -> ends_with p (a ++ b) = ends_with p b.
Proof.
  intros Hb. unfold ends_with. rewrite rev_app_distr.
  destruct (rev b) as [|c r] eqn:E; [|reflexivity].
  apply (f_equal (@rev _)) in E. rewrite rev_involutive in E. contradiction.
Qed.

Lemma run_ends_with p t : is_run p t = true -> ends_with p t = true.
Proof.
  unfold is_run, ends_with. intros H. apply andb_true_iff in H as [Hn Ha].
  unfold jsstring, JsString.t, JsString.code_unit in *.
  destruct (rev t) as [|c r] eqn:E.
  - apply (f_equal (@rev _)) in E. rewrite rev_involutive in E. subst t.
    discriminate Hn.
  - simpl. rewrite forallb_forall in Ha. apply Ha. apply in_rev.
    rewrite E. now left.
Qed.

Lemma starts_with_app p a b : a <> [] -> starts_with p (a ++ b) = starts_with p a.
Proof. destruct a; [contradiction | reflexivity]. Qed.

Lemma tokenize_app_separable (a b : jsstring) :
  separable a b = true -> tokenize (a ++ b) = tokenize a ++ tokenize b.
Proof.
  revert b.
  apply (tokenize_by_match
           (fun a ts => forall b, separable a b = true ->
                                  tokenize (a ++ b) = ts ++ tokenize b)).
  - reflexivity.
  - clear a. intros a m rest E IH b Hsep.
    pose proof (match_here_app _ E) as A.
    destruct (match_here_shape _ E) as (Sh & Sp & Wd).
    unfold separable in Hsep. apply andb_true_iff in Hsep as [H1 H2].
    apply negb_true_iff in H1, H2.
    assert (Hrest : separable rest b = true).
    { destruct rest as [|c rest']; [reflexivity|].
      unfold separable. subst a.
      rewrite !ends_with_app in H1, H2 by discriminate.
      now rewrite H1, H2. }
    assert (E' : match_here (m ++ rest ++ b) = Some (m, rest ++ b)).
    { apply match_here_of_token; [exact Sh | |]; intros R.
      - destruct rest as [|c rest'].
        + simpl. rewrite app_nil_r in A. subst a.
          rewrite (run_ends_with is_space m R) in H1. exact H1.
        + rewrite starts_with_app by discriminate. now apply Sp.
      - destruct rest as [|c rest'].
        + simpl. rewrite app_nil_r in A. subst a.
          rewrite (run_ends_with is_word m R) in H2. exact H2.
        + rewrite starts_with_app by discriminate. now apply Wd. }
    rewrite <- A, <- app_assoc. erewrite tokenize_cons by exact E'.
    simpl. f_equal. apply IH. exact Hrest.
Qed.

(** ** The tokens of a concatenation *)

Lemma ends_with_In p t : ends_with p t = true -> exists c, In c t /\ p c = true.
Proof.
  unfold ends_with. unfold jsstring, JsString.t, JsString.code_unit in *.
  destruct (rev t) as [|c r] eqn:E; [discriminate|].
  simpl. intros H. exists c. split; [|exact H].
  apply in_rev. rewrite E. now left.
Qed.

Lemma shape_ends_space t :
  token_shape t = true -> ends_with is_space t = true -> is_run is_space t = true.
Proof.
  intros Sh He. unfold token_shape in Sh.
  destruct (is_run is_space t); [reflexivity|]. exfalso.
  destruct (ends_with_In _ _ He) as (c & Hin & Hc).
  simpl in Sh. apply orb_true_iff in Sh as [Sh|Sh].
  - unfold is_run in Sh. apply andb_true_iff in Sh as [_ Sh].
    rewrite forallb_forall in Sh. specialize (Sh c Hin).
    rewrite (space_not_word c Hc) in Sh. discriminate.
  - destruct t as [|d [|]]; try discriminate Sh.
    destruct Hin as [->|[]]. rewrite Hc in Sh. discriminate.
Qed.

Lemma shape_ends_word t :
  token_shape t = true -> ends_with is_word t = true -> is_run is_word t = true.
Proof.
  intros Sh He. unfold token_shape in Sh.
  destruct (is_run is_word t); [reflexivity|]. exfalso.
  destruct (ends_with_In _ _ He) as (c & Hin & Hc).
  rewrite orb_false_r in Sh. apply orb_true_iff in Sh as [Sh|Sh].
  - unfold is_run in Sh. apply andb_true_iff in Sh as [_ Sh].
    rewrite forallb_forall in Sh. specialize (Sh c Hin).
    rewrite (space_not_word c Sh) in Hc. discriminate.
  - destruct t as [|d [|]]; try discriminate Sh.
    destruct Hin as [->|[]]. rewrite Hc, andb_false_r in Sh. discriminate.
Qed.

(** In a maximal sequence, two neighbours are not runs of the same class,
    wherever they are. *)
Lemma runs_are_maximal_at xs x y ys :
  runs_are_maximal (xs ++ x :: y :: ys) = true ->
  is_run is_space x && is_run is_space y = false
  /\ is_run is_word x && is_run is_word y = false.
Proof.
  induction xs as [|z xs IH]; intros H.
  - simpl in H. apply andb_true_iff in H as [H _].
    apply andb_true_iff in H as [H1 H2].
    now apply negb_true_iff in H1, H2.
  - apply IH.
    change ((z :: xs) ++ x :: y :: ys) with (z :: (xs ++ x :: y :: ys)) in H.
    destruct (xs ++ x :: y :: ys) eqn:E; [now destruct xs|].
    simpl in H. now apply andb_true_iff in H as [_ H].
Qed.

(** The last token of a text ends like the text. *)
Lemma tokenize_last p a :
  ends_with p a = true ->
  exists xs x, tokenize a = xs ++ [x] /\ token_shape x = true
               /\ ends_with p x = true.
Proof.
  intros He.
  destruct (tokenize_segments a) as (Hc & Hs & _).
  destruct (tokenize a) as [|t ts] eqn:T.
  - simpl in Hc. subst a. discriminate He.
  - destruct (@exists_last _ (t :: ts)) as (xs & x & E); [discriminate|].
    rewrite E in *. exists xs, x. split; [reflexivity|].
    rewrite forallb_app in Hs. apply andb_true_iff in Hs as [_ Hs].
    simpl in Hs. rewrite andb_true_r in Hs. split; [exact Hs|].
    rewrite concat_app in Hc. simpl in Hc. rewrite app_nil_r in Hc.
    rewrite <- Hc in He. rewrite ends_with_app in He; [exact He|].
    now apply shape_nonempty.
Qed.

Lemma tokenize_first p b :
  starts_with p b = true ->
  exists y ys, tokenize b = y :: ys /\ token_shape y = true
               /\ starts_with p y = true.
Proof.
  intros Hb. pose proof (tokenize_head p b) as H.
  destruct (tokenize_segments b) as (_ & Hs & _).
  destruct (tokenize b) as [|y ys]; [congruence|].
  exists y, ys. split; [reflexivity|].
  simpl in Hs. apply andb_true_iff in Hs as [Hs _].
  split; [exact Hs | congruence].
Qed.

(** X3. The tokens of a concatenation are the tokens of the parts,
    exactly when the junction is not inside a run: the first text does not
    end and the second start with white space, nor both with word
    characters. *)
Theorem tokenize_app_iff (a b : jsstring) :
  tokenize (a ++ b) = tokenize a ++ tokenize b <-> separable a b = true.
Proof.
  split; [|apply tokenize_app_separable].
  intros E.
  destruct (tokenize_segments (a ++ b)) as (_ & _ & Hm).
  rewrite E in Hm.
  unfold separable. apply andb_true_iff.
  split; apply negb_true_iff, not_true_is_false; intros G;
    apply andb_true_iff in G as [Ga Gb];
    destruct (tokenize_last _ _ Ga) as (xs & x & Ea & Sx & Hx);
    destruct (tokenize_first _ _ Gb) as (y & ys & Eb & Sy & Hy);
    rewrite Ea, Eb, <- app_assoc in Hm; simpl in Hm;
    destruct (runs_are_maximal_at _ _ _ _ Hm) as [M1 M2].
  - rewrite (shape_ends_space x Sx Hx), (shape_starts_space y Sy Hy) in M1.
    discriminate.
  - rewrite (shape_ends_word x Sx Hx), (shape_starts_word y Sy Hy) in M2.
    discriminate.
Qed.

(** ** Identifiers *)

Lemma char_at_floor (r : Q) :
  (0 <= r)%Q -> (r < 1)%Q ->
  exists c, char_at (Math_floor (r * inject_Z (js_length chars))) = [c]
            /\ In c chars.
Proof.
  intros H0 H1.
  assert (Hne : chars <> []) by (intros E; vm_compute in E; discriminate E).
  destruct (js_index_floor Hne H0 H1) as (i & c & Ei & _ & Ec).
  exists c. unfold char_at, js_length. rewrite Ei, js_index_of_nat, Ec.
  split; [reflexivity | eapply nth_error_In; exact Ec].
Qed.

Lemma generateId_loop_format (w : World) (n : nat) (id : jsstring) (s : Conn) :
  in_range w ->
  exists more, generateId_loop n id w s = (Normal (id ++ more), tick n s)
               /\ length more = n /\ Forall (fun c => In c chars) more.
Proof.
  intros Hw. revert id s. induction n as [|n IH]; intros id s.
  - exists []. rewrite app_nil_r. destruct s. repeat split. constructor.
  - destruct (Hw (draws s)) as [H0 H1].
    destruct (char_at_floor H0 H1) as (c & Ec & Hc).
    cbn [generateId_loop]. unfold bind, Math_random. rewrite Ec.
    edestruct IH as (more & E & Hl & Hall). rewrite E.
    exists (c :: more). rewrite <- app_assoc. split.
    + f_equal. unfold tick. simpl. f_equal. lia.
    + split; [simpl; now rewrite Hl | now constructor].
Qed.

(** X4. When the random source stays in [0, 1), [generateId] returns the
    prefix, a dash and exactly 24 characters, each of them one of the 62
    characters of [chars], which are the lower-case letters, the upper-case
    letters and the digits, and draws 24 random numbers. *)
Theorem generateId_format (w : World) (prefix : string) (s : Conn) :
  in_range w ->
  exists id,
    generateId prefix w s = (Normal (js prefix ++ js "-" ++ id), tick 24 s)
    /\ length id = 24%nat
    /\ Forall (fun c => In c chars) id
    /\ forallb is_word id = true.
Proof.
  intros Hw. unfold generateId, bind.
  destruct (generateId_loop_format 24 [] s Hw) as (id & E & Hl & Hall).
  rewrite E. exists id. repeat split; [exact Hl | exact Hall |].
  apply forallb_forall. intros c Hc. rewrite Forall_forall in Hall.
  specialize (Hall c Hc).
  assert (W : forallb is_word chars = true) by (vm_compute; reflexivity).
  rewrite forallb_forall in W. now apply W.
Qed.

Lemma generateId_format_witness :
  exists id,
    generateId "msg" (steady (1 # 2)) fresh
    = (Normal (js "msg" ++ js "-" ++ id), tick 24 fresh)
    /\ length id = 24%nat.
Proof.
  destruct (@generateId_format (steady (1 # 2)) "msg" fresh) as (id & E & L & _).
  - intros n. simpl. split; lra.
  - exists id. split; [exact E | exact L].
Defined.

(** ** The usage estimate *)

(** X5. [estimateTokens] is the length divided by 4 and rounded up: four
    times the estimate is at least the length and less than the length
    plus 4; the estimate is 0 only for the empty text. *)
Theorem estimateTokens_bounds (text : jsstring) :
  let n := Z.of_nat (length text) in
  (n <= 4 * estimateTokens text < n + 4)%Z
  /\ (estimateTokens text = 0%Z <-> text = []).
Proof.
  intros n.
  assert (B : (n <= 4 * estimateTokens text < n + 4)%Z).
  { unfold estimateTokens, Math_ceil, js_length. fold n.
    set (x := (inject_Z n / 4)%Q).
    pose proof (Qle_ceiling x) as Hle.
    pose proof (Qceiling_lt x) as Hlt.
    assert (Ex : (inject_Z n == 4 * x)%Q) by (subst x; field).
    unfold Z.sub in Hlt. rewrite inject_Z_plus in Hlt.
    change (inject_Z (Z.opp 1)) with (Qopp 1) in Hlt.
    split.
    - rewrite Zle_Qle, inject_Z_mult. change (inject_Z 4) with 4%Q.
      rewrite Ex. lra.
    - rewrite Zlt_Qlt, inject_Z_plus, inject_Z_mult.
      change (inject_Z 4) with 4%Q. rewrite Ex. lra. }
  split; [exact B|]. split.
  - intros E. rewrite E in B. destruct text; [reflexivity|].
    subst n. simpl length in B. lia.
  - intros ->. subst n. change (Z.of_nat (length (@nil JsString.code_unit))) with 0%Z in B. lia.
Qed.

(** ** Fragments of a tool call's arguments *)

(** X6. [chunkString] cuts a text into pieces that concatenate to it; no
    piece is empty or longer than the size, all but the last have exactly
    the size, and there are as many as the length divided by the size,
    rounded up. *)
Theorem chunkString_pieces (text : jsstring) (size : positive) :
  let n := Pos.to_nat size in
  let pieces := chunkString text size in
  concat pieces = text
  /\ Forall (fun piece => (1 <= length piece <= n)%nat) pieces
  /\ Forall (fun piece => length piece = n) (removelast pieces)
  /\ (length text <= n * length pieces < length text + n)%nat.
Proof.
  cbv zeta. funelim (chunkString text size).
  - simpl. repeat split; try constructor; lia.
  - simp chunkString.
    destruct H as (IH1 & IH2 & IH3 & IH4).
    set (n := Pos.to_nat size) in *.
    assert (Hn : (0 < n)%nat) by (subst n; lia).
    set (s := c :: r) in *.
    assert (Hs : (0 < length s)%nat) by (subst s; simpl; lia).
    pose proof (firstn_skipn n s) as FS.
    pose proof (length_firstn n s) as LF.
    pose proof (length_skipn n s) as LS.
    split; [cbn [concat]; now rewrite IH1|].
    split; [constructor; [lia | exact IH2]|].
    split.
    + destruct (chunkString (skipn n s) size) as [|q qs] eqn:E.
      * constructor.
      * cbn [removelast]. constructor; [|exact IH3].
        destruct (Nat.le_gt_cases n (length s)) as [G|G]; [lia|].
        exfalso. rewrite skipn_all2 in E by lia.
        simp chunkString in E. discriminate E.
    + cbn [length]. rewrite Nat.mul_succ_r.
      destruct (Nat.le_gt_cases n (length s)) as [G|G]; [lia|].
      rewrite skipn_all2 in IH4 |- * by lia.
      simp chunkString in IH4 |- *. simpl in *. lia.
Qed.

(** ** The persona catalog and its pickers *)

Lemma js_index_floor_zero {A} (l : list A) (r : Q) :
  l = [] -> js_index l (Math_floor (r * inject_Z (Z.of_nat (length l)))) = None.
Proof.
  intros ->. simpl. unfold js_index.
  destruct (Math_floor (r * inject_Z 0) <? 0)%Z; [reflexivity|].
  now destruct (Z.to_nat _).
Qed.

(** X7. With one random number in [0, 1), [getResponse] returns one of
    the responses of the persona, whenever it has some; for a persona
    without responses it returns [undefined].  Either way it draws once. *)
Theorem getResponse_member (w : World) (p : Persona) (s : Conn) :
  let r := random w (draws s) in
  (responses p <> [] -> (0 <= r)%Q -> (r < 1)%Q ->
   exists text, getResponse (IsPersona p) w s = (Normal (Some text), tick 1 s)
                /\ In text (responses p))
  /\ (responses p = [] ->
      getResponse (IsPersona p) w s = (Normal None, tick 1 s)).
Proof.
  intros r. unfold getResponse, bind, Math_random. cbn [fst snd]. split.
  - intros Hne H0 H1.
    destruct (js_index_floor Hne H0 H1) as (i & t & Ei & _ & Et).
    fold r. rewrite Ei, js_index_of_nat, Et.
    exists t. split; [reflexivity | eapply nth_error_In; exact Et].
  - intros E. fold r. now rewrite (js_index_floor_zero r E).
Qed.

Lemma getResponse_member_witness :
  exists text,
    getResponse (IsPersona Catalog.terse) (steady (1 # 2)) fresh
    = (Normal (Some text), tick 1 fresh)
    /\ In text (responses Catalog.terse).
Proof.
  destruct (@getResponse_member (steady (1 # 2)) Catalog.terse fresh) as [H _].
  apply H.
  - discriminate.
  - simpl. lra.
  - simpl. lra.
Defined.

(** X8. [getToolCall] returns [null] without a draw for a persona that
    has no tool calls.  Otherwise, with one random number in [0, 1), it
    picks an index into the tool calls and returns the call at that index
    together with the response at the same index or, when that one is
    missing or empty, the first response. *)
Theorem getToolCall_pick (w : World) (p : Persona) (s : Conn) :
  let r := random w (draws s) in
  (toolCalls p = None -> getToolCall (IsPersona p) w s = (Normal None, s))
  /\ (forall calls,
        toolCalls p = Some calls -> calls <> [] -> (0 <= r)%Q -> (r < 1)%Q ->
        exists i call,
          nth_error calls i = Some call
          /\ getToolCall (IsPersona p) w s
             = (Normal (Some {| toolCall := Some call;
                                response :=
                                  match nth_error (responses p) i with
                                  | Some (c :: text) => Some (c :: text)
                                  | _ => nth_error (responses p) 0
                                  end |}), tick 1 s)).
Proof.
  intros r. unfold getToolCall. split.
  - intros ->. reflexivity.
  - intros calls -> Hne H0 H1.
    destruct (js_index_floor Hne H0 H1) as (i & call & Ei & _ & Ecall).
    exists i, call. split; [exact Ecall|].
    unfold bind, Math_random. cbn [fst snd]. fold r.
    rewrite Ei, !js_index_of_nat, Ecall.
    change 0%Z with (Z.of_nat 0). rewrite js_index_of_nat.
    unfold or_string. destruct (nth_error (responses p) i) as [[|c t]|]; reflexivity.
Qed.

Lemma getToolCall_pick_witness :
  exists i call,
    nth_error tool_calls_toolCalls i = Some call
    /\ getToolCall (IsPersona Catalog.tool_calls) (steady (1 # 2)) fresh
       = (Normal (Some {| toolCall := Some call;
                          response :=
                            match nth_error (responses Catalog.tool_calls) i with
                            | Some (c :: text) => Some (c :: text)
                            | _ => nth_error (responses Catalog.tool_calls) 0
                            end |}), tick 1 fresh).
Proof.
  destruct (@getToolCall_pick (steady (1 # 2)) Catalog.tool_calls fresh) as [_ H].
  apply (H tool_calls_toolCalls eq_refl).
  - discriminate.
  - simpl. lra.
  - simpl. lra.
Defined.

Lemma personas_named :
  forallb (fun kp => JsString.eqb (fst kp) (name (snd kp))) personas = true.
Proof. vm_compute. reflexivity. Qed.

Lemma personas_keys_unique (k : jsstring) (p : Persona) :
  In (k, p) personas -> assoc k personas = Some p.
Proof.
  unfold personas. simpl.
  intros H. repeat (destruct H as [H|H]; [injection H as <- <-; reflexivity|]).
  destruct H.
Qed.

(** X9. [listPersonas] lists exactly the personas that [getPersona]
    resolves under their own name: a name and a description are listed if
    and only if [getPersona] of the name is a persona with that name and
    that description. *)
Theorem listPersonas_resolve (nm d : jsstring) :
  In (nm, d) listPersonas
  <-> exists p, getPersona nm = IsPersona p /\ name p = nm /\ description p = d.
Proof.
  pose proof personas_named as N. rewrite forallb_forall in N.
  split.
  - unfold listPersonas. intros H. apply in_map_iff in H as ([k p] & E & Hin).
    simpl in E. injection E as -> <-.
    exists p. specialize (N _ Hin). simpl in N. apply jsstring_eqb_eq in N.
    unfold getPersona, js_get. rewrite (personas_keys_unique Hin).
    repeat split. now symmetry.
  - intros (p & Hp & Hn & Hd). unfold getPersona, js_get in Hp.
    destruct (assoc nm personas) as [q|] eqn:E.
    + injection Hp as ->. apply assoc_In in E.
      unfold listPersonas. apply in_map_iff. exists (nm, p). split; [|exact E].
      simpl. now rewrite Hd.
    + destruct (existsb (JsString.eqb nm) object_prototype_keys); [discriminate|].
      injection Hp as <-. simpl in Hn. subst nm. vm_compute in E. discriminate E.
Qed.

(** ** Fault payloads *)

Lemma assoc_errors (type : jsstring) :
  assoc type errors = Some errors_rate_limit
  \/ assoc type errors = Some errors_server_error
  \/ assoc type errors = Some errors_context_length
  \/ assoc type errors = Some errors_timeout
  \/ assoc type errors = None.
Proof.
  unfold errors, assoc.
  destruct (JsString.eqb type (js "rate_limit")); [now left|].
  destruct (JsString.eqb type (js "server_error")); [now right; left|].
  destruct (JsString.eqb type (js "context_length")); [now right; right; left|].
  destruct (JsString.eqb type (js "timeout")); [now right; right; right; left|].
  now right; right; right; right.
Qed.

(** X10. For each of the three providers and every kind that is not a
    name inherited from [Object.prototype], [getChaosResponse] returns a
    payload with an HTTP error status, an error message that is not empty
    and the [retry-after] header exactly when the status is 429; for a
    kind that is not in the table it is the server error of the provider;
    and the body of a Gemini payload repeats the status as its code. *)
Theorem getChaosResponse_known_provider
    (engine : jsstring -> jsstring -> probe) (type : jsstring)
    (provider : Provider) :
  is_prototype_key type = false ->
  exists r,
    getChaosResponse engine type (Some (provider_name provider))
    = Normal (Payload r)
    /\ fault_shaped r = true
    /\ (assoc type errors = None ->
        assoc (provider_name provider) errors_server_error = Some r)
    /\ (provider_name provider = js "gemini" ->
        error_code (body r) = Some (JNum (status r))).
Proof.
  intros Ht.
  assert (Hp : is_prototype_key (provider_name provider) = false)
    by (destruct provider; vm_compute; reflexivity).
  rewrite (getChaosResponse_payload engine _ _ Ht Hp).
  eexists. split; [reflexivity|].
  destruct (assoc_errors type) as [E|[E|[E|[E|E]]]]; rewrite E;
    destruct provider as [| |m st];
    (split; [vm_compute; reflexivity|]);
    (split; [intros H; first [discriminate H | vm_compute; reflexivity]|]);
    intros H; first [vm_compute in H; discriminate H | vm_compute; reflexivity].
Qed.

Lemma getChaosResponse_known_provider_witness :
  exists r,
    getChaosResponse (fun _ _ => ProbeFalsy) (js "timeout") (Some (js "gemini"))
    = Normal (Payload r)
    /\ fault_shaped r = true
    /\ error_code (body r) = Some (JNum (status r)).
Proof.
  destruct (@getChaosResponse_known_provider (fun _ _ => ProbeFalsy)
              (js "timeout") (gemini (js "gemini-pro") false) eq_refl)
    as (r & E & S & _ & C).
  exists r. split; [exact E|]. split; [exact S|]. apply C. reflexivity.
Defined.

(** ** The fault answer of the listener *)

(** X11. With chaos enabled and the random number of the decision in the
    rate-limit or the error band, the listener draws nothing else, waits for
    nothing, and answers with one head and one compact JSON body, those of
    the fault payload: status 429 in the first band, 500 in the second,
    with [Content-Type] followed by the headers of the payload. *)
Theorem chaos_fault_answer (w : World) (provider : Provider) (body : Body)
    (config : Config) :
  let c := chaos config in
  let r := random w 0 in
  enabled c = true ->
  (r < rateLimitRate c \/ r < rateLimitRate c + errorRate c)%Q ->
  exists payload,
    serve provider body config w
    = (Normal tt,
       {| draws := 1; sleeps := 0; destroyed := false;
          log := [ WriteHead (status payload)
                     (json_headers ++ match headers payload with
                                      | Some h => h
                                      | None => []
                                      end);
                   End (Some (Compact (ChaosResponse_body payload))) ] |})
    /\ fault_shaped payload = true
    /\ status payload = (if ltb r (rateLimitRate c) then 429 else 500)%Z.
Proof.
  intros c r Hon Hband.
  assert (Hb : chaosBand c r
               = Some (if ltb r (rateLimitRate c)
                       then js "rate_limit" else js "server_error")).
  { unfold chaosBand. destruct (ltb r (rateLimitRate c)) eqn:E1; [reflexivity|].
    apply ltb_ge in E1.
    destruct (ltb r (rateLimitRate c + errorRate c)) eqn:E2; [reflexivity|].
    apply ltb_ge in E2. destruct Hband; lra. }
  unfold serve, call, requestListener, bind, shouldTriggerChaos.
  fold c. rewrite Hon. cbn [negb]. unfold bind, Math_random, ret.
  cbn [fst snd draws fresh]. fold r. rewrite Hb.
  destruct chaos_names_eqb as (N1 & N2 & _).
  destruct (ltb r (rateLimitRate c)); [rewrite N1 | rewrite N2];
    destruct provider as [| |m st];
    eexists; (split; [reflexivity|]); split; vm_compute; reflexivity.
Qed.

Lemma chaos_fault_answer_witness :
  exists payload s,
    serve anthropic (request "constructor" true) chaos_on (steady (1 # 100))
    = (Normal tt, s)
    /\ log s = [ WriteHead (status payload)
                   (json_headers ++ match headers payload with
                                    | Some h => h
                                    | None => []
                                    end);
                 End (Some (Compact (ChaosResponse_body payload))) ]
    /\ status payload = 429%Z.
Proof.
  destruct (@chaos_fault_answer (steady (1 # 100)) anthropic
              (request "constructor" true) chaos_on eq_refl)
    as (payload & E & _ & S).
  - left. simpl. lra.
  - exists payload. eexists. split; [exact E|]. split; [reflexivity | exact S].
Defined.

(** ** Two runs that differ in their waits only *)

Section Alike.

Variable w : World.
Variable longer : Z -> Z -> Prop.

Lemma sim_ret {A} (a : A) : sim w longer (ret a) (ret a).
Proof. intros s1 s2 H. split; [reflexivity | exact H]. Qed.

Lemma sim_return {A} : sim w longer (@return_ A) return_.
Proof. intros s1 s2 H. split; [reflexivity | exact H]. Qed.

Lemma sim_throw {A} msg : sim w longer (@throw A msg) (throw msg).
Proof. intros s1 s2 H. split; [reflexivity | exact H]. Qed.

Lemma sim_bind {A B} (m1 m2 : M A) (k1 k2 : A -> M B) :
  sim w longer m1 m2 -> (forall a, sim w longer (k1 a) (k2 a)) ->
  sim w longer (bind m1 k1) (bind m2 k2).
Proof.
  intros Hm Hk s1 s2 H. unfold bind.
  destruct (Hm s1 s2 H) as [Hc Hs].
  destruct (m1 w s1) as [c1 t1], (m2 w s2) as [c2 t2]. simpl in Hc, Hs.
  subst c2. destruct c1 as [a| |e]; [apply Hk; exact Hs | |];
    (split; [reflexivity | exact Hs]).
Qed.

Lemma sim_call (m1 m2 : M unit) :
  sim w longer m1 m2 -> sim w longer (call m1) (call m2).
Proof.
  intros Hm s1 s2 H. unfold call.
  destruct (Hm s1 s2 H) as [Hc Hs].
  destruct (m1 w s1) as [c1 t1], (m2 w s2) as [c2 t2]. simpl in Hc, Hs.
  subst c2. destruct c1 as [a| |e]; (split; [reflexivity | exact Hs]).
Qed.

Lemma conn_like_event e1 e2 s1 s2 :
  event_like longer e1 e2 -> conn_like longer s1 s2 ->
  conn_like longer (say e1 s1) (say e2 s2).
Proof.
  intros He (D & S & G & L). repeat split; try assumption. simpl.
  apply Forall2_app; [exact L | now constructor].
Qed.

Lemma sim_emit (e : event) : is_sleep e = false -> sim w longer (emit e) (emit e).
Proof.
  intros He s1 s2 H. split; [reflexivity|].
  apply conn_like_event; [|exact H]. destruct e; [reflexivity.. | discriminate He].
Qed.

Lemma sim_random : sim w longer Math_random Math_random.
Proof.
  intros s1 s2 (D & S & G & L). unfold Math_random. simpl. rewrite D.
  split; [reflexivity|]. repeat split; simpl; congruence.
Qed.

Lemma sim_now : sim w longer Date_now Date_now.
Proof. intros s1 s2 H. split; [reflexivity | exact H]. Qed.

Lemma sim_return_if_destroyed : sim w longer return_if_destroyed return_if_destroyed.
Proof.
  intros s1 s2 H. pose proof H as (D & S & G & L).
  unfold return_if_destroyed, bind, res_destroyed. simpl. rewrite G.
  destruct (destroyed s2); (split; [reflexivity | exact H]).
Qed.

Lemma sim_sleep d1 d2 : longer d1 d2 -> sim w longer (sleep d1) (sleep d2).
Proof.
  intros Hd s1 s2 (D & S & G & L). split; [reflexivity|].
  unfold sleep. repeat split; simpl; try congruence.
  apply Forall2_app; [exact L | now constructor].
Qed.

Lemma sim_generateId_loop n id : sim w longer (generateId_loop n id) (generateId_loop n id).
Proof.
  revert id. induction n as [|n IH]; intros id; [apply sim_ret|].
  simpl. apply sim_bind; [apply sim_random | intros r; apply IH].
Qed.

Lemma sim_generateId prefix : sim w longer (generateId prefix) (generateId prefix).
Proof.
  unfold generateId. apply sim_bind; [apply sim_generateId_loop|].
  intros id. apply sim_ret.
Qed.

Lemma sim_for_of {A} (xs : list A) (body1 body2 : A -> M unit) :
  (forall x, sim w longer (body1 x) (body2 x)) ->
  sim w longer (for_of xs body1) (for_of xs body2).
Proof.
  intros H. induction xs as [|x xs IH]; [apply sim_ret|].
  simpl. apply sim_bind; [apply H | intros _; exact IH].
Qed.

Lemma sim_for_upto (count start : nat) (body1 body2 : nat -> M unit) :
  (forall i, sim w longer (body1 i) (body2 i)) ->
  sim w longer (for_upto count start body1) (for_upto count start body2).
Proof.
  intros H. revert start. induction count as [|n IH]; intros start;
    [apply sim_ret|].
  simpl. apply sim_bind; [apply H | intros _; apply IH].
Qed.

Lemma sim_getResponse persona : sim w longer (getResponse persona) (getResponse persona).
Proof.
  unfold getResponse. apply sim_bind; [apply sim_random|].
  intros r. destruct persona; [apply sim_ret | apply sim_throw].
Qed.

Lemma sim_getToolCall persona : sim w longer (getToolCall persona) (getToolCall persona).
Proof.
  unfold getToolCall. destruct persona as [p|key]; [|apply sim_ret].
  destruct (toolCalls p); [|apply sim_ret].
  apply sim_bind; [apply sim_random | intros r; apply sim_ret].
Qed.

Lemma sim_selectContent persona body :
  sim w longer (selectContent persona body) (selectContent persona body).
Proof.
  unfold selectContent.
  destruct (isToolCall persona body && has_toolCalls persona).
  - apply sim_bind; [apply sim_getToolCall|].
    intros [pick|]; [apply sim_ret | apply sim_throw].
  - apply sim_bind; [apply sim_getResponse | intros c; apply sim_ret].
Qed.

Lemma sim_estimateTokens_of content :
  sim w longer (estimateTokens_of content) (estimateTokens_of content).
Proof. destruct content; [apply sim_ret | apply sim_throw]. Qed.

Variables c1 c2 : Config.

Hypothesis Hfirst : forall n,
  longer (delay 50 (firstToken (latency c1)) (variance (latency c1)) (random w n))
         (delay 50 (firstToken (latency c2)) (variance (latency c2)) (random w n)).

Hypothesis Htoken : forall n,
  longer (delay 5 (perToken (latency c1)) (variance (latency c1)) (random w n))
         (delay 5 (perToken (latency c2)) (variance (latency c2)) (random w n)).

Hypothesis Hdefaults : defaults c1 = defaults c2.

Lemma sim_first_wait {B} (k1 k2 : M B) :
  sim w longer k1 k2 ->
  sim w longer (d <- getFirstTokenDelay c1 ;; sleep d ;; k1)
               (d <- getFirstTokenDelay c2 ;; sleep d ;; k2).
Proof.
  intros Hk s1 s2 H. pose proof H as (D & _).
  unfold getFirstTokenDelay.
  change (fst ((sleep (delay 50 (firstToken (latency c1)) (variance (latency c1))
                         (random w (draws s1))) ;; k1) w (tick 1 s1))
          = fst ((sleep (delay 50 (firstToken (latency c2)) (variance (latency c2))
                           (random w (draws s2))) ;; k2) w (tick 1 s2))
          /\ conn_like longer
               (snd ((sleep (delay 50 (firstToken (latency c1)) (variance (latency c1))
                               (random w (draws s1))) ;; k1) w (tick 1 s1)))
               (snd ((sleep (delay 50 (firstToken (latency c2)) (variance (latency c2))
                               (random w (draws s2))) ;; k2) w (tick 1 s2)))).
  rewrite D. apply sim_bind; [apply sim_sleep, Hfirst | intros _; exact Hk |].
  destruct H as (D' & S & G & L). repeat split; simpl; congruence.
Qed.

Lemma sim_token_wait {B} (k1 k2 : M B) :
  sim w longer k1 k2 ->
  sim w longer (d <- getTokenDelay c1 ;; sleep d ;; k1)
               (d <- getTokenDelay c2 ;; sleep d ;; k2).
Proof.
  intros Hk s1 s2 H. pose proof H as (D & _).
  unfold getTokenDelay.
  change (fst ((sleep (delay 5 (perToken (latency c1)) (variance (latency c1))
                         (random w (draws s1))) ;; k1) w (tick 1 s1))
          = fst ((sleep (delay 5 (perToken (latency c2)) (variance (latency c2))
                           (random w (draws s2))) ;; k2) w (tick 1 s2))
          /\ conn_like longer
               (snd ((sleep (delay 5 (perToken (latency c1)) (variance (latency c1))
                               (random w (draws s1))) ;; k1) w (tick 1 s1)))
               (snd ((sleep (delay 5 (perToken (latency c2)) (variance (latency c2))
                               (random w (draws s2))) ;; k2) w (tick 1 s2)))).
  rewrite D. apply sim_bind; [apply sim_sleep, Htoken | intros _; exact Hk |].
  destruct H as (D' & S & G & L). repeat split; simpl; congruence.
Qed.

End Alike.

Ltac sim_step :=
  lazymatch goal with
  | |- sim _ _ (bind (getFirstTokenDelay _) _) _ =>
    apply sim_first_wait; [assumption|]
  | |- sim _ _ (bind (getTokenDelay _) _) _ =>
    apply sim_token_wait; [assumption|]
  | |- sim _ _ (bind _ _) _ => apply sim_bind; [|intros ?]
  | |- sim _ _ (ret _) _ => apply sim_ret
  | |- sim _ _ return_ _ => apply sim_return
  | |- sim _ _ (call _) _ => apply sim_call
  | |- sim _ _ (res_write _) _ => apply sim_emit; reflexivity
  | |- sim _ _ (Anthropic.writeSSE _ _) _ => apply sim_emit; reflexivity
  | |- sim _ _ (res_writeHead _ _) _ => apply sim_emit; reflexivity
  | |- sim _ _ (res_end _) _ => apply sim_emit; reflexivity
  | |- sim _ _ (generateId _) _ => apply sim_generateId
  | |- sim _ _ Date_now _ => apply sim_now
  | |- sim _ _ return_if_destroyed _ => apply sim_return_if_destroyed
  | |- sim _ _ (for_of _ _) _ => apply sim_for_of; intros ?
  | |- sim _ _ (for_upto _ _ _) _ => apply sim_for_upto; intros ?
  | |- sim _ _ (selectContent _ _) _ => apply sim_selectContent
  | |- sim _ _ (estimateTokens_of _) _ => apply sim_estimateTokens_of
  end.

Section AlikeHandlers.

Variable w : World.
Variable longer : Z -> Z -> Prop.
Variables c1 c2 : Config.

Hypothesis Hfirst : forall n,
  longer (delay 50 (firstToken (latency c1)) (variance (latency c1)) (random w n))
         (delay 50 (firstToken (latency c2)) (variance (latency c2)) (random w n)).

Hypothesis Htoken : forall n,
  longer (delay 5 (perToken (latency c1)) (variance (latency c1)) (random w n))
         (delay 5 (perToken (latency c2)) (variance (latency c2)) (random w n)).

Hypothesis Hdefaults : defaults c1 = defaults c2.

Lemma sim_OpenAI_sendStreaming p :
  sim w longer (OpenAI.sendStreaming c1 p) (OpenAI.sendStreaming c2 p).
Proof.
  unfold OpenAI.sendStreaming. do 4 sim_step.
  destruct (OpenAI.toolCall_ p); repeat sim_step.
Qed.

Lemma sim_Anthropic_sendStreaming p :
  sim w longer (Anthropic.sendStreaming c1 p) (Anthropic.sendStreaming c2 p).
Proof.
  unfold Anthropic.sendStreaming, Anthropic.streamText. do 4 sim_step.
  destruct (Anthropic.toolCall_ p); repeat sim_step.
Qed.

Lemma sim_Gemini_sendStreaming p :
  sim w longer (Gemini.sendStreaming c1 p) (Gemini.sendStreaming c2 p).
Proof.
  unfold Gemini.sendStreaming. do 2 sim_step.
  destruct (Gemini.toolCall_ p); cbv zeta; repeat sim_step.
Qed.

Lemma resolvePersona_defaults body : resolvePersona body c1 = resolvePersona body c2.
Proof. unfold resolvePersona, persona_hint. now rewrite Hdefaults. Qed.

Lemma sim_OpenAI_sendNonStreaming p :
  sim w longer (OpenAI.sendNonStreaming p) (OpenAI.sendNonStreaming p).
Proof.
  unfold OpenAI.sendNonStreaming.
  apply sim_bind; [destruct (OpenAI.toolCall_ p) | intros message];
    repeat sim_step.
Qed.

Lemma sim_Anthropic_sendNonStreaming p :
  sim w longer (Anthropic.sendNonStreaming p) (Anthropic.sendNonStreaming p).
Proof.
  unfold Anthropic.sendNonStreaming.
  apply sim_bind; [destruct (Anthropic.toolCall_ p) | intros blocks];
    repeat sim_step.
Qed.

Lemma sim_Gemini_sendNonStreaming p :
  sim w longer (Gemini.sendNonStreaming p) (Gemini.sendNonStreaming p).
Proof. unfold Gemini.sendNonStreaming. repeat sim_step. Qed.

Lemma sim_routeToProvider provider body :
  sim w longer (routeToProvider provider body c1) (routeToProvider provider body c2).
Proof.
  destruct provider as [| |m st]; unfold routeToProvider; apply sim_call.
  - unfold OpenAI.handleChatCompletions. cbv zeta.
    rewrite resolvePersona_defaults.
    apply sim_bind; [apply sim_selectContent | intros [content tc]].
    apply sim_bind; [apply sim_generateId | intros completionId].
    apply sim_bind; [apply sim_now | intros ms].
    apply sim_bind; [apply sim_estimateTokens_of | intros [text k]].
    destruct (not_streaming body);
      (apply sim_bind; [apply sim_call | intros _; apply sim_return]).
    + apply sim_OpenAI_sendNonStreaming.
    + apply sim_OpenAI_sendStreaming.
  - unfold Anthropic.handleMessages. cbv zeta.
    rewrite resolvePersona_defaults.
    apply sim_bind; [apply sim_selectContent | intros [content tc]].
    apply sim_bind; [apply sim_generateId | intros messageId].
    apply sim_bind; [apply sim_estimateTokens_of | intros [text k]].
    destruct (not_streaming body);
      (apply sim_bind; [apply sim_call | intros _; apply sim_return]).
    + apply sim_Anthropic_sendNonStreaming.
    + apply sim_Anthropic_sendStreaming.
  - unfold Gemini.handleGenerateContent. cbv zeta.
    rewrite resolvePersona_defaults.
    apply sim_bind; [apply sim_selectContent | intros [content tc]].
    apply sim_bind; [apply sim_estimateTokens_of | intros [text k]].
    destruct st; simpl negb; cbv iota;
      (apply sim_bind; [apply sim_call | intros _; apply sim_return]).
    + apply sim_Gemini_sendStreaming.
    + apply sim_Gemini_sendNonStreaming.
Qed.

End AlikeHandlers.

(** The delay is monotone in the base it is computed from. *)
Lemma delay_scaled (floor : Z) (base v m r : Q) :
  (0 <= base)%Q -> (1 <= m)%Q -> (0 <= v)%Q -> (v <= 1)%Q ->
  (0 <= r)%Q -> (r <= 1)%Q ->
  (delay floor base v r <= delay floor (base * m) v r)%Z.
Proof.
  intros Hb Hm Hv0 Hv1 Hr0 Hr1. unfold delay, Math_max, Math_round.
  apply Z.max_le_compat_l. apply Qfloor_resp_le.
  unfold jittered.
  assert (J : (0 <= 1 + (r * 2 - 1) * v)%Q) by nra.
  assert (BJ : (0 <= base * (1 + (r * 2 - 1) * v))%Q) by nra.
  assert (M : (0 <= m - 1)%Q) by lra.
  assert (P : (0 <= base * (1 + (r * 2 - 1) * v) * (m - 1))%Q) by nra.
  lra.
Qed.

(** X12. A slowdown changes the waits and nothing else.  With chaos
    enabled and the random number of the decision in the slowdown band,
    the exchange ends as the exchange without chaos does on the random
    numbers that follow, with the same head, frames and end, the same
    number of draws and as many waits; and when the multiplier is at least
    1 and the latency is not negative with a variance of at most 1, no
    wait is shorter. *)
Theorem slowdown_only_waits (w : World) (provider : Provider) (body : Body)
    (config : Config) :
  let c := chaos config in
  enabled c = true ->
  chaosBand c (random w 0) = Some (js "slowdown") ->
  let slow := serve provider body config w in
  let plain := call (routeToProvider provider body config) w (tick 1 fresh) in
  fst slow = fst plain
  /\ conn_like (fun _ _ => True) (snd slow) (snd plain)
  /\ (in_range w -> (1 <= slowdownMultiplier c)%Q ->
      (0 <= firstToken (latency config))%Q ->
      (0 <= perToken (latency config))%Q ->
      (0 <= variance (latency config))%Q ->
      (variance (latency config) <= 1)%Q ->
      conn_like (fun slowed usual => (usual <= slowed)%Z) (snd slow) (snd plain)).
Proof.
  intros c Hon Hband slow plain.
  assert (Hstart : forall longer, conn_like longer (tick 1 fresh) (tick 1 fresh)).
  { intros longer. repeat split. constructor. }
  assert (E : slow = call (routeToProvider provider body (slowConfig config)) w
                       (tick 1 fresh)).
  { subst slow. unfold serve, requestListener, shouldTriggerChaos.
    fold c. rewrite Hon. cbn [negb]. unfold call at 1. unfold bind at 1.
    unfold bind at 1. unfold Math_random, ret. cbn [fst snd draws fresh].
    rewrite Hband.
    destruct chaos_names_eqb as (_ & _ & N). rewrite N.
    unfold bind, call, return_, tick. cbn [draws sleeps destroyed log fresh].
    destruct (routeToProvider provider body (slowConfig config) w _)
      as [[[]| |e] s']; reflexivity. }
  assert (G : forall longer : Z -> Z -> Prop,
              (forall n, longer
                 (delay 50 (firstToken (latency (slowConfig config)))
                    (variance (latency (slowConfig config))) (random w n))
                 (delay 50 (firstToken (latency config))
                    (variance (latency config)) (random w n))) ->
              (forall n, longer
                 (delay 5 (perToken (latency (slowConfig config)))
                    (variance (latency (slowConfig config))) (random w n))
                 (delay 5 (perToken (latency config))
                    (variance (latency config)) (random w n))) ->
              fst slow = fst plain /\ conn_like longer (snd slow) (snd plain)).
  { intros longer H1 H2. rewrite E. subst plain.
    apply (@sim_call w longer); [|apply Hstart].
    apply sim_routeToProvider; [exact H1 | exact H2 | reflexivity]. }
  split; [apply (G (fun _ _ => True)); intros; exact I|].
  split; [apply (G (fun _ _ => True)); intros; exact I|].
  intros Hrange Hm Hf Hp Hv0 Hv1.
  apply (G (fun slowed usual => (usual <= slowed)%Z)); intros n;
    destruct (Hrange n) as [R0 R1]; simpl;
    apply delay_scaled; try assumption; lra.
Qed.

Lemma slowdown_only_waits_witness :
  conn_like (fun slowed usual => (usual <= slowed)%Z)
    (snd (serve openai (request "terse" true) chaos_on (steady (1 # 10))))
    (snd (call (routeToProvider openai (request "terse" true) chaos_on)
            (steady (1 # 10)) (tick 1 fresh))).
Proof.
  destruct (@slowdown_only_waits (steady (1 # 10)) openai (request "terse" true)
              chaos_on eq_refl eq_refl) as (_ & _ & H).
  apply H; simpl; try lra. intros n. simpl. split; lra.
Defined.

(** ** What a client reassembles from a stream *)

Lemma streamed_text_app provider F G :
  streamed_text provider (F ++ G)
  = streamed_text provider F ++ streamed_text provider G.
Proof. unfold streamed_text. now rewrite map_app, concat_app. Qed.

Lemma streamed_text_map {A} provider (f : A -> frame) (g : A -> jsstring) xs :
  (forall x, frame_text provider (f x) = g x) ->
  streamed_text provider (map f xs) = concat (map g xs).
Proof.
  intros H. unfold streamed_text. rewrite map_map. f_equal.
  apply map_ext. exact H.
Qed.

Lemma streamed_text_silent {A} provider (f : A -> frame) xs :
  (forall x, frame_text provider (f x) = []) ->
  streamed_text provider (map f xs) = [].
Proof.
  intros H. unfold streamed_text. rewrite map_map.
  induction xs as [|x xs IH]; [reflexivity|]. simpl. now rewrite H.
Qed.

Lemma tokens_concat (text : jsstring) : concat (map (fun t => t) (tokenize text)) = text.
Proof. rewrite map_id. apply tokenize_segments. Qed.

Lemma OpenAI_frames_text p callId :
  streamed_text openai (OpenAI_frames p callId)
  = match OpenAI.toolCall_ p with
    | Some _ => []
    | None => OpenAI.content p
    end.
Proof.
  unfold OpenAI_frames. destruct (OpenAI.toolCall_ p) as [tc|].
  - rewrite !streamed_text_app.
    rewrite (streamed_text_silent openai) by (intros; reflexivity).
    reflexivity.
  - rewrite !streamed_text_app.
    rewrite (streamed_text_map openai _ (fun t => t)) by (intros; reflexivity).
    rewrite tokens_concat. change (streamed_text openai [_; _]) with (@nil N).
    change (streamed_text openai [_]) with (@nil N).
    simpl. apply app_nil_r.
Qed.







(** ** The OpenAI stream of a tool call *)

Lemma streamed_arguments_app F G :
  streamed_arguments (F ++ G) = streamed_arguments F ++ streamed_arguments G.
Proof. unfold streamed_arguments. now rewrite map_app, concat_app. Qed.

Lemma tool_call_chunks_arguments p callId call :
  streamed_arguments (tool_call_chunks p callId call)
  = stringify (ToolCall.arguments call).
Proof.
  unfold tool_call_chunks. rewrite !streamed_arguments_app.
  change (streamed_arguments [Data (OpenAI.roleChunk p);
                              Data (OpenAI.toolChunk p callId call)])
    with (@nil N).
  change (streamed_arguments [Data (OpenAI.doneChunk p); DoneLine]) with (@nil N).
  rewrite app_nil_r. simpl.
  unfold streamed_arguments. rewrite map_map.
  change (map (fun x => frame_arguments (Data (OpenAI.argChunk p x))))
    with (map (fun x : jsstring => x)).
  rewrite map_id. apply chunkString_round_trip.
Qed.

(** X14. An OpenAI stream of the persona [tool_calls], with the peer
    connected and the random numbers in [0, 1): the frames are the role
    chunk, the chunk that names the function of a tool call of the persona,
    the argument chunks, the final chunk with the finish reason
    [tool_calls] and [[DONE]]; the argument fragments concatenate to the
    JSON text of the arguments of that call; no text is streamed; and the
    response is ended. *)
Theorem openai_tool_calls_stream (w : World) (body : Body) (config : Config) :
  in_range w -> stays w ->
  _persona body = Some (js "tool_calls") -> not_streaming body = false ->
  let r := routeToProvider openai body config w fresh in
  fst r = Normal tt
  /\ exists l p callId i call,
       log (snd r) = l ++ [End None]
       /\ nth_error tool_calls_toolCalls i = Some call
       /\ frames l = tool_call_chunks p callId call
       /\ frame_tool_name (Data (OpenAI.toolChunk p callId call))
          = Some (JStr (ToolCall.name call))
       /\ streamed_arguments (frames l) = stringify (ToolCall.arguments call)
       /\ streamed_text openai (frames l) = []
       /\ finish_reason (Data (OpenAI.doneChunk p)) = Some (str "tool_calls").
Proof.
  intros Hrange Hstays Hpersona Hon.
  assert (Hname : persona_hint body config = js "tool_calls")
    by (unfold persona_hint; rewrite Hpersona; reflexivity).
  assert (Hhint : is_prototype_key (persona_hint body config) = false)
    by (rewrite Hname; reflexivity).
  pose proof (@handleChatCompletions_streams w body config fresh Hrange Hstays
                Hhint eq_refl eq_refl Hon) as H.
  unfold wp in H. cbv zeta. unfold routeToProvider, call.
  destruct (OpenAI.handleChatCompletions body config w fresh) as [c s'].
  simpl in H.
  destruct H as [-> (persona & p & id & Hres & Hsel & _ & l & Hl & Hf)].
  cbn [fst snd]. split; [reflexivity|].
  unfold resolvePersona in Hres. rewrite Hname in Hres.
  assert (persona = Catalog.tool_calls) as ->
    by (change (getPersona (js "tool_calls")) with (IsPersona Catalog.tool_calls) in Hres;
        now injection Hres).
  destruct Hsel as [_ Hsel].
  change (isToolCall (IsPersona Catalog.tool_calls) body
          && has_toolCalls (IsPersona Catalog.tool_calls)) with true in Hsel.
  destruct Hsel as (calls & i & call & Hcalls & Hi & _ & Htc).
  assert (calls = tool_calls_toolCalls) as -> by (now injection Hcalls).
  assert (HF : frames l = tool_call_chunks p id call).
  { rewrite Hf. unfold OpenAI_frames, tool_call_chunks. now rewrite Htc. }
  exists l, p, id, i, call.
  split; [exact Hl|]. split; [exact Hi|]. split; [exact HF|].
  split; [reflexivity|].
  split; [rewrite HF; apply tool_call_chunks_arguments|].
  split; [|reflexivity].
  rewrite Hf, OpenAI_frames_text, Htc. reflexivity.
Qed.

Lemma openai_tool_calls_stream_witness :
  let r := routeToProvider openai (request "tool_calls" true) DEFAULTS
             (steady (1 # 2)) fresh in
  fst r = Normal tt
  /\ exists l call,
       log (snd r) = l ++ [End None]
       /\ streamed_arguments (frames l) = stringify (ToolCall.arguments call).
Proof.
  assert (R : in_range (steady (1 # 2))) by (intros n; simpl; split; lra).
  assert (S : stays (steady (1 # 2))) by (intros n; reflexivity).
  destruct (@openai_tool_calls_stream (steady (1 # 2)) (request "tool_calls" true)
              DEFAULTS R S eq_refl eq_refl)
    as (H1 & l & p & id & i & call & Hl & _ & _ & _ & Ha & _).
  split; [exact H1|]. exists l, call. split; [exact Hl | exact Ha].
Defined.

(** ** The document of a single-shot answer *)

Section SingleShotDocuments.

Variable w : World.
Variable body : Body.
Variable config : Config.
Variable s : Conn.
Hypothesis Hrange : in_range w.
Hypothesis Hhint : is_prototype_key (persona_hint body config) = false.
Hypothesis Hlog : log s = [].




End SingleShotDocuments.



(** ** The order of the events of an exchange *)

Lemma body_then_end_body mid : forallb is_body mid = true -> body_then_end mid = true.
Proof.
  induction mid as [|e mid IH]; [reflexivity|].
  simpl. intros H. apply andb_true_iff in H as [He H].
  rewrite He, (IH H). destruct e; try discriminate He; now destruct mid.
Qed.

Lemma body_then_end_snoc mid b :
  forallb is_body mid = true -> body_then_end (mid ++ [End b]) = true.
Proof.
  induction mid as [|e mid IH]; [reflexivity|].
  simpl. intros H. apply andb_true_iff in H as [He H].
  rewrite He, (IH H). destruct e; try discriminate He;
    now destruct (mid ++ [End b]).
Qed.

Lemma opened_in_order s : opened s -> in_order (log s) = true.
Proof.
  intros (st & hs & mid & E & H). rewrite E. simpl.
  now apply body_then_end_body.
Qed.

Lemma opened_end b s : opened s -> in_order (log (say (End b) s)) = true.
Proof.
  intros (st & hs & mid & E & H). simpl. rewrite E. simpl.
  now apply body_then_end_snoc.
Qed.

Lemma opened_head status hs s :
  log s = [] -> opened (say (WriteHead status hs) s).
Proof. intros E. exists status, hs, []. simpl. now rewrite E. Qed.

Lemma opened_tick n s : opened s -> opened (tick n s).
Proof. intros H. exact H. Qed.

Lemma opened_nap w ms s : opened s -> opened (nap w ms s).
Proof.
  intros (st & hs & mid & E & H). exists st, hs, (mid ++ [Sleep ms]).
  simpl. rewrite E. split; [reflexivity|]. now rewrite forallb_app, H.
Qed.

Lemma opened_write f s : opened s -> opened (say (Write f) s).
Proof.
  intros (st & hs & mid & E & H). exists st, hs, (mid ++ [Write f]).
  simpl. rewrite E. split; [reflexivity|]. now rewrite forallb_app, H.
Qed.

#[local] Hint Resolve opened_tick opened_nap opened_write opened_head
  opened_in_order opened_end : nullmodel.

(** Nothing has been written: the log is still empty. *)
Ltac untouched :=
  simpl; match goal with H : log _ = [] |- _ => rewrite H end; reflexivity.

Section OrderedLoops.

Variable w : World.
Variable config : Config.

Lemma checked_loop_opened {A} (xs : list A) (f : A -> frame)
    (P : completion unit -> Conn -> Prop) s :
  (forall s', opened s' -> P (Normal tt) s') ->
  (forall s', opened s' -> P Return s') ->
  opened s ->
  wp (for_of xs (fun x =>
        d <- getTokenDelay config ;;
        sleep d ;;
        return_if_destroyed ;;
        res_write (f x))) P w s.
Proof.
  intros HN HR Hs.
  apply (wp_for_of w (fun _ s' => opened s')); [| exact HN | exact Hs].
  intros done x rest s' _ H. wp_steps.
  apply wp_return_if_destroyed; intros D.
  - apply HR. auto with nullmodel.
  - wp_steps. auto with nullmodel.
Qed.

Lemma unchecked_loop_opened {A} (xs : list A) (f : A -> frame)
    (P : completion unit -> Conn -> Prop) s :
  (forall s', opened s' -> P (Normal tt) s') ->
  opened s ->
  wp (for_of xs (fun x =>
        d <- getTokenDelay config ;;
        sleep d ;;
        res_write (f x))) P w s.
Proof.
  intros HN Hs.
  apply (wp_for_of w (fun _ s' => opened s')); [| exact HN | exact Hs].
  intros done x rest s' _ H. wp_steps. auto with nullmodel.
Qed.

Lemma counted_loop_opened (count : nat) (f : nat -> frame)
    (P : completion unit -> Conn -> Prop) s :
  (forall s', opened s' -> P (Normal tt) s') ->
  (forall s', opened s' -> P Return s') ->
  opened s ->
  wp (for_upto count 0 (fun i =>
        d <- getTokenDelay config ;;
        sleep d ;;
        return_if_destroyed ;;
        res_write (f i))) P w s.
Proof.
  intros HN HR Hs.
  apply (wp_for_upto w (fun _ s' => opened s')); [| exact HN | exact Hs].
  intros i s' _ H. wp_steps.
  apply wp_return_if_destroyed; intros D.
  - apply HR. auto with nullmodel.
  - wp_steps. auto with nullmodel.
Qed.

Variable s : Conn.
Hypothesis Hlog : log s = [].

Lemma OpenAI_sendStreaming_in_order (p : OpenAI.Params) :
  wp (OpenAI.sendStreaming config p) (fun _ s' => in_order (log s') = true) w s.
Proof.
  unfold OpenAI.sendStreaming. do 10 wp_step.
  match goal with |- wp _ _ _ ?st =>
    assert (W1 : opened st) by auto 8 with nullmodel
  end.
  destruct (OpenAI.toolCall_ p) as [tc|].
  - wp_steps. eapply unchecked_loop_opened; [|auto with nullmodel].
    intros s' W2. wp_steps. auto 8 with nullmodel.
  - wp_steps. eapply checked_loop_opened; [ | | exact W1].
    + intros s' W2. wp_steps. auto 8 with nullmodel.
    + intros s' W2. auto with nullmodel.
Qed.

Lemma Anthropic_sendStreaming_in_order (p : Anthropic.Params) :
  wp (Anthropic.sendStreaming config p) (fun _ s' => in_order (log s') = true) w s.
Proof.
  unfold Anthropic.sendStreaming, Anthropic.streamText, Anthropic.writeSSE.
  do 10 wp_step.
  match goal with |- wp _ _ _ ?st =>
    assert (W1 : opened st) by auto 8 with nullmodel
  end.
  destruct (Anthropic.toolCall_ p) as [tc|].
  - wp_steps. eapply checked_loop_opened; [ | | auto with nullmodel].
    + intros s' W2. wp_steps.
      eapply checked_loop_opened; [ | | auto 8 with nullmodel].
      * intros s'' W3. wp_steps. auto 8 with nullmodel.
      * intros s'' W3. auto with nullmodel.
    + intros s' W2. auto with nullmodel.
  - wp_steps. eapply checked_loop_opened; [ | | auto with nullmodel].
    + intros s' W2. wp_steps. auto 8 with nullmodel.
    + intros s' W2. auto with nullmodel.
Qed.

Lemma Gemini_sendStreaming_in_order (p : Gemini.Params) :
  wp (Gemini.sendStreaming config p) (fun _ s' => in_order (log s') = true) w s.
Proof.
  unfold Gemini.sendStreaming. do 6 wp_step.
  match goal with |- wp _ _ _ ?st =>
    assert (W1 : opened st) by auto 8 with nullmodel
  end.
  destruct (Gemini.toolCall_ p) as [tc|].
  - wp_steps. auto 8 with nullmodel.
  - cbv zeta. wp_step. eapply counted_loop_opened; [ | | exact W1].
    + intros s' W2. wp_steps. auto with nullmodel.
    + intros s' W2. auto with nullmodel.
Qed.

Lemma OpenAI_sendNonStreaming_in_order (p : OpenAI.Params) :
  wp (OpenAI.sendNonStreaming p) (fun _ s' => in_order (log s') = true) w s.
Proof.
  unfold OpenAI.sendNonStreaming.
  destruct (OpenAI.toolCall_ p); wp_steps; untouched.
Qed.

Lemma Anthropic_sendNonStreaming_in_order (p : Anthropic.Params) :
  wp (Anthropic.sendNonStreaming p) (fun _ s' => in_order (log s') = true) w s.
Proof.
  unfold Anthropic.sendNonStreaming.
  destruct (Anthropic.toolCall_ p); wp_steps; untouched.
Qed.

Lemma Gemini_sendNonStreaming_in_order (p : Gemini.Params) :
  wp (Gemini.sendNonStreaming p) (fun _ s' => in_order (log s') = true) w s.
Proof. unfold Gemini.sendNonStreaming. wp_steps. untouched. Qed.

End OrderedLoops.

Section OrderedHandlers.

Variable w : World.
Variable body : Body.
Variable config : Config.
Variable s : Conn.
Hypothesis Hlog : log s = [].

Lemma single_document_in_order status hs doc s0 :
  log s0 = [] ->
  in_order (log (say (End (Some doc)) (say (WriteHead status hs) s0))) = true.
Proof. intros E. simpl. now rewrite E. Qed.

Lemma handleChatCompletions_in_order :
  wp (OpenAI.handleChatCompletions body config)
     (fun _ s' => in_order (log s') = true) w s.
Proof.
  unfold OpenAI.handleChatCompletions. cbv zeta.
  wp_step. apply wp_selectContent_any.
  intros [[content tc]| |e] n; cbv beta iota; [ | untouched | untouched ].
  wp_steps. apply wp_estimateTokens_of_any.
  intros [[text k]| |e]; cbv beta iota; [ | untouched | untouched ].
  destruct (not_streaming body); wp_steps.
  - match goal with |- wp (OpenAI.sendNonStreaming ?p) _ _ ?st =>
      eapply wp_conseq;
        [|apply (@OpenAI_sendNonStreaming_in_order w st Hlog p)]
    end.
    intros c s' G.
    destruct c as [[]| |e']; cbv beta iota;
      [apply wp_return; exact G | exact G | exact G].
  -
    match goal with |- wp (OpenAI.sendStreaming _ ?p) _ _ ?st =>
      eapply wp_conseq; [|apply (@OpenAI_sendStreaming_in_order w config st Hlog p)]
    end.
    intros c s' G.
    destruct c as [[]| |e']; cbv beta iota;
      [apply wp_return; exact G | exact G | exact G].
Qed.

Lemma handleMessages_in_order :
  wp (Anthropic.handleMessages body config)
     (fun _ s' => in_order (log s') = true) w s.
Proof.
  unfold Anthropic.handleMessages. cbv zeta.
  wp_step. apply wp_selectContent_any.
  intros [[content tc]| |e] n; cbv beta iota; [ | untouched | untouched ].
  wp_steps. apply wp_estimateTokens_of_any.
  intros [[text k]| |e]; cbv beta iota; [ | untouched | untouched ].
  destruct (not_streaming body); wp_steps.
  - match goal with |- wp (Anthropic.sendNonStreaming ?p) _ _ ?st =>
      eapply wp_conseq;
        [|apply (@Anthropic_sendNonStreaming_in_order w st Hlog p)]
    end.
    intros c s' G.
    destruct c as [[]| |e']; cbv beta iota;
      [apply wp_return; exact G | exact G | exact G].
  -
    match goal with |- wp (Anthropic.sendStreaming _ ?p) _ _ ?st =>
      eapply wp_conseq;
        [|apply (@Anthropic_sendStreaming_in_order w config st Hlog p)]
    end.
    intros c s' G.
    destruct c as [[]| |e']; cbv beta iota;
      [apply wp_return; exact G | exact G | exact G].
Qed.

Lemma handleGenerateContent_in_order (model : jsstring) (stream : bool) :
  wp (Gemini.handleGenerateContent body config model stream)
     (fun _ s' => in_order (log s') = true) w s.
Proof.
  unfold Gemini.handleGenerateContent. cbv zeta.
  wp_step. apply wp_selectContent_any.
  intros [[content tc]| |e] n; cbv beta iota; [ | untouched | untouched ].
  wp_steps. apply wp_estimateTokens_of_any.
  intros [[text k]| |e]; cbv beta iota; [ | untouched | untouched ].
  destruct stream; simpl negb; cbv iota; wp_steps.
  - match goal with |- wp (Gemini.sendStreaming _ ?p) _ _ ?st =>
      eapply wp_conseq; [|apply (@Gemini_sendStreaming_in_order w config st Hlog p)]
    end.
    intros c s' G.
    destruct c as [[]| |e']; cbv beta iota;
      [apply wp_return; exact G | exact G | exact G].
  - match goal with |- wp (Gemini.sendNonStreaming ?p) _ _ ?st =>
      eapply wp_conseq;
        [|apply (@Gemini_sendNonStreaming_in_order w st Hlog p)]
    end.
    intros c s' G.
    destruct c as [[]| |e']; cbv beta iota;
      [apply wp_return; exact G | exact G | exact G].
Qed.

Lemma routeToProvider_in_order (provider : Provider) :
  wp (routeToProvider provider body config)
     (fun _ s' => in_order (log s') = true) w s.
Proof.
  destruct provider as [| |m st]; unfold routeToProvider; apply wp_call;
    (eapply wp_conseq;
     [| first [ apply handleChatCompletions_in_order
              | apply handleMessages_in_order
              | apply handleGenerateContent_in_order ]]);
    intros [[]| |e] s' G; exact G.
Qed.

End OrderedHandlers.

Lemma chaosRespond_in_order (w : World) (type : jsstring) (provider : Provider) s :
  log s = [] ->
  in_order (log (snd (chaosRespond type provider w s))) = true.
Proof.
  intros E. unfold chaosRespond.
  destruct (getChaosResponse (builtin w) type (Some (provider_name provider)))
    as [[r|via]| |e]; simpl; rewrite ?E; reflexivity.
Qed.

(** X16. Whatever the provider, the request, the configuration, the
    random numbers and the moment at which the peer goes away, the events
    of an exchange come in the order that HTTP allows: nothing at all, or
    one response head first, then only frames and waits, and the end of
    the response, if any, as the last event. *)
Theorem exchange_in_order (w : World) (provider : Provider) (body : Body)
    (config : Config) :
  in_order (log (snd (serve provider body config w))) = true.
Proof.
  unfold serve, call.
  assert (G : in_order (log (snd (requestListener provider body config w fresh)))
              = true).
  { unfold requestListener, bind.
    destruct (shouldTriggerChaos config w fresh) as [[chaosType| |e] s0] eqn:E.
    - assert (L : log s0 = []).
      { unfold shouldTriggerChaos in E.
        destruct (negb (enabled (chaos config))); injection E as _ <-; reflexivity. }
      destruct chaosType as [type|].
      + destruct (JsString.eqb type (js "slowdown")).
        * pose proof (@routeToProvider_in_order w body (slowConfig config) s0 L
                        provider) as H.
          unfold wp in H.
          destruct (routeToProvider provider body (slowConfig config) w s0)
            as [[[]| |e] s1]; exact H.
        * now apply chaosRespond_in_order.
      + pose proof (@routeToProvider_in_order w body config s0 L provider) as H.
        unfold wp in H.
        destruct (routeToProvider provider body config w s0)
          as [[[]| |e] s1]; exact H.
    - unfold shouldTriggerChaos in E.
      destruct (negb (enabled (chaos config))); discriminate E.
    - unfold shouldTriggerChaos in E.
      destruct (negb (enabled (chaos config))); discriminate E. }
  destruct (requestListener provider body config w fresh) as [[[]| |e] s1];
    exact G.
Qed.

(** ** Frames on the wire *)

Lemma printable_app a b : printable (a ++ b) = printable a && printable b.
Proof. apply forallb_app. Qed.

Lemma json_induction (P : json -> Prop) :
  P JNull -> (forall b, P (JBool b)) -> (forall n, P (JNum n)) ->
  (forall s, P (JStr s)) ->
  (forall items, Forall P items -> P (JArr items)) ->
  (forall fields, Forall (fun kv => P (snd kv)) fields -> P (JObj fields)) ->
  forall v, P v.
Proof.
  intros Hnull Hbool Hnum Hstr Harr Hobj.
  fix IH 1. intros [| b | n | s | items | fields].
  - exact Hnull.
  - apply Hbool.
  - apply Hnum.
  - apply Hstr.
  - apply Harr. induction items as [|x items IHl]; constructor;
      [apply IH | exact IHl].
  - apply Hobj. induction fields as [|[k x] fields IHl]; constructor;
      [apply IH | exact IHl].
Qed.

Lemma hex_digit_printable d : (32 <=? Stringify.hex_digit d)%N = true.
Proof.
  unfold Stringify.hex_digit. destruct (d <? 10)%N; apply N.leb_le; lia.
Qed.

Lemma unicode_escape_printable c : printable (Stringify.unicode_escape c) = true.
Proof.
  unfold Stringify.unicode_escape, printable. simpl.
  now rewrite !hex_digit_printable.
Qed.

Lemma escape_printable s : printable (Stringify.escape s) = true.
Proof.
  assert (G : forall n s, (length s <= n)%nat -> printable (Stringify.escape s) = true).
  { clear s. induction n as [|n IH]; intros s Hn.
    - destruct s; [reflexivity | simpl in Hn; lia].
    - destruct s as [|c r]; [reflexivity|].
      assert (Hr : printable (Stringify.escape r) = true)
        by (apply IH; simpl in Hn; lia).
      cbn [Stringify.escape].
      repeat match goal with
             | |- printable (if ?b then _ else _) = true =>
               let E := fresh "E" in destruct b eqn:E
             end;
        rewrite ?printable_app, ?unicode_escape_printable, ?Hr; try reflexivity.
      + destruct r as [|d r']; [apply unicode_escape_printable|].
        destruct (Stringify.is_low_surrogate d) eqn:L.
        * unfold printable. cbn [forallb].
          unfold Stringify.is_high_surrogate in *.
          unfold Stringify.is_low_surrogate in L.
          apply andb_true_iff in L as [L1 _]. apply N.leb_le in L1.
          match goal with E : (_ && _)%bool = true |- _ =>
            apply andb_true_iff in E as [H1 _]; apply N.leb_le in H1 end.
          replace (32 <=? c)%N with true by (symmetry; apply N.leb_le; lia).
          replace (32 <=? d)%N with true by (symmetry; apply N.leb_le; lia).
          apply (IH r'). simpl in Hn. lia.
        * now rewrite printable_app, unicode_escape_printable, Hr.
      + unfold printable in *. cbn [forallb]. rewrite Hr.
        match goal with E : (c <? 32)%N = false |- _ =>
          apply N.ltb_ge in E; apply N.leb_le in E; now rewrite E end. }
  apply (G (length s)). lia.
Qed.

Lemma quote_printable s : printable (Stringify.quote s) = true.
Proof.
  unfold Stringify.quote. now rewrite !printable_app, escape_printable.
Qed.

Lemma string_of_uint_digits d : all_chars digit_or_sign (NilEmpty.string_of_uint d) = true.
Proof. induction d; simpl; auto. Qed.

Lemma string_of_int_digits d : all_chars digit_or_sign (NilZero.string_of_int d) = true.
Proof.
  destruct d as [u|u]; unfold NilZero.string_of_int.
  - unfold NilZero.string_of_uint.
    destruct u; try reflexivity; simpl; apply string_of_uint_digits.
  - simpl. unfold NilZero.string_of_uint.
    destruct u; try reflexivity; simpl; apply string_of_uint_digits.
Qed.

Lemma js_ascii_printable s :
  all_chars digit_or_sign s = true -> printable (js s) = true.
Proof.
  unfold js, JsString.of_string.
  induction s as [|c r IH]; [reflexivity|].
  cbn [all_chars list_ascii_of_string map]. intros H.
  apply andb_true_iff in H as [Hc Hr]. unfold digit_or_sign in Hc.
  cbn [JsString.utf16].
  assert (B : (32 <= N_of_ascii c < 128)%N).
  { apply orb_true_iff in Hc as [Hc|Hc].
    - apply andb_true_iff in Hc as [H1 H2].
      apply N.leb_le in H1, H2. lia.
    - apply N.eqb_eq in Hc. lia. }
  replace (N_of_ascii c <? 128)%N with true by (symmetry; apply N.ltb_lt; lia).
  unfold printable. cbn [forallb].
  replace (32 <=? N_of_ascii c)%N with true by (symmetry; apply N.leb_le; lia).
  apply IH. exact Hr.
Qed.

Lemma number_printable n : printable (Stringify.number n) = true.
Proof. apply js_ascii_printable, string_of_int_digits. Qed.

Lemma join_printable sep parts :
  printable sep = true -> forallb printable parts = true ->
  printable (Stringify.join sep parts) = true.
Proof.
  intros Hs. induction parts as [|p parts IH]; [reflexivity|].
  cbn [forallb]. intros H. apply andb_true_iff in H as [Hp H].
  cbn [Stringify.join]. destruct parts as [|q parts]; [exact Hp|].
  now rewrite !printable_app, Hp, Hs, (IH H).
Qed.

Lemma stringify_arr items :
  stringify (JArr items)
  = js "[" ++ Stringify.join (js ",") (map stringify items) ++ js "]".
Proof. reflexivity. Qed.

Lemma stringify_obj fields :
  stringify (JObj fields)
  = js "{"
    ++ Stringify.join (js ",")
         (map (fun kv => Stringify.quote (fst kv) ++ js ":" ++ stringify (snd kv))
              fields)
    ++ js "}".
Proof.
  unfold stringify; fold stringify. do 3 f_equal.
  apply map_ext. now intros [k x].
Qed.

Lemma stringify_printable (v : json) : printable (stringify v) = true.
Proof.
  induction v as [| b | n | s | items IH | fields IH] using json_induction.
  - reflexivity.
  - destruct b; reflexivity.
  - apply number_printable.
  - apply quote_printable.
  - rewrite stringify_arr, !printable_app.
    rewrite join_printable; [reflexivity | reflexivity|].
    apply forallb_forall. intros t Ht. apply in_map_iff in Ht as (x & <- & Hx).
    rewrite Forall_forall in IH. now apply IH.
  - rewrite stringify_obj, !printable_app.
    rewrite join_printable; [reflexivity | reflexivity|].
    apply forallb_forall. intros t Ht.
    apply in_map_iff in Ht as ([k x] & <- & Hx). cbn [fst snd].
    rewrite Forall_forall in IH. specialize (IH _ Hx). cbn [snd] in IH.
    now rewrite !printable_app, quote_printable, IH.
Qed.

Lemma printable_line_feeds s : printable s = true -> line_feeds s = 0%nat.
Proof.
  unfold printable, line_feeds. induction s as [|c s IH]; [reflexivity|].
  cbn [forallb filter]. intros H. apply andb_true_iff in H as [Hc H].
  apply N.leb_le in Hc.
  replace (10 =? c)%N with false by (symmetry; apply N.eqb_neq; lia).
  now apply IH.
Qed.

Lemma line_feeds_app a b : line_feeds (a ++ b) = (line_feeds a + line_feeds b)%nat.
Proof. unfold line_feeds. now rewrite filter_app, length_app. Qed.

(** X17. A frame on the wire is its lines and one blank line.  The lines
    of a frame hold no control character but the one line feed between the
    [event:] and the [data:] line of an Anthropic event (whose name has
    none): [JSON.stringify] escapes every control character, so that no
    content can end a frame early. *)
Theorem wire_line_breaks (f : frame) :
  match f with
  | Sse name _ => printable name = true
  | _ => True
  end ->
  wire f = frame_lines f ++ [10; 10]%N
  /\ line_feeds (frame_lines f) = match f with
                                  | Sse _ _ => 1%nat
                                  | _ => 0%nat
                                  end
  /\ forallb (fun c => (c =? 10) || (32 <=? c))%N (frame_lines f) = true.
Proof.
  intros Hname. destruct f as [d | name d |]; cbn [wire frame_lines].
  - split; [now rewrite <- app_assoc|].
    assert (P : printable (js "data: " ++ stringify d) = true)
      by (now rewrite printable_app, stringify_printable).
    split; [now apply printable_line_feeds|].
    unfold printable in P. rewrite forallb_forall in P.
    apply forallb_forall. intros c Hc. rewrite (P c Hc). apply orb_true_r.
  - split; [now rewrite <- !app_assoc|].
    assert (P1 : printable (js "event: " ++ name) = true)
      by (now rewrite printable_app, Hname).
    assert (P2 : printable (js "data: " ++ stringify d) = true)
      by (now rewrite printable_app, stringify_printable).
    rewrite (app_assoc (js "event: ") name).
    set (A := js "event: " ++ name) in *.
    set (B := js "data: " ++ stringify d) in *.
    clearbody A B.
    split.
    + rewrite (line_feeds_app A), (printable_line_feeds _ P1).
      unfold line_feeds. cbn [app filter]. rewrite N.eqb_refl. cbn [length plus].
      fold (line_feeds B). now rewrite (printable_line_feeds _ P2).
    + unfold printable in P1, P2. rewrite forallb_forall in P1, P2.
      rewrite forallb_app. cbn [app forallb].
      repeat (apply andb_true_iff; split); try reflexivity;
        apply forallb_forall; intros c Hc;
        [rewrite (P1 c Hc) | rewrite (P2 c Hc)]; apply orb_true_r.
  - repeat split; reflexivity.
Qed.

Lemma wire_line_breaks_witness :
  wire (Data (JStr [10; 10; 13]%N)) = frame_lines (Data (JStr [10; 10; 13]%N)) ++ [10; 10]%N
  /\ line_feeds (frame_lines (Data (JStr [10; 10; 13]%N))) = 0%nat.
Proof.
  destruct (@wire_line_breaks (Data (JStr [10; 10; 13]%N)) I) as (H1 & H2 & _).
  split; [exact H1 | exact H2].
Defined.

(** ** Routing by path *)

Lemma strip_prefix_app p s : strip_prefix p (p ++ s) = Some s.
Proof.
  induction p as [|a p IH]; [reflexivity|]. simpl. now rewrite N.eqb_refl.
Qed.

Lemma strip_prefix_inv p s rest : strip_prefix p s = Some rest -> s = p ++ rest.
Proof.
  revert s. induction p as [|a p IH]; intros s; simpl.
  - now intros [= ->].
  - destruct s as [|b s]; [discriminate|].
    destruct (N.eqb a b) eqn:E; [|discriminate].
    apply N.eqb_eq in E. subst b. intros H. now rewrite (IH _ H).
Qed.

Lemma strip_suffix_app p s : strip_suffix p (s ++ p) = Some s.
Proof.
  unfold strip_suffix. rewrite rev_app_distr, strip_prefix_app. simpl.
  now rewrite rev_involutive.
Qed.

Lemma strip_suffix_inv p s rest : strip_suffix p s = Some rest -> s = rest ++ p.
Proof.
  unfold strip_suffix.
  destruct (strip_prefix (rev p) (rev s)) as [r|] eqn:E; [|discriminate].
  simpl. intros [= <-]. apply strip_prefix_inv in E.
  apply (f_equal (@rev _)) in E. rewrite rev_involutive, rev_app_distr in E.
  now rewrite rev_involutive in E.
Qed.

(** A path that ends with [:streamGenerateContent] does not end with
    [:generateContent]. *)
Lemma stream_suffix_differs model :
  strip_suffix (js ":generateContent") (model ++ js ":streamGenerateContent") = None.
Proof.
  unfold strip_suffix. rewrite rev_app_distr.
  let a := eval vm_compute in (rev (js ":generateContent")) in
  change (rev (js ":generateContent")) with a.
  let b := eval vm_compute in (rev (js ":streamGenerateContent")) in
  change (rev (js ":streamGenerateContent")) with b.
  reflexivity.
Qed.

Lemma method_suffixes :
  js ":generateContent" = js ":" ++ js "generateContent"
  /\ js ":streamGenerateContent" = js ":" ++ js "streamGenerateContent".
Proof. split; vm_compute; reflexivity. Qed.

(** X18. The paths of the Gemini endpoint: the expression matches a path
    with the model [model] and the flag [stream] if and only if the path is
    [/v1beta/models/], the model, a colon and [generateContent] or
    [streamGenerateContent] according to the flag, for a model that is not
    empty and has no slash. *)
Theorem matchGemini_paths (path model : jsstring) (stream : bool) :
  matchGemini path = Some (model, stream)
  <-> path = geminiPath model stream /\ model <> []
      /\ Forall (fun c => c <> 47%N) model.
Proof.
  assert (Seg : forall m, is_segment m = true
                          <-> m <> [] /\ Forall (fun c => c <> 47%N) m).
  { intros m. unfold is_segment. rewrite andb_true_iff, forallb_forall, Forall_forall.
    split; intros [H1 H2]; split.
    - destruct m; [discriminate | discriminate].
    - intros c Hc. specialize (H2 c Hc). apply negb_true_iff, N.eqb_neq in H2.
      exact H2.
    - destruct m; [contradiction | reflexivity].
    - intros c Hc. apply negb_true_iff, N.eqb_neq. now apply H2. }
  destruct method_suffixes as [E1 E2].
  unfold matchGemini, geminiPath. split.
  - destruct (strip_prefix (js "/v1beta/models/") path) as [rest|] eqn:P;
      [|discriminate].
    apply strip_prefix_inv in P. subst path.
    destruct (strip_suffix (js ":generateContent") rest) as [m|] eqn:S1.
    + apply strip_suffix_inv in S1. subst rest.
      destruct (is_segment m) eqn:G; [|discriminate]. intros [= -> <-].
      apply Seg in G. split; [|exact G].
      now rewrite E1.
    + destruct (strip_suffix (js ":streamGenerateContent") rest) as [m|] eqn:S2;
        [|discriminate].
      apply strip_suffix_inv in S2. subst rest.
      destruct (is_segment m) eqn:G; [|discriminate]. intros [= -> <-].
      apply Seg in G. split; [|exact G].
      now rewrite E2.
  - intros (-> & Hne & Hall).
    assert (G : is_segment model = true) by (apply Seg; now split).
    rewrite strip_prefix_app. destruct stream.
    + rewrite <- E2.
      now rewrite stream_suffix_differs, strip_suffix_app, G.
    + rewrite <- E1. now rewrite strip_suffix_app, G.
Qed.

(** ** Answers that precede the chaos check *)

(** X19. What the listener answers by itself.  [OPTIONS] gets 204 and no
    body.  Otherwise, when [new URL] throws for the request target, the
    listener throws before its [try] and nothing is answered.  Otherwise
    [/], [/health], [/personas] and [/config] get 200 with any method;
    otherwise a method other than [POST] gets 405; otherwise a body that
    cannot be read gets 500 with the message of the error; otherwise an
    unknown path gets 404.  Each of these answers is one head and one end,
    with no random number drawn and no wait.  A [POST] with a body and a
    provider path is the exchange from the chaos check on; when the body
    is [null] the handler throws before it writes, so that without chaos
    nothing is answered. *)
Theorem listener_direct_answers (number : Q -> json) (uptime : Q)
    (config : Config) (req : Request) (w : World) :
  let r := snd (exchange number uptime config req w) in
  (forall status, direct_status req = Some status ->
     exists hs doc,
       r = (Normal tt, {| draws := 0; sleeps := 0; destroyed := false;
                          log := [WriteHead status hs; End doc] |})
       /\ (doc = None <-> method req = js "OPTIONS"))
  /\ (method req = js "OPTIONS" -> direct_status req = Some 204%Z)
  /\ (method req <> js "OPTIONS" -> pathname req = None ->
      exists e, r = (Throw e, fresh))
  /\ (forall path,
        method req <> js "OPTIONS" -> pathname req = Some path ->
        (is_meta path = true -> direct_status req = Some 200%Z)
        /\ (is_meta path = false -> method req <> js "POST" ->
            direct_status req = Some 405%Z)
        /\ (is_meta path = false -> method req = js "POST" ->
            (forall message,
               payload req = Rejected message ->
               direct_status req = Some 500%Z
               /\ exists hs,
                    log (snd r)
                    = [WriteHead 500 hs;
                       End (Some (Indented
                         (obj [ prop "error" (str "Internal nullmodel error");
                                prop "message" (JStr message) ])))])
            /\ ((forall message, payload req <> Rejected message) ->
                providerOf path = None -> direct_status req = Some 404%Z)
            /\ (forall provider body,
                  payload req = Resolved body ->
                  providerOf path = Some provider ->
                  r = serve provider body config w)
            /\ (forall provider,
                  payload req = ResolvedNull ->
                  providerOf path = Some provider ->
                  r = call (requestListener_null provider config) w fresh
                  /\ (enabled (chaos config) = false ->
                      exists e, r = (Throw e, fresh))))).
Proof.
  cbv zeta. unfold exchange, direct_status, listener. cbn [snd].
  assert (Eq : forall a b, JsString.eqb a b = false <-> a <> b).
  { intros a b. rewrite <- jsstring_eqb_eq. now destruct (JsString.eqb a b). }
  split; [|split; [|split]].
  - intros status.
    destruct (JsString.eqb (method req) (js "OPTIONS")) eqn:O.
    { intros [= <-]. apply jsstring_eqb_eq in O.
      do 2 eexists. split; [reflexivity|]. split; [now intros _ | reflexivity]. }
    apply Eq in O.
    destruct (pathname req) as [path|]; [|discriminate].
    unfold is_meta.
    destruct (JsString.eqb path (js "/") || JsString.eqb path (js "/health")) eqn:H1.
    { cbn [orb]. intros [= <-]. do 2 eexists. split; [reflexivity|].
      split; [discriminate | contradiction]. }
    cbn [orb].
    destruct (JsString.eqb path (js "/personas")) eqn:H2.
    { cbn [orb]. intros [= <-]. do 2 eexists. split; [reflexivity|].
      split; [discriminate | contradiction]. }
    cbn [orb].
    destruct (JsString.eqb path (js "/config")) eqn:H3.
    { intros [= <-]. do 2 eexists. split; [reflexivity|].
      split; [discriminate | contradiction]. }
    destruct (JsString.eqb (method req) (js "POST")) eqn:P; cbn [negb].
    2:{ intros [= <-]. do 2 eexists. split; [reflexivity|].
        split; [discriminate | contradiction]. }
    destruct (payload req) as [body| |message].
    + destruct (providerOf path); [discriminate|].
      intros [= <-]. do 2 eexists. split; [reflexivity|].
      split; [discriminate | contradiction].
    + destruct (providerOf path); [discriminate|].
      intros [= <-]. do 2 eexists. split; [reflexivity|].
      split; [discriminate | contradiction].
    + intros [= <-]. do 2 eexists. split; [reflexivity|].
      split; [discriminate | contradiction].
  - intros ->. reflexivity.
  - intros O%Eq ->. rewrite O. eexists. reflexivity.
  - intros path O%Eq ->. rewrite O. split; [|split].
    + intros M. now rewrite M.
    + intros M P%Eq. now rewrite M, P.
    + intros M P. apply jsstring_eqb_eq in P. rewrite M, P. cbn [negb].
      unfold is_meta in M.
      apply orb_false_iff in M as [M M3]. apply orb_false_iff in M as [M M2].
      rewrite M, M2, M3. cbn [negb orb].
      split; [|split; [|split]].
      * intros message ->. split; [reflexivity|]. eexists. reflexivity.
      * intros Hp Pn. rewrite Pn.
        destruct (payload req) as [body| |message]; try reflexivity.
        now destruct (Hp message).
      * intros provider body -> ->. reflexivity.
      * intros provider -> ->. split; [reflexivity|].
        intros Hoff. unfold requestListener_null, shouldTriggerChaos, call, bind.
        rewrite Hoff. eexists. reflexivity.
Qed.

Lemma listener_direct_answers_witness :
  exists hs doc,
    snd (exchange (fun q => JNum (Qfloor q)) 12 chaos_on
           {| method := js "DELETE"; pathname := Some (js "/v1/unknown");
              payload := Rejected (js "Invalid JSON body") |}
           (steady 0))
    = (Normal tt, {| draws := 0; sleeps := 0; destroyed := false;
                     log := [WriteHead 405 hs; End doc] |}).
Proof.
  destruct (@listener_direct_answers (fun q => JNum (Qfloor q)) 12 chaos_on
              {| method := js "DELETE"; pathname := Some (js "/v1/unknown");
                 payload := Rejected (js "Invalid JSON body") |}
              (steady 0)) as (H & _).
  destruct (H 405%Z) as (hs & doc & E & _).
  - vm_compute. reflexivity.
  - exists hs, doc. exact E.
Defined.

(** ** The command line *)

Lemma jsstring_eqb_refl (a : jsstring) : JsString.eqb a a = true.
Proof. now apply jsstring_eqb_eq. Qed.

Lemma jsstring_eqb_sym (a b : jsstring) : JsString.eqb a b = JsString.eqb b a.
Proof.
  destruct (JsString.eqb a b) eqn:E.
  - apply jsstring_eqb_eq in E. subst. symmetry. apply jsstring_eqb_refl.
  - destruct (JsString.eqb b a) eqn:E'; [|reflexivity].
    apply jsstring_eqb_eq in E'. subst. now rewrite jsstring_eqb_refl in E.
Qed.

Lemma assoc_assign key k v (args : Args) :
  assoc key (assign k v args)
  = if JsString.eqb key k then Some v else assoc key args.
Proof.
  induction args as [|[k' old] args IH]; simpl.
  - reflexivity.
  - destruct (JsString.eqb k k') eqn:E; simpl.
    + apply jsstring_eqb_eq in E. subst k'.
      now destruct (JsString.eqb key k).
    + destruct (JsString.eqb key k') eqn:E'.
      * apply jsstring_eqb_eq in E'. subst k'.
        now rewrite jsstring_eqb_sym, E.
      * exact IH.
Qed.

Lemma long_prefix key : strip_prefix (js "--") (js "--" ++ key) = Some key.
Proof. apply strip_prefix_app. Qed.

Lemma parseArgs_from_long key rest args :
  parseArgs_from ((js "--" ++ key) :: rest) args
  = match rest with
    | next :: rest' =>
      if negb (is_empty next) && negb (is_long next)
      then parseArgs_from rest' (setArg key (ArgText next) args)
      else parseArgs_from rest (setArg key ArgTrue args)
    | [] => setArg key ArgTrue args
    end.
Proof. cbn [parseArgs_from]. now rewrite long_prefix. Qed.

Lemma render_cons o opts : render (o :: opts) = render_option o ++ render opts.
Proof. reflexivity. Qed.

Lemma parseArgs_from_render (opts : list CliOption) (rest : list jsstring)
    (args : Args) (key : jsstring) :
  forallb well_formed_option opts = true ->
  match rest with
  | [] => True
  | next :: _ => is_empty next || is_long next = true
  end ->
  exists args',
    parseArgs_from (render opts ++ rest) args = parseArgs_from rest args'
    /\ assoc key args' = match last_option key opts with
                         | Some v => Some v
                         | None => assoc key args
                         end.
Proof.
  intros Hw Hrest. revert args.
  induction opts as [|[k v] opts IH]; intros args.
  - exists args. split; reflexivity.
  - cbn [forallb] in Hw. apply andb_true_iff in Hw as [Ho Hw].
    specialize (IH Hw).
    unfold well_formed_option in Ho. cbn [fst snd] in Ho.
    apply andb_true_iff in Ho as [Hk Hv]. apply negb_true_iff in Hk.
    assert (Next : match render opts ++ rest with
                   | [] => True
                   | next :: _ => is_empty next || is_long next = true
                   end).
    { destruct opts as [|[k2 v2] opts']; [exact Hrest|].
      rewrite render_cons. unfold render_option. cbn [fst app].
      unfold is_long. rewrite long_prefix. apply orb_true_r. }
    assert (Look : forall a, assoc key (setArg k a args)
                             = if JsString.eqb key k then Some a else assoc key args).
    { intros a. unfold setArg. rewrite Hk. apply assoc_assign. }
    rewrite render_cons, <- app_assoc. unfold render_option. cbn [fst snd].
    destruct v as [value|].
    + apply andb_true_iff in Hv as [V1 V2].
      cbn [app]. rewrite parseArgs_from_long, V1, V2. cbn [andb].
      destruct (IH (setArg k (ArgText value) args)) as (args' & E & L).
      exists args'. split; [exact E|]. rewrite L. cbn [last_option fst].
      destruct (last_option key opts); [reflexivity|].
      rewrite Look. unfold stored. cbn [snd].
      now destruct (JsString.eqb key k).
    + cbn [app]. rewrite parseArgs_from_long.
      destruct (IH (setArg k ArgTrue args)) as (args' & E & L).
      exists args'. split.
      * destruct (render opts ++ rest) as [|next tail] eqn:R.
        -- rewrite <- E. reflexivity.
        -- rewrite <- negb_orb, Next. cbn [negb]. exact E.
      * rewrite L. cbn [last_option fst].
        destruct (last_option key opts); [reflexivity|].
        rewrite Look. unfold stored. cbn [snd].
      now destruct (JsString.eqb key k).
Qed.

(** X20. [parseArgs] reads back a command line of options [--key value]
    and [--key]: for keys other than [__proto__] and values that are not
    empty and do not start with two dashes, each key holds the value of its
    last occurrence, [true] for an option without a value, and a key that
    does not occur is missing. *)
Theorem parseArgs_options (opts : list CliOption) (key : jsstring) :
  forallb well_formed_option opts = true ->
  assoc key (parseArgs (render opts)) = last_option key opts.
Proof.
  intros Hw.
  destruct (@parseArgs_from_render opts [] [] key Hw I) as (args' & E & L).
  unfold parseArgs. rewrite app_nil_r in E. rewrite E. cbn [parseArgs_from].
  rewrite L. now destruct (last_option key opts).
Qed.

Lemma parseArgs_options_witness :
  arg "port" (parseArgs (render [ (js "port", Some (js "3001"));
                                  (js "chaos", None);
                                  (js "port", Some (js "8080")) ]))
  = Some (ArgText (js "8080")).
Proof.
  unfold arg. rewrite parseArgs_options; [|vm_compute; reflexivity].
  vm_compute. reflexivity.
Defined.

(** X21. The short forms and the values that look like options.  [-p]
    takes the next argument whatever it is, and [undefined] as the last
    argument; a value that starts with two dashes is not taken but read as
    the next option, and an empty value is not taken and then skipped, the
    option being [true] in both cases; and [__proto__] is never a property
    of the result. *)
Theorem parseArgs_edges (argv : list jsstring) (key next : jsstring) :
  (* [-p] takes the next argument, whatever it is *)
  parseArgs (js "-p" :: next :: argv)
  = parseArgs_from argv [(js "port", ArgText next)]
  (* and [undefined] when it is the last one *)
  /\ arg "port" (parseArgs [js "-p"]) = Some ArgUndefined
  (* a value that starts with two dashes is not taken: it is the next option *)
  /\ (is_long next = true ->
      parseArgs ((js "--" ++ key) :: next :: argv)
      = parseArgs_from (next :: argv) (setArg key ArgTrue []))
  (* nor is an empty value, which is then skipped *)
  /\ parseArgs ((js "--" ++ key) :: [] :: argv)
     = parseArgs_from argv (setArg key ArgTrue [])
  (* [__proto__] is never stored *)
  /\ assoc (js "__proto__") (parseArgs argv) = None.
Proof.
  split; [reflexivity|]. split; [reflexivity|]. split; [|split].
  - intros L. unfold parseArgs. rewrite parseArgs_from_long, L.
    now rewrite andb_false_r.
  - unfold parseArgs. rewrite parseArgs_from_long. reflexivity.
  - unfold parseArgs.
    assert (G : forall argv args, assoc (js "__proto__") args = None ->
                assoc (js "__proto__") (parseArgs_from argv args) = None).
    { clear. intros argv.
      assert (S : forall k v args, assoc (js "__proto__") args = None ->
                  assoc (js "__proto__") (setArg k v args) = None).
      { intros k v args H. unfold setArg.
        destruct (JsString.eqb k (js "__proto__")) eqn:E; [exact H|].
        rewrite assoc_assign, jsstring_eqb_sym, E. exact H. }
      remember (length argv) as n eqn:En. revert argv En.
      induction n as [n IH] using lt_wf_ind. intros argv En args H.
      destruct argv as [|a rest]; [exact H|].
      cbn [parseArgs_from].
      destruct (strip_prefix (js "--") a) as [k|].
      - destruct rest as [|next rest']; [now apply S|].
        destruct (negb (is_empty next) && negb (is_long next)).
        + apply (IH (length rest')); [subst n; simpl; lia | reflexivity |].
          now apply S.
        + apply (IH (length (next :: rest'))); [subst n; simpl; lia | reflexivity |].
          now apply S.
      - destruct (JsString.eqb a (js "-v")).
        + apply (IH (length rest)); [subst n; simpl; lia | reflexivity |].
          now apply S.
        + destruct (JsString.eqb a (js "-p")).
          * destruct rest as [|next rest']; [now apply S|].
            apply (IH (length rest')); [subst n; simpl; lia | reflexivity |].
            now apply S.
          * apply (IH (length rest)); [subst n; simpl; lia | reflexivity |].
            exact H. }
    now apply G.
Qed.

Lemma parseArgs_edges_witness :
  parseArgs [js "--persona"; js "--chaos"]
  = [(js "persona", ArgTrue); (js "chaos", ArgTrue)].
Proof.
  destruct (@parseArgs_edges [] (js "persona") (js "--chaos")) as (_ & _ & H & _).
  change [js "--persona"; js "--chaos"]
    with ((js "--" ++ js "persona") :: [js "--chaos"]).
  rewrite H; [|vm_compute; reflexivity]. vm_compute. reflexivity.
Defined.

(** ** The merge of configurations *)

Lemma andThen_failed f acc :
  (forall r, acc <> Done r) -> andThen acc f = acc.
Proof. destruct acc; intros H; try reflexivity. now destruct (H a). Qed.

Lemma mergeEntries_nil f res : mergeEntries f [] res = Done res.
Proof. reflexivity. Qed.

Lemma fold_failed (A : Type) (step : Fields -> A -> Outcome Fields) es acc :
  (forall r, acc <> Done r) ->
  fold_left (fun acc x => andThen acc (fun res => step res x)) es acc = acc.
Proof.
  revert acc. induction es as [|x es IH]; intros acc H; [reflexivity|].
  cbn [fold_left]. rewrite (andThen_failed _ H). now apply IH.
Qed.

Lemma mergeEntries_cons f k v es res :
  mergeEntries f ((k, v) :: es) res
  = andThen (mergeEntry f res k v) (mergeEntries f es).
Proof.
  unfold mergeEntries. cbn [fold_left andThen fst snd].
  destruct (mergeEntry f res k v) eqn:E; cbn [andThen]; try reflexivity;
    now rewrite fold_failed by (intros r; discriminate).
Qed.

Lemma mergeEntries_app f es1 es2 res :
  mergeEntries f (es1 ++ es2) res
  = andThen (mergeEntries f es1 res) (mergeEntries f es2).
Proof.
  revert res. induction es1 as [|[k v] es1 IH]; intros res; [reflexivity|].
  cbn [app]. rewrite !mergeEntries_cons.
  destruct (mergeEntry f res k v); cbn [andThen]; auto.
Qed.

Lemma mergeObjects_nil f res : mergeObjects f [] res = Done res.
Proof. reflexivity. Qed.

Lemma mergeObjects_cons f obj objs res :
  mergeObjects f (obj :: objs) res
  = andThen (match entries obj with
             | Some es => mergeEntries f es res
             | None => TypeError
             end) (mergeObjects f objs).
Proof.
  unfold mergeObjects. cbn [fold_left andThen].
  destruct (entries obj) as [es|].
  - destruct (mergeEntries f es res) eqn:E; cbn [andThen]; try reflexivity;
      now rewrite fold_failed by (intros r; discriminate).
  - cbn [andThen]. now rewrite fold_failed by (intros r; discriminate).
Qed.

(** *** More fuel does not change an outcome *)

Section Fuel.

Variables f g : list value -> Outcome Fields.
Hypothesis Hfg : forall objs, f objs <> OutOfFuel -> g objs = f objs.

Lemma mergeEntry_more res k v :
  mergeEntry f res k v <> OutOfFuel -> mergeEntry g res k v = mergeEntry f res k v.
Proof.
  unfold mergeEntry.
  destruct (JsString.eqb k (js "__proto__")).
  - destruct v; try reflexivity.
    intros H. rewrite Hfg; [reflexivity|].
    intros E. rewrite E in H. now apply H.
  - destruct v; try reflexivity.
    destruct (assoc k res) as [old|]; [|reflexivity].
    destruct (is_object_type old); [|reflexivity].
    intros H. rewrite Hfg; [reflexivity|].
    intros E. rewrite E in H. now apply H.
Qed.

Lemma mergeEntries_more es res :
  mergeEntries f es res <> OutOfFuel -> mergeEntries g es res = mergeEntries f es res.
Proof.
  revert res. induction es as [|[k v] es IH]; intros res; [reflexivity|].
  rewrite !mergeEntries_cons. intros H.
  assert (E : mergeEntry f res k v <> OutOfFuel).
  { intros E. rewrite E in H. now apply H. }
  rewrite (mergeEntry_more _ _ _ E).
  destruct (mergeEntry f res k v); cbn [andThen] in *; auto.
Qed.

Lemma mergeObjects_more objs res :
  mergeObjects f objs res <> OutOfFuel -> mergeObjects g objs res = mergeObjects f objs res.
Proof.
  revert res. induction objs as [|obj objs IH]; intros res; [reflexivity|].
  rewrite !mergeObjects_cons. intros H.
  destruct (entries obj) as [es|]; [|reflexivity].
  assert (E : mergeEntries f es res <> OutOfFuel).
  { intros E. rewrite E in H. now apply H. }
  rewrite (mergeEntries_more _ _ E).
  destruct (mergeEntries f es res); cbn [andThen] in *; auto.
Qed.

End Fuel.

Lemma deepMerge_fuel_more n m objs :
  (n <= m)%nat -> deepMerge_fuel n objs <> OutOfFuel ->
  deepMerge_fuel m objs = deepMerge_fuel n objs.
Proof.
  revert m objs. induction n as [|n IH]; intros m objs Hle H.
  - now destruct H.
  - destruct m as [|m]; [lia|]. cbn [deepMerge_fuel] in *.
    apply mergeObjects_more; [|exact H].
    intros o Ho. apply IH; [lia | exact Ho].
Qed.

(** *** The depth of the arguments is fuel enough *)

Lemma inner_assoc k (res : Fields) old :
  assoc k res = Some old -> (depth old <= inner res)%nat.
Proof.
  induction res as [|[k' x] res IH]; [discriminate|].
  cbn [assoc inner fold_right snd]. fold (inner res).
  destruct (JsString.eqb k k').
  - intros [= ->]. lia.
  - intros H. specialize (IH H). lia.
Qed.

Lemma inner_replaceProp k v res :
  (inner (replaceProp k v res) <= Nat.max (depth v) (inner res))%nat.
Proof.
  induction res as [|[k' x] res IH]; [cbn; lia|].
  cbn [replaceProp]. destruct (JsString.eqb k k');
    cbn [inner fold_right snd] in *; fold (inner res) in *;
    try fold (inner (replaceProp k v res)); lia.
Qed.

Lemma inner_insertProp k v res :
  (inner (insertProp k v res) <= Nat.max (depth v) (inner res))%nat.
Proof.
  induction res as [|[k' x] res IH]; [cbn; lia|].
  cbn [insertProp]. destruct (goes_before k k');
    cbn [inner fold_right snd] in *; fold (inner res) in *;
    try fold (inner (insertProp k v res)); lia.
Qed.

Lemma inner_assignProp k v res :
  (inner (assignProp k v res) <= Nat.max (depth v) (inner res))%nat.
Proof.
  unfold assignProp. destruct (assoc k res);
    [apply inner_replaceProp | apply inner_insertProp].
Qed.

Lemma inner_In k v (es : Fields) : In (k, v) es -> (depth v <= inner es)%nat.
Proof.
  induction es as [|[k' x] es IH]; [easy|].
  cbn [inner fold_right snd]. fold (inner es).
  intros [[= -> ->] | H]; [lia | specialize (IH H); lia].
Qed.

Lemma entries_depth obj es k v :
  entries obj = Some es -> In (k, v) es -> (depth v <= pred (depth obj))%nat.
Proof.
  destruct obj as [| | b | n | s | items | fields]; cbn [entries];
    intros [= <-]; try easy.
  - intros H. apply in_map_iff in H as ([i c] & [= _ <-] & _). cbn. lia.
  - cbn [depth pred]. intros H. apply in_combine_r in H.
    induction items as [|x items IH]; [easy|].
    cbn [fold_right]. destruct H as [-> | H]; [lia | specialize (IH H); lia].
  - cbn [depth pred]. intros H. apply inner_In in H. exact H.
Qed.

Lemma depth_all_In obj objs : In obj objs -> (depth obj <= depth_all objs)%nat.
Proof.
  unfold depth_all. induction objs as [|x objs IH]; [easy|].
  cbn [fold_right]. intros [-> | H]; [lia | specialize (IH H); lia].
Qed.

(** With fuel beyond the depth [d] of the values of the entries,
    [deepMerge] returns or throws, and the values of its result are no
    deeper than [d]. *)
Lemma deepMerge_fuel_enough n :
  forall d objs,
    (d < n)%nat ->
    (forall obj, In obj objs -> pred (depth obj) <= d)%nat ->
    deepMerge_fuel n objs <> OutOfFuel
    /\ forall r, deepMerge_fuel n objs = Done r -> (inner r <= d)%nat.
Proof.
  induction n as [|n IH]; intros d objs Hd Hobjs; [lia|].
  cbn [deepMerge_fuel].
  (* one entry *)
  assert (Step : forall res k v,
             (inner res <= d)%nat -> (depth v <= d)%nat ->
             mergeEntry (deepMerge_fuel n) res k v <> OutOfFuel
             /\ forall r, mergeEntry (deepMerge_fuel n) res k v = Done r ->
                          (inner r <= d)%nat).
  { intros res k v Hres Hv. unfold mergeEntry.
    assert (Assign : forall x, (depth x <= d)%nat ->
                               (inner (assignProp k x res) <= d)%nat).
    { intros x Hx. pose proof (inner_assignProp k x res). lia. }
    destruct (JsString.eqb k (js "__proto__")).
    - destruct v as [| | b | q | s | items | fields];
        try (split; [discriminate | intros r [= <-]; exact Hres]);
        try (split; [discriminate | discriminate]).
      destruct (IH (pred d) [VObj []; VObj fields]) as [H1 _].
      { cbn [depth] in Hv. lia. }
      { intros obj [<- | [<- | []]]; cbn [depth pred fold_right] in *; lia. }
      destruct (deepMerge_fuel n [VObj []; VObj fields]);
        split; try discriminate; now destruct H1.
    - destruct v as [| | b | q | s | items | fields];
        try (split; [discriminate | intros r [= <-]; auto]).
      destruct (assoc k res) as [old|] eqn:A;
        [|split; [discriminate | intros r [= <-]; auto]].
      destruct (is_object_type old);
        [|split; [discriminate | intros r [= <-]; auto]].
      apply inner_assoc in A.
      destruct (IH (pred d) [old; VObj fields]) as [H1 H2].
      { cbn [depth] in Hv. lia. }
      { intros obj [<- | [<- | []]]; lia. }
      destruct (deepMerge_fuel n [old; VObj fields]) as [m| | |];
        split; try discriminate; try (now destruct H1).
      intros r [= <-]. apply Assign. cbn [depth]. fold (inner m).
      specialize (H2 m eq_refl). cbn [depth] in Hv. lia. }
  (* the entries of one object *)
  assert (Entries : forall es res,
             (inner res <= d)%nat ->
             (forall k v, In (k, v) es -> depth v <= d)%nat ->
             mergeEntries (deepMerge_fuel n) es res <> OutOfFuel
             /\ forall r, mergeEntries (deepMerge_fuel n) es res = Done r ->
                          (inner r <= d)%nat).
  { induction es as [|[k v] es IHes]; intros res Hres Hes.
    - split; [discriminate | intros r [= <-]; exact Hres].
    - rewrite mergeEntries_cons.
      destruct (Step res k v Hres) as [S1 S2]; [apply (Hes k v); now left|].
      destruct (mergeEntry (deepMerge_fuel n) res k v) as [res'| | |];
        cbn [andThen]; try (split; discriminate); [|now destruct S1].
      apply IHes; [now apply S2 | intros; apply (Hes k0 v0); now right]. }
  (* the objects *)
  assert (Objects : forall os res,
             (inner res <= d)%nat ->
             (forall obj, In obj os -> pred (depth obj) <= d)%nat ->
             mergeObjects (deepMerge_fuel n) os res <> OutOfFuel
             /\ forall r, mergeObjects (deepMerge_fuel n) os res = Done r ->
                          (inner r <= d)%nat).
  { induction os as [|obj os IHos]; intros res Hres Hos.
    - split; [discriminate | intros r [= <-]; exact Hres].
    - rewrite mergeObjects_cons.
      destruct (entries obj) as [es|] eqn:E; [|split; discriminate].
      destruct (Entries es res Hres) as [E1 E2].
      { intros k v Hin. pose proof (@entries_depth _ _ _ _ E Hin).
        specialize (Hos obj (or_introl eq_refl)). lia. }
      destruct (mergeEntries (deepMerge_fuel n) es res) as [res'| | |];
        cbn [andThen]; try (split; discriminate); [|now destruct E1].
      apply IHos; [now apply E2 | intros; apply Hos; now right]. }
  apply Objects; [cbn; lia | exact Hobjs].
Qed.

Lemma deepMerge_returns objs : deepMerge objs <> OutOfFuel.
Proof.
  unfold deepMerge.
  apply (@deepMerge_fuel_enough (S (depth_all objs)) (depth_all objs) objs);
    [lia|].
  intros obj H. apply depth_all_In in H. lia.
Qed.

Lemma deepMerge_fuel_agrees n objs :
  deepMerge_fuel n objs <> OutOfFuel -> deepMerge_fuel n objs = deepMerge objs.
Proof.
  intros H. unfold deepMerge.
  destruct (Nat.le_gt_cases n (S (depth_all objs))) as [L|L].
  - symmetry. now apply deepMerge_fuel_more.
  - apply deepMerge_fuel_more; [lia|]. apply deepMerge_returns.
Qed.

(** *** One key through the merge *)

Lemma jsstring_eqb_neq (a b : jsstring) : JsString.eqb a b = false <-> a <> b.
Proof.
  rewrite <- jsstring_eqb_eq. destruct (JsString.eqb a b); split; congruence.
Qed.

Lemma assoc_replaceProp k k' v (res : Fields) :
  assoc k' res <> None ->
  assoc k (replaceProp k' v res) = if JsString.eqb k k' then Some v else assoc k res.
Proof.
  induction res as [|[k0 x] res IH]; [easy|].
  cbn [assoc replaceProp]. destruct (JsString.eqb k' k0) eqn:E.
  - intros _. apply jsstring_eqb_eq in E. subst k0. cbn [assoc].
    now destruct (JsString.eqb k k').
  - intros H. cbn [assoc]. rewrite (IH H).
    destruct (JsString.eqb k k0) eqn:E0; [|reflexivity].
    apply jsstring_eqb_eq in E0. subst k0.
    now rewrite jsstring_eqb_sym, E.
Qed.

Lemma assoc_insertProp k k' v (res : Fields) :
  assoc k' res = None ->
  assoc k (insertProp k' v res) = if JsString.eqb k k' then Some v else assoc k res.
Proof.
  induction res as [|[k0 x] res IH]; [reflexivity|].
  cbn [assoc insertProp]. destruct (JsString.eqb k' k0) eqn:E; [discriminate|].
  intros H. destruct (goes_before k' k0); cbn [assoc].
  - reflexivity.
  - rewrite (IH H). destruct (JsString.eqb k k0) eqn:E0; [|reflexivity].
    apply jsstring_eqb_eq in E0. subst k0.
    now rewrite jsstring_eqb_sym, E.
Qed.

Lemma assoc_assignProp k k' v (res : Fields) :
  assoc k (assignProp k' v res) = if JsString.eqb k k' then Some v else assoc k res.
Proof.
  unfold assignProp. destruct (assoc k' res) eqn:E.
  - apply assoc_replaceProp. now rewrite E.
  - now apply assoc_insertProp.
Qed.

Lemma assoc_absent (A : Type) k (fields : list (jsstring * A)) :
  ~ In k (map fst fields) -> assoc k fields = None.
Proof.
  induction fields as [|[k0 x] fields IH]; [reflexivity|].
  cbn [map fst In assoc]. intros H.
  destruct (JsString.eqb k k0) eqn:E.
  - apply jsstring_eqb_eq in E. subst. destruct H. now left.
  - apply IH. intros H'. apply H. now right.
Qed.

Lemma mergeEntry_other f res k' v res' k :
  mergeEntry f res k' v = Done res' -> k <> k' -> assoc k res' = assoc k res.
Proof.
  intros H Hk. apply jsstring_eqb_neq in Hk.
  unfold mergeEntry in H.
  destruct (JsString.eqb k' (js "__proto__")).
  - destruct v; try discriminate; try (now injection H as <-).
    destruct (f _); discriminate.
  - destruct v; try (injection H as <-; rewrite ?assoc_assignProp, ?Hk; reflexivity).
    destruct (assoc k' res) as [old|];
      [|injection H as <-; now rewrite assoc_assignProp, Hk].
    destruct (is_object_type old);
      [|injection H as <-; now rewrite assoc_assignProp, Hk].
    destruct (f _); try discriminate.
    injection H as <-. now rewrite assoc_assignProp, Hk.
Qed.

Lemma mergeEntries_other f es : forall res r k,
  mergeEntries f es res = Done r -> ~ In k (map fst es) ->
  assoc k r = assoc k res.
Proof.
  induction es as [|[k' v] es IH]; intros res r k H Hk.
  - now injection H as <-.
  - rewrite mergeEntries_cons in H. cbn [map fst In] in Hk.
    destruct (mergeEntry f res k' v) as [res1| | |] eqn:E; try discriminate.
    cbn [andThen] in H. rewrite (IH _ _ k H) by tauto.
    eapply mergeEntry_other; [exact E|]. intros ->. apply Hk. now left.
Qed.

Lemma mergeEntry_property n res key v res' :
  mergeEntry (deepMerge_fuel n) res key v = Done res' ->
  key <> js "__proto__" ->
  merged_property (assoc key res) (Some v) = Done (assoc key res').
Proof.
  intros H Hk. apply jsstring_eqb_neq in Hk.
  unfold mergeEntry in H. rewrite Hk in H. unfold merged_property.
  destruct v as [| | b | q | s | items | fields];
    try (injection H as <-; rewrite ?assoc_assignProp, ?jsstring_eqb_refl; reflexivity).
  destruct (assoc key res) as [old|];
    [|injection H as <-; now rewrite assoc_assignProp, jsstring_eqb_refl].
  destruct (is_object_type old);
    [|injection H as <-; now rewrite assoc_assignProp, jsstring_eqb_refl].
  destruct (deepMerge_fuel n [old; VObj fields]) as [m| | |] eqn:E;
    try discriminate.
  rewrite <- (@deepMerge_fuel_agrees n) by (rewrite E; discriminate).
  rewrite E. injection H as <-.
  now rewrite assoc_assignProp, jsstring_eqb_refl.
Qed.

Lemma mergeEntries_property n es : forall res r key,
  distinct_keys es ->
  mergeEntries (deepMerge_fuel n) es res = Done r ->
  key <> js "__proto__" ->
  merged_property (assoc key res) (assoc key es) = Done (assoc key r).
Proof.
  induction es as [|[k v] es IH]; intros res r key Hd H Hk.
  - now injection H as <-.
  - rewrite mergeEntries_cons in H. unfold distinct_keys in Hd.
    cbn [map fst] in Hd. apply NoDup_cons_iff in Hd as [Hnew Hd].
    destruct (mergeEntry (deepMerge_fuel n) res k v) as [res1| | |] eqn:E;
      try discriminate.
    cbn [andThen] in H. cbn [assoc].
    destruct (JsString.eqb key k) eqn:Ek.
    + apply jsstring_eqb_eq in Ek. subst k.
      erewrite (@mergeEntries_other _ _ res1 r key) by eassumption.
      eapply mergeEntry_property; eassumption.
    + apply jsstring_eqb_neq in Ek.
      erewrite <- (@mergeEntry_other _ res k v res1 key) by eassumption.
      now apply IH.
Qed.

Lemma mergeObjects_property n key parts : forall res r,
  Forall distinct_keys parts ->
  mergeObjects (deepMerge_fuel n) (map VObj parts) res = Done r ->
  key <> js "__proto__" ->
  fold_left
    (fun acc fields =>
       match acc with
       | Done old => merged_property old (assoc key fields)
       | other => other
       end)
    parts (Done (assoc key res))
  = Done (assoc key r).
Proof.
  induction parts as [|fields parts IH]; intros res r Hd H Hk.
  - now injection H as <-.
  - cbn [map] in H. rewrite mergeObjects_cons in H. cbn [entries] in H.
    apply Forall_cons_iff in Hd as [Hf Hd].
    destruct (mergeEntries (deepMerge_fuel n) fields res) as [res1| | |] eqn:E;
      try discriminate.
    cbn [andThen] in H. cbn [fold_left].
    erewrite mergeEntries_property by eassumption.
    now apply IH.
Qed.

(** *** Objects without common keys *)

Lemma insertProp_ordinary k v (res : Fields) :
  index_of k = None -> insertProp k v res = res ++ [(k, v)].
Proof.
  intros H. induction res as [|[k0 x] res IH]; [reflexivity|].
  cbn [insertProp app]. unfold goes_before. rewrite H. now rewrite IH.
Qed.

Lemma mergeEntries_new f es : forall res,
  NoDup (map fst (res ++ es)) ->
  forallb (fun kv => ordinary (fst kv)) es = true ->
  ~ In VUndefined (map snd es) ->
  mergeEntries f es res = Done (res ++ es).
Proof.
  induction es as [|[k v] es IH]; intros res Hd Ho Hu.
  - now rewrite app_nil_r.
  - rewrite mergeEntries_cons.
    cbn [forallb fst] in Ho. apply andb_true_iff in Ho as [Hk Ho].
    unfold ordinary in Hk. apply andb_true_iff in Hk as [Hp Hi].
    apply negb_true_iff in Hp.
    destruct (index_of k) eqn:I; [discriminate|].
    assert (A : assoc k res = None).
    { apply assoc_absent. intros Hin.
      rewrite map_app in Hd. cbn [map fst] in Hd.
      apply NoDup_remove_2 in Hd. apply Hd, in_or_app. now left. }
    assert (E : mergeEntry f res k v = Done (res ++ [(k, v)])).
    { unfold mergeEntry. rewrite Hp.
      unfold assignProp. rewrite A, (@insertProp_ordinary k v res I).
      destruct v; try reflexivity.
      destruct Hu. now left. }
    rewrite E. cbn [andThen]. rewrite IH.
    + now rewrite <- app_assoc.
    + now rewrite <- app_assoc.
    + exact Ho.
    + intros H. apply Hu. now right.
Qed.

Lemma mergeObjects_new f parts : forall res,
  NoDup (map fst (res ++ concat parts)) ->
  forallb (fun kv => ordinary (fst kv)) (concat parts) = true ->
  ~ In VUndefined (map snd (concat parts)) ->
  mergeObjects f (map VObj parts) res = Done (res ++ concat parts).
Proof.
  induction parts as [|fields parts IH]; intros res Hd Ho Hu.
  - cbn. now rewrite app_nil_r.
  - cbn [map concat] in *. rewrite mergeObjects_cons. cbn [entries].
    rewrite forallb_app in Ho. apply andb_true_iff in Ho as [Ho1 Ho2].
    rewrite map_app in Hu.
    rewrite mergeEntries_new.
    + cbn [andThen]. rewrite IH.
      * now rewrite <- app_assoc.
      * now rewrite <- app_assoc.
      * exact Ho2.
      * intros H. apply Hu, in_or_app. now right.
    + rewrite app_assoc, map_app in Hd. now apply NoDup_app_remove_r in Hd.
    + exact Ho1.
    + intros H. apply Hu, in_or_app. now left.
Qed.

(** *** Arguments that are no objects *)

Lemma mergeObjects_null f objs : forall res r,
  In VNull objs \/ In VUndefined objs -> mergeObjects f objs res <> Done r.
Proof.
  induction objs as [|obj objs IH]; intros res r H.
  - now destruct H.
  - rewrite mergeObjects_cons.
    destruct (entries obj) as [es|] eqn:E; [|discriminate].
    destruct (mergeEntries f es res) as [res1| | |]; try discriminate.
    cbn [andThen]. apply IH.
    destruct H as [[-> | H] | [-> | H]]; try discriminate; tauto.
Qed.

Lemma entries_scalar f obj objs res :
  entries obj = Some [] ->
  mergeObjects f (obj :: objs) res = mergeObjects f objs res.
Proof. intros E. now rewrite mergeObjects_cons, E. Qed.

(** *** The merge, as its callers see it *)

(** X22. [deepMerge] ends on every list of values, with a result or with
    an exception: it recurses only into the values of its arguments, so
    that the depth of the recursion is at most the nesting depth of the
    arguments, and any larger bound gives the same outcome. *)
Theorem deepMerge_terminates (objects : list value) :
  deepMerge objects <> OutOfFuel
  /\ forall fuel, (depth_all objects < fuel)%nat ->
                  deepMerge_fuel fuel objects = deepMerge objects.
Proof.
  split; [apply deepMerge_returns|].
  intros fuel H. unfold deepMerge. apply deepMerge_fuel_more; [lia|].
  apply deepMerge_returns.
Qed.

Lemma deepMerge_terminates_witness :
  deepMerge_fuel 7 [defaultsObject; VObj [(js "latency", VObj [(js "perToken", num 5)])]]
  = deepMerge [defaultsObject; VObj [(js "latency", VObj [(js "perToken", num 5)])]].
Proof.
  apply (proj2 (deepMerge_terminates
                  [defaultsObject;
                   VObj [(js "latency", VObj [(js "perToken", num 5)])]]) 7%nat).
  cbn. lia.
Defined.



(** X24. Objects that share no key are concatenated: when no key occurs
    twice in the objects taken together, no key is an array index or
    [__proto__] and no value is [undefined], [deepMerge] returns the
    properties of the objects in their order, with their values as they
    are.  For one object it is a copy of the object. *)
Theorem deepMerge_distinct (parts : list Fields) :
  distinct_keys (concat parts) ->
  forallb (fun kv => ordinary (fst kv)) (concat parts) = true ->
  ~ In VUndefined (map snd (concat parts)) ->
  deepMerge (map VObj parts) = Done (concat parts).
Proof.
  intros Hd Ho Hu. unfold deepMerge. cbn [deepMerge_fuel].
  now rewrite mergeObjects_new.
Qed.

Lemma deepMerge_distinct_witness :
  deepMerge [ VObj [(js "port", num 1); (js "cors", VNull)];
              VObj [(js "verbose", VArr [VBool true])] ]
  = Done [(js "port", num 1); (js "cors", VNull);
          (js "verbose", VArr [VBool true])].
Proof.
  apply (@deepMerge_distinct
           [ [(js "port", num 1); (js "cors", VNull)];
             [(js "verbose", VArr [VBool true])] ]).
  - unfold distinct_keys. repeat constructor; cbn; intuition discriminate.
  - vm_compute. reflexivity.
  - cbn. intuition discriminate.
Defined.

(** X25. [deepMerge] does not return when [null] or [undefined] is one of
    its arguments, nor when an object brings an object for a key under
    which the object before it holds [null]: [typeof null] is ['object'],
    and the recursive call reads the entries of [null]. *)
Theorem deepMerge_null (objects : list value) (a b fields : Fields)
    (key : jsstring) (r : Fields) :
  (In VNull objects \/ In VUndefined objects -> deepMerge objects <> Done r)
  /\ (distinct_keys a -> distinct_keys b -> key <> js "__proto__" ->
      assoc key a = Some VNull -> assoc key b = Some (VObj fields) ->
      deepMerge [VObj a; VObj b] <> Done r).
Proof.
  split.
  - intros H. unfold deepMerge. cbn [deepMerge_fuel]. now apply mergeObjects_null.
  - intros Ha Hb Hk Hna Hob H.
    unfold deepMerge in H. cbn [deepMerge_fuel] in H.
    assert (Hd : Forall distinct_keys [a; b]) by (repeat constructor; assumption).
    pose proof (@mergeObjects_property _ key [a; b] [] r Hd H Hk) as P.
    cbn [fold_left assoc] in P. rewrite Hna, Hob in P.
    cbn [merged_property is_object_type] in P.
    replace (deepMerge [VNull; VObj fields]) with (@TypeError Fields) in P;
      [discriminate|].
    reflexivity.
Qed.

Lemma deepMerge_null_witness :
  deepMerge [ VObj [(js "chaos", VNull)];
              VObj [(js "chaos", VObj [(js "enabled", VBool true)])] ]
  <> Done [(js "chaos", VObj [(js "enabled", VBool true)])].
Proof.
  apply (proj2 (@deepMerge_null [] [(js "chaos", VNull)]
                  [(js "chaos", VObj [(js "enabled", VBool true)])]
                  [(js "enabled", VBool true)] (js "chaos")
                  [(js "chaos", VObj [(js "enabled", VBool true)])])).
  - unfold distinct_keys. repeat constructor; cbn; intuition.
  - unfold distinct_keys. repeat constructor; cbn; intuition.
  - discriminate.
  - reflexivity.
  - reflexivity.
Defined.

Lemma depth_all_defaults x o :
  (depth x <= 1)%nat ->
  depth_all [defaultsObject; x; o] = Nat.max 2 (depth o).
Proof.
  intros H. unfold depth_all. cbn [fold_right].
  change (depth defaultsObject) with 2%nat. lia.
Qed.

Lemma defaults_first f :
  match entries defaultsObject with
  | Some es => mergeEntries f es []
  | None => TypeError
  end
  = match entries defaultsObject with
    | Some es => Done es
    | None => TypeError
    end.
Proof. vm_compute. reflexivity. Qed.

(** X26. What a configuration file that holds no object does.  A file
    that holds [null] makes [loadConfig] throw a TypeError, whatever the
    overrides: the merge is outside of the [try].  A file that holds a
    boolean or a number counts as no file.  And without a file
    [loadConfig] is the merge of the defaults and the overrides. *)
Theorem loadConfig_file (overrides : value) (b : bool) (n : option Q) :
  loadConfig VNull overrides = TypeError
  /\ loadConfig (VBool b) overrides = loadConfig (VObj []) overrides
  /\ loadConfig (VNum n) overrides = loadConfig (VObj []) overrides
  /\ loadConfig (VObj []) VUndefined = loadConfig (VObj []) (VObj [])
  /\ (overrides <> VUndefined ->
      loadConfig (VObj []) overrides = deepMerge [defaultsObject; overrides]).
Proof.
  assert (Scalar : forall x o,
             (depth x <= 1)%nat -> entries x = Some [] ->
             deepMerge [defaultsObject; x; o] = deepMerge [defaultsObject; VObj []; o]).
  { intros x o Hx Ex. unfold deepMerge.
    rewrite !depth_all_defaults by (cbn; lia). cbn [deepMerge_fuel].
    rewrite !(mergeObjects_cons _ defaultsObject).
    destruct (match entries defaultsObject with
              | Some es => mergeEntries _ es []
              | None => TypeError
              end); cbn [andThen]; try reflexivity.
    rewrite !mergeObjects_cons. now rewrite Ex. }
  split; [|split; [|split; [|split]]].
  - unfold loadConfig, deepMerge. cbn [deepMerge_fuel].
    rewrite mergeObjects_cons, defaults_first. reflexivity.
  - unfold loadConfig. apply Scalar; [cbn; lia | reflexivity].
  - unfold loadConfig. apply Scalar; [cbn; lia | reflexivity].
  - reflexivity.
  - intros H. unfold loadConfig.
    assert (E : match overrides with VUndefined => VObj [] | _ => overrides end
                = overrides) by (destruct overrides; congruence).
    rewrite E. unfold deepMerge.
    rewrite depth_all_defaults by (cbn; lia).
    replace (depth_all [defaultsObject; overrides]) with (Nat.max 2 (depth overrides)).
    + cbn [deepMerge_fuel].
      rewrite !(mergeObjects_cons _ defaultsObject).
      destruct (match entries defaultsObject with
                | Some es => mergeEntries _ es []
                | None => TypeError
                end); cbn [andThen]; reflexivity.
    + unfold depth_all. cbn [fold_right].
      change (depth defaultsObject) with 2%nat. lia.
Qed.

Lemma loadConfig_file_witness :
  loadConfig (VObj []) (VObj [(js "port", num 1)])
  = deepMerge [defaultsObject; VObj [(js "port", num 1)]].
Proof.
  apply (proj2 (proj2 (proj2 (proj2
           (loadConfig_file (VObj [(js "port", num 1)]) true None))))).
  discriminate.
Defined.

(** ** The configuration of the command line *)

Lemma given_valueOf key args :
  given key args = true ->
  valueOf key args = VBool true \/ exists s, valueOf key args = VStr s.
Proof.
  unfold given, valueOf. destruct (arg key args) as [[|s|]|]; try discriminate.
  - now left.
  - right. now exists s.
Qed.

Lemma loadConfig_overridesOf args :
  match overridesOf args with
  | Some overrides => numbers_held args = true
                      /\ loadConfig (VObj []) overrides = Done (configuredBy args)
  | None => numbers_held args = false
  end.
Proof.
  unfold overridesOf, portOverride, latencyOverride, numbers_held, configuredBy,
    shown.
  pose proof (@given_valueOf "persona" args) as P.
  destruct (given "port" args); cbn [negb orb andb];
    [destruct (numberOf "port" args) as [|port|];
     cbn [numberValue is_held andb]|];
    (destruct (given "latency" args); cbn [negb orb andb];
     [destruct (numberOf "latency" args) as [|ms|];
      cbn [times5 numberValue is_held];
      [ | destruct (is_exact (ms * 5)); cbn [numberValue is_held] | ]|]);
    try reflexivity;
    (split; [reflexivity|]);
    (destruct (given "persona" args);
     [ destruct (P eq_refl) as [-> | [s ->]]
     | generalize (valueOf "persona" args); intros p ]);
    destruct (given "verbose" args || given "v" args), (given "chaos" args);
    vm_compute; reflexivity.
Qed.

(** X27. The configuration of a command line, without a configuration
    file.  [--help] prints the help and otherwise [--personas] the
    personas.  Otherwise, for numbers of [--port] and [--latency] that are
    [NaN] or integers that binary64 holds exactly, five times the latency
    included, [loadConfig] returns the defaults in which [--port] replaces
    [port], [--latency] replaces [latency.perToken] by its number and
    [latency.firstToken] by five times that while [latency.variance]
    stays, [--chaos] sets [chaos.enabled] and leaves the rates,
    [--persona] replaces [defaults.persona] and leaves
    [defaults.maxTokens], and [--verbose], [-v] or [--v] sets [verbose]; a
    number that does not parse is [NaN].  Of larger numbers nothing is
    said. *)
Theorem cli_config (argv : list jsstring) :
  let args := parseArgs argv in
  cli (VObj []) argv
  = if given "help" args then Some PrintHelp
    else if given "personas" args then Some PrintPersonas
    else if numbers_held args then Some (Listen (Done (configuredBy args)))
    else None.
Proof.
  intros args. unfold cli. fold args.
  pose proof (loadConfig_overridesOf args) as H.
  destruct (given "help" args); [reflexivity|].
  destruct (given "personas" args); [reflexivity|].
  destruct (overridesOf args) as [overrides|].
  - destruct H as [-> ->]. reflexivity.
  - now rewrite H.
Qed.
